(** * Schema resolution and validation utility ([validator01.js])

    A shallow embedding of the command-line validator of
    [packages/node-cli/src/validator01.js] and the properties of its
    reference indexer, type resolver, schema preparation and pipeline.

    JavaScript strings are sequences of UTF-16 code units, the regular
    expression of [findAllRefs] is kept as a syntax tree and run by a
    backtracking matcher, [Map] is an insertion-ordered association list and
    the effects of [main] (network, console, exceptions) are a trace of events
    together with a result. *)

From Stdlib Require Import String Ascii DecimalString.
From Stdlib Require Import List NArith Arith Lia Bool Sorted Permutation.
Import ListNotations.

Set Implicit Arguments.

(* ================================================================= *)
(** * Part I: the program *)
(* ================================================================= *)

(** ** Strings *)

(** A code unit of a JavaScript string. *)
Definition char := N.
Bind Scope N_scope with char.
Definition str := list char.

Definition char_of_ascii (a : ascii) : char := N_of_ascii a.

(** [lit s] is the JavaScript string with the (ASCII) characters of [s]. *)
Definition lit (s : string) : str := map char_of_ascii (list_ascii_of_string s).

Definition dquote : char := 34%N.
Definition backslash : char := 92%N.
Definition dollar : char := 36%N.

Fixpoint str_eqb (a b : str) : bool :=
  match a, b with
  | [], [] => true
  | x :: a', y :: b' => N.eqb x y && str_eqb a' b'
  | _, _ => false
  end.

(** ** Regular expressions *)

(** The members of a bracket class, or a class escape on its own. *)
Inductive class_item :=
| CWord                (* \w *)
| CDigit               (* \d *)
| CSpace               (* \s *)
| CChar (c : char).    (* a single character, escaped or not *)

Definition in_range (lo hi c : char) : bool := (N.leb lo c && N.leb c hi)%bool.

Definition is_digit (c : char) : bool := in_range 48 57 c.

Definition is_word (c : char) : bool :=
  (in_range 97 122 c || in_range 65 90 c || in_range 48 57 c || N.eqb c 95)%bool.

(** WhiteSpace and LineTerminator of ECMAScript. *)
Definition is_space (c : char) : bool :=
  (in_range 9 13 c || N.eqb c 32 || N.eqb c 160 || N.eqb c 5760
   || in_range 8192 8202 c || N.eqb c 8232 || N.eqb c 8233 || N.eqb c 8239
   || N.eqb c 8287 || N.eqb c 12288 || N.eqb c 65279)%bool.

Definition item_matches (i : class_item) (c : char) : bool :=
  match i with
  | CWord => is_word c
  | CDigit => is_digit c
  | CSpace => is_space c
  | CChar x => N.eqb c x
  end.

(** A term that consumes exactly one character. *)
Inductive atom :=
| ALit (c : char)
| ASet (items : list class_item).

Definition atom_matches (a : atom) (c : char) : bool :=
  match a with
  | ALit x => N.eqb c x
  | ASet items => existsb (fun i => item_matches i c) items
  end.

(** The fragment of the pattern language that [findAllRefs] uses: the
    quantifiers are greedy and stand on one-character terms. *)
Inductive regex :=
| REmpty
| RAtom (a : atom)
| RStar (a : atom)
| RPlus (a : atom)
| ROpt (a : atom)
| RSeq (r1 r2 : regex)
| RGroup (n : nat) (r : regex).

Definition rcat (rs : list regex) : regex := fold_right RSeq REmpty rs.
Definition rchars (s : str) : regex := rcat (map (fun c => RAtom (ALit c)) s).

Definition captures := list (nat * str).

Fixpoint capture (n : nat) (caps : captures) : option str :=
  match caps with
  | [] => None
  | (m, s) :: caps' => if Nat.eqb n m then Some s else capture n caps'
  end.

(** A continuation receives what is left of the input and the captures. *)
Definition cont := str -> captures -> option (str * captures).

(** Greedy repetition: take one more character when possible, and give a
    character back each time the rest of the pattern fails. *)
Fixpoint match_star (a : atom) (s : str) (caps : captures) (k : cont)
  : option (str * captures) :=
  match s with
  | c :: s' =>
      if atom_matches a c then
        match match_star a s' caps k with
        | Some r => Some r
        | None => k s caps
        end
      else k s caps
  | [] => k s caps
  end.

Fixpoint rmatch (r : regex) (s : str) (caps : captures) (k : cont)
  : option (str * captures) :=
  match r with
  | REmpty => k s caps
  | RAtom a =>
      match s with
      | c :: s' => if atom_matches a c then k s' caps else None
      | [] => None
      end
  | RStar a => match_star a s caps k
  | RPlus a =>
      match s with
      | c :: s' => if atom_matches a c then match_star a s' caps k else None
      | [] => None
      end
  | ROpt a =>
      match s with
      | c :: s' =>
          if atom_matches a c then
            match k s' caps with
            | Some res => Some res
            | None => k s caps
            end
          else k s caps
      | [] => k s caps
      end
  | RSeq r1 r2 => rmatch r1 s caps (fun s' caps' => rmatch r2 s' caps' k)
  | RGroup n r' =>
      rmatch r' s caps
        (fun s' caps' => k s' ((n, firstn (length s - length s') s) :: caps'))
  end.

(** The array that [exec] returns: [index], the matched text and the groups. *)
Record match_result := MatchResult {
  m_index : nat;
  m_text : str;
  m_captures : captures
}.

(** [match[n]]; a group that took no part in the match is [undefined]. *)
Definition m_group (n : nat) (m : match_result) : option str :=
  capture n (m_captures m).

Definition match_here (r : regex) (s : str) : option (str * captures) :=
  match rmatch r s [] (fun s' caps => Some (s', caps)) with
  | Some (s', caps) => Some (firstn (length s - length s') s, caps)
  | None => None
  end.

(** The leftmost match at or after position [i], [s] being the input from
    [i] on. *)
Fixpoint exec_from (r : regex) (s : str) (i : nat) : option match_result :=
  match match_here r s with
  | Some (t, caps) => Some (MatchResult i t caps)
  | None =>
      match s with
      | [] => None
      | _ :: s' => exec_from r s' (S i)
      end
  end.

(** A regular expression object with the [g] flag. *)
Record RegExp := mkRegExp {
  source : regex;
  lastIndex : nat
}.

Definition RegExp_exec (re : RegExp) (text : str) : option match_result * RegExp :=
  if Nat.ltb (length text) (lastIndex re) then
    (None, mkRegExp (source re) 0)
  else
    match exec_from (source re) (skipn (lastIndex re) text) (lastIndex re) with
    | Some m => (Some m, mkRegExp (source re) (m_index m + length (m_text m)))
    | None => (None, mkRegExp (source re) 0)
    end.

(** ** Map *)

(** A [Map] with string keys, in insertion order. *)
Definition Map := list (str * str).

Definition Map_empty : Map := [].

Fixpoint Map_get (k : str) (m : Map) : option str :=
  match m with
  | [] => None
  | (k', v) :: m' => if str_eqb k k' then Some v else Map_get k m'
  end.

(** [set] keeps the place of a key that is already present. *)
Fixpoint Map_set (k v : str) (m : Map) : Map :=
  match m with
  | [] => [(k, v)]
  | (k', v') :: m' =>
      if str_eqb k k' then (k', v) :: m' else (k', v') :: Map_set k v m'
  end.

Definition Map_size (m : Map) : nat := length m.
Definition Map_keys (m : Map) : list str := map fst m.

(** ** The reference pattern of [findAllRefs] *)

Definition url_class : atom := ASet [CWord; CChar 47; CDigit; CChar 95; CChar 46; CChar 45].
Definition key_class : atom := ASet [CWord; CDigit; CChar 95; CChar 46; CChar 45].
Definition space_class : atom := ASet [CSpace].

(** [/\"\$ref\"\s*:\s*\"(https?:\/\/[\w\/\d_\.\-]+)#\/properties\/([\w\d_\.\-]+)\"/] *)
Definition ref_regexp : regex :=
  rcat [ RAtom (ALit dquote); rchars (lit "$ref"); RAtom (ALit dquote);
         RStar space_class; RAtom (ALit 58); RStar space_class;
         RAtom (ALit dquote);
         RGroup 1 (rcat [ rchars (lit "http"); ROpt (ALit 115);
                          rchars (lit "://"); RPlus url_class ]);
         rchars (lit "#/properties/");
         RGroup 2 (RPlus key_class);
         RAtom (ALit dquote) ].

(** The loop [while ((match = regexp.exec(text)) !== null) urls.set(match[2], match[1])];
    [None] when the iterations allowed by [fuel] do not reach the end of it.
    Both groups take part in every match of the pattern of [findAllRefs], so
    that the keys and values of the map are strings; a match without them
    is given no meaning here. *)
Fixpoint findAllRefs_loop (fuel : nat) (regexp : RegExp) (text : str) (urls : Map)
  : option Map :=
  match fuel with
  | 0 => None
  | S fuel' =>
      match RegExp_exec regexp text with
      | (Some m, regexp') =>
          match m_group 2 m, m_group 1 m with
          | Some key, Some url => findAllRefs_loop fuel' regexp' text (Map_set key url urls)
          | _, _ => None
          end
      | (None, _) => Some urls
      end
  end.

Definition findAllRefs_text (text : str) : option Map :=
  findAllRefs_loop (S (length text)) (mkRegExp ref_regexp 0) text Map_empty.

(** ** Exceptions and results *)

Inductive exn :=
| Error (message : str)                    (* new Error(message) *)
| TypeError (message : str)
| SyntaxError (message : str)
| DOMException (name : str) (message : str)
| SystemError (code : str).                (* a failure of the file system *)

(** What a call ends in: a value or an exception. *)
Inductive result (A : Type) :=
| Return (a : A)
| Throw (e : exn).

Arguments Return {A} a.
Arguments Throw {A} e.

(** ** Serialization of strings *)

Definition hex_digit (n : N) : char :=
  if N.ltb n 10 then (48 + n)%N else (87 + n)%N.

(** UnicodeEscape: [\uXXXX] with lower-case digits. *)
Definition UnicodeEscape (c : char) : str :=
  [backslash; 117%N; hex_digit (N.modulo (N.div c 4096) 16);
   hex_digit (N.modulo (N.div c 256) 16); hex_digit (N.modulo (N.div c 16) 16);
   hex_digit (N.modulo c 16)].

Definition is_leading_surrogate (c : char) : bool := in_range 55296 56319 c.
Definition is_trailing_surrogate (c : char) : bool := in_range 56320 57343 c.

(** The text of one code unit that is not half of a surrogate pair. *)
Definition quote_unit (c : char) : str :=
  if N.eqb c 8 then [backslash; 98%N]
  else if N.eqb c 9 then [backslash; 116%N]
  else if N.eqb c 10 then [backslash; 110%N]
  else if N.eqb c 12 then [backslash; 102%N]
  else if N.eqb c 13 then [backslash; 114%N]
  else if N.eqb c dquote then [backslash; dquote]
  else if N.eqb c backslash then [backslash; backslash]
  else if (N.ltb c 32 || is_leading_surrogate c || is_trailing_surrogate c)%bool
       then UnicodeEscape c
  else [c].

(** The body of QuoteJSONString: a well-formed surrogate pair is copied, a
    lone surrogate is escaped. *)
Fixpoint quote_body (s : str) : str :=
  match s with
  | [] => []
  | c :: t =>
      if is_leading_surrogate c then
        match t with
        | d :: t' =>
            if is_trailing_surrogate d then c :: d :: quote_body t'
            else UnicodeEscape c ++ quote_body t
        | [] => UnicodeEscape c
        end
      else quote_unit c ++ quote_body t
  end.

Definition QuoteJSONString (s : str) : str := dquote :: quote_body s ++ [dquote].

Fixpoint join (sep : str) (parts : list str) : str :=
  match parts with
  | [] => []
  | p :: ps =>
      match ps with
      | [] => p
      | _ :: _ => p ++ sep ++ join sep ps
      end
  end.

(** The property names of the indices [0 .. n-1], then [length]. *)
Definition index_name (i : nat) : str := lit (NilEmpty.string_of_uint (Nat.to_uint i)).
Definition indexed_names (n : nat) : list str := map index_name (seq 0 n) ++ [lit "length"].

(** The error objects that a compiled validator leaves in [validate.errors]. *)
Record ErrorObject := mkErrorObject {
  instancePath : str;
  schemaPath : str;
  keyword : str;
  message : str
}.

Section WithNumbers.

(** JSON numbers are kept abstract: [Number_toString] is the text that
    [JSON.stringify] writes for one. *)
Variable number : Type.
Variable Number_toString : number -> str.

(** ** JSON values *)

(** An object lists its properties in the order of its own property names. *)
#[local] Unset Elimination Schemes.
Inductive json :=
| JNull
| JBool (b : bool)
| JNum (n : number)
| JStr (s : str)
| JArr (items : list json)
| JObj (props : list (str * json)).
#[local] Set Elimination Schemes.

(** [JSON.stringify(value)] without indentation. *)
Fixpoint JSON_stringify (v : json) : str :=
  match v with
  | JNull => lit "null"
  | JBool true => lit "true"
  | JBool false => lit "false"
  | JNum n => Number_toString n
  | JStr s => QuoteJSONString s
  | JArr items => lit "[" ++ join (lit ",") (map JSON_stringify items) ++ lit "]"
  | JObj props =>
      lit "{"
      ++ join (lit ",")
           (map (fun kv => QuoteJSONString (fst kv) ++ lit ":" ++ JSON_stringify (snd kv))
                props)
      ++ lit "}"
  end.

(** Induction on a value, with the property for what it holds. *)
Section JsonInduction.

Variable P : json -> Prop.
Hypothesis HNull : P JNull.
Hypothesis HBool : forall b, P (JBool b).
Hypothesis HNum : forall n, P (JNum n).
Hypothesis HStr : forall s, P (JStr s).
Hypothesis HArr : forall items, Forall P items -> P (JArr items).
Hypothesis HObj : forall props, Forall (fun kv => P (snd kv)) props -> P (JObj props).

Fixpoint json_induction (v : json) : P v :=
  match v with
  | JNull => HNull
  | JBool b => HBool b
  | JNum n => HNum n
  | JStr s => HStr s
  | JArr items =>
      HArr ((fix all (l : list json) : Forall P l :=
               match l with
               | [] => Forall_nil P
               | x :: l' => Forall_cons x (json_induction x) (all l')
               end) items)
  | JObj props =>
      HObj ((fix all (l : list (str * json)) : Forall (fun kv => P (snd kv)) l :=
               match l with
               | [] => Forall_nil _
               | kv :: l' =>
                   Forall_cons kv
                     (match kv as kv0 return P (snd kv0) with
                      | (_, x) => json_induction x
                      end)
                     (all l')
               end) props)
  end.

End JsonInduction.

(** [Object.getOwnPropertyNames(value)] *)
Definition Object_getOwnPropertyNames (v : json) : result (list str) :=
  match v with
  | JNull => Throw (TypeError (lit "Cannot convert undefined or null to object"))
  | JBool _ => Return []
  | JNum _ => Return []
  | JStr s => Return (indexed_names (length s))
  | JArr items => Return (indexed_names (length items))
  | JObj props => Return (map fst props)
  end.

Definition remove_key (key : str) (props : list (str * json)) : list (str * json) :=
  filter (fun kv => negb (str_eqb (fst kv) key)) props.

(** [delete value[key]] for a [key] that is neither an index nor [length];
    the value after the statement. *)
Definition delete_property (v : json) (key : str) : result json :=
  match v with
  | JNull => Throw (TypeError (lit "Cannot convert undefined or null to object"))
  | JObj props => Return (JObj (remove_key key props))
  | _ => Return v
  end.

Definition schema_key : str := lit "$schema".

(** ** The functions of [validator01.js] *)

Definition RESOURCES_PATH : str := lit "../resources/".

Definition PARENT_SCHEME_URL : str :=
  lit "https://raw.githubusercontent.com/oracle/netsuite-suitecloud-sdk/refs/heads/feature/PDPDEVTOOL-6007-schemas_for_suitecloud_tools/packages/schemas/parent-netsuite-1.0.0.json".

(** [process.argv.slice(2)] has to be a single file name. *)
Definition readInputParameters (argv : list str) : result str :=
  let input := skipn 2 argv in
  if negb (Nat.eqb (length input) 1) then
    Throw (Error (lit "Missing input json file"))
  else
    match input with
    | x :: _ => Return x
    | [] => Throw (Error (lit "Missing input json file"))
    end.

Definition findAllRefs (jsonParentSchema : json) : option Map :=
  let text := JSON_stringify jsonParentSchema in
  findAllRefs_loop (S (length text)) (mkRegExp ref_regexp 0) text Map_empty.

(** Property names are strings, so [typeof jsonTypeList[0] === "string"]
    holds of every list of length one; [availableTypes.keys()] has no effect. *)
Definition getJsonFileType (jsonFile : json) (availableTypes : Map) : result str :=
  match Object_getOwnPropertyNames jsonFile with
  | Return names =>
      let jsonTypeList := filter (fun prop => negb (str_eqb prop schema_key)) names in
      if Nat.eqb (length jsonTypeList) 1 then
        match jsonTypeList with
        | t :: _ => Return t
        | [] => Throw (Error (lit "Wrong json file, no main entity: "))
        end
      else Throw (Error (lit "Wrong json file, no main entity: "))
  | Throw e => Throw e
  end.

(** [delete schema.$schema] *)
Definition prepare (schema : json) : result json := delete_property schema schema_key.

(** ** The world around a run *)

(** What [fetch] settles to: a rejection, or a response with its [ok] flag
    and what [response.json()] settles to. *)
Inductive fetch_reply :=
| FetchRejected (e : exn)
| FetchResponse (ok : bool) (body : result json).

(** What a call [validate(jsonFile)] of a compiled validator does. It returns
    a boolean and leaves its errors in [validate.errors]; or, compiled from a
    schema with [$async], it returns a promise, given here with the exception
    that the promise is rejected with, if it is; or it throws. *)
Inductive validation :=
| Answers (valid : bool) (errors : list ErrorObject)
| Promises (rejection : option exn)
| Raises (e : exn).

(** A compiled validator. *)
Definition validateFunction := json -> validation.

Record World := mkWorld {
  process_argv : list str;
  (* JSON.parse(readFileSync(path, "utf8")) *)
  fs_readJson : str -> result json;
  (* fetch(url, {signal: AbortSignal.timeout(ms)}) *)
  net_fetch : str -> N -> fetch_reply;
  (* ajv.compile(schema) *)
  ajv_compile : json -> result validateFunction
}.

Inductive event :=
| EvReadFile (path : str)
| EvFetch (url : str) (timeout_ms : N)
| EvCompile (schema : json)
| EvValidate (document : json)
| EvConsoleLog (text : str)
| EvConsoleError (text : str) (errors : list ErrorObject).

(** What a computation with effects ends in; [Diverged] is a loop that
    does not end. *)
Inductive io_result (A : Type) :=
| Done (a : A)
| Raised (e : exn)
| Diverged.

Arguments Done {A} a.
Arguments Raised {A} e.
Arguments Diverged {A}.

(** A computation with effects: the events it produced and its result. *)
Definition IO (A : Type) : Type := list event * io_result A.

Definition ret {A} (a : A) : IO A := ([], Done a).
Definition diverge {A} : IO A := ([], Diverged).
Definition emit (ev : event) : IO unit := ([ev], Done tt).

Definition lift {A} (r : result A) : IO A :=
  match r with
  | Return a => ([], Done a)
  | Throw e => ([], Raised e)
  end.

Definition bind {A B} (c : IO A) (k : A -> IO B) : IO B :=
  match c with
  | (tr, Done a) => let (tr', r) := k a in (tr ++ tr', r)
  | (tr, Raised e) => (tr, Raised e)
  | (tr, Diverged) => (tr, Diverged)
  end.

Notation "x <- c ;; k" := (bind c (fun x => k))
  (at level 61, c at next level, right associativity).
Notation "c ;;; k" := (bind c (fun _ => k))
  (at level 61, right associativity).

Section Run.

Variable w : World.

Definition readHttpsJsonUrl (url : str) : IO json :=
  emit (EvFetch url 5000) ;;;
  match net_fetch w url 5000 with
  | FetchRejected e => lift (Throw e)
  | FetchResponse ok body =>
      if negb ok then lift (Throw (Error (lit "Network response was not ok")))
      else lift body
  end.

Definition readJsonFile (fileName : str) : IO json :=
  emit (EvReadFile (RESOURCES_PATH ++ fileName)) ;;;
  lift (fs_readJson w (RESOURCES_PATH ++ fileName)).

Definition findAllRefs_io (jsonParentSchema : json) : IO Map :=
  match findAllRefs jsonParentSchema with
  | Some urls => ret urls
  | None => diverge
  end.

Definition compile (schema : json) : IO validateFunction :=
  emit (EvCompile schema) ;;; lift (ajv_compile w schema).

(** Not called by [main], which repeats its steps. *)
Definition getValidateFunctionFromUrl (urlFileSchema : str) : IO validateFunction :=
  schema <- readHttpsJsonUrl urlFileSchema ;;
  schema' <- lift (prepare schema) ;;
  compile schema'.

(** The body of the asynchronous function of [main]. What [validate]
    returns is tested with [!valid]: a promise is an object, for which
    [!valid] is [false]. The function does not wait for such a promise; it
    returns the exception that a promise it leaves behind is rejected with,
    if there is one. *)
Definition main_async (jsonFile : json) : IO (option exn) :=
  jsonParentSchema <- readHttpsJsonUrl PARENT_SCHEME_URL ;;
  subSchemes <- findAllRefs_io jsonParentSchema ;;
  jsonFileType <- lift (getJsonFileType jsonFile subSchemes) ;;
  match Map_get jsonFileType subSchemes with
  | Some urlFileTypeSchema =>
      schema <- readHttpsJsonUrl urlFileTypeSchema ;;
      schema' <- lift (delete_property schema schema_key) ;;
      validate <- compile schema' ;;
      jsonFile' <- lift (delete_property jsonFile schema_key) ;;
      emit (EvValidate jsonFile') ;;;
      match validate jsonFile' with
      | Answers valid errors =>
          (if negb valid then emit (EvConsoleError (lit "Validation errors:") errors)
           else emit (EvConsoleLog (lit "The file is valid"))) ;;;
          ret None
      | Promises rejection =>
          emit (EvConsoleLog (lit "The file is valid")) ;;;
          ret rejection
      | Raises e => lift (Throw e)
      end
  | None =>
      emit (EvConsoleLog (lit "Json object invalid: " ++ jsonFileType)) ;;;
      ret None
  end.

(** The part of [main] that runs before the asynchronous function. *)
Definition main_sync : IO json :=
  filenameToValidate <- lift (readInputParameters (process_argv w)) ;;
  readJsonFile filenameToValidate.

(** How the process ends. Nothing handles the promise of the asynchronous
    function, nor a promise that this function leaves behind: the rejection
    of either is an unhandled rejection. *)
Inductive outcome :=
| Completed
| UncaughtException (e : exn)
| UnhandledRejection (e : exn)
| NeverSettles.

Definition main : list event * outcome :=
  match main_sync with
  | (tr, Done jsonFile) =>
      match main_async jsonFile with
      | (tr', Done None) => (tr ++ tr', Completed)
      | (tr', Done (Some e)) => (tr ++ tr', UnhandledRejection e)
      | (tr', Raised e) => (tr ++ tr', UnhandledRejection e)
      | (tr', Diverged) => (tr ++ tr', NeverSettles)
      end
  | (tr, Raised e) => (tr, UncaughtException e)
  | (tr, Diverged) => (tr, NeverSettles)
  end.

End Run.

End WithNumbers.

Arguments JNull {number}.
Arguments FetchRejected {number} e.
Arguments FetchResponse {number} ok body.
Arguments JBool {number} b.
Arguments JStr {number} s.
Arguments JArr {number} items.
Arguments JObj {number} props.
Arguments Done {A} a.
Arguments Raised {A} e.
Arguments Diverged {A}.
Arguments EvReadFile {number} path.
Arguments EvFetch {number} url timeout_ms.
Arguments EvConsoleLog {number} text.
Arguments EvConsoleError {number} text errors.

(** ** Names of the specification *)

(** The failures of the specification's taxonomy that the program raises,
    as the exceptions it raises them with. *)
Definition UsageError : exn := Error (lit "Missing input json file").
Definition AmbiguousOrMissingEntityError : exn := Error (lit "Wrong json file, no main entity: ").
Definition NetworkResponseNotOk : exn := Error (lit "Network response was not ok").
Definition TimeoutError : exn := DOMException (lit "TimeoutError") (lit "The operation was aborted due to timeout").

(** [bind] of the results, to compose two steps that may throw. *)
Definition result_bind {A B} (r : result A) (k : A -> result B) : result B :=
  match r with
  | Return a => k a
  | Throw e => Throw e
  end.

(** The value of the first property named [key]. *)
Fixpoint obj_get {number} (key : str) (props : list (str * json number)) : option (json number) :=
  match props with
  | [] => None
  | (k, v) :: props' => if str_eqb key k then Some v else obj_get key props'
  end.

(** ** What the pattern describes *)

Definition all_match (a : atom) (t : str) : Prop :=
  Forall (fun c => atom_matches a c = true) t.

(** [denote r t caps caps']: the pattern [r] describes the text [t], and
    adds to the captures [caps] what makes [caps']. *)
Fixpoint denote (r : regex) (t : str) (caps caps' : captures) : Prop :=
  match r with
  | REmpty => t = [] /\ caps' = caps
  | RAtom a => (exists c, t = [c] /\ atom_matches a c = true) /\ caps' = caps
  | RStar a => all_match a t /\ caps' = caps
  | RPlus a => (t <> [] /\ all_match a t) /\ caps' = caps
  | ROpt a => (t = [] \/ exists c, t = [c] /\ atom_matches a c = true) /\ caps' = caps
  | RSeq r1 r2 =>
      exists t1 t2 caps1,
        t = t1 ++ t2 /\ denote r1 t1 caps caps1 /\ denote r2 t2 caps1 caps'
  | RGroup n r' => exists caps1, denote r' t caps caps1 /\ caps' = (n, t) :: caps1
  end.

(** A reference to a property of an external schema, as the comment of
    [findAllRefs] gives its format:
    ["$ref":"https://<url>.json#/properties/<jsonEntityIdentifier>"]. *)
Definition spaces (ws : str) : Prop := all_match space_class ws.

Definition well_formed_url (u : str) : Prop :=
  exists body,
    (u = lit "http://" ++ body \/ u = lit "https://" ++ body)
    /\ body <> [] /\ all_match url_class body.

Definition well_formed_key (k : str) : Prop := k <> [] /\ all_match key_class k.

Definition ref_pattern (ws1 ws2 u k : str) : str :=
  dquote :: lit "$ref" ++ dquote :: ws1 ++ lit ":" ++ ws2
  ++ dquote :: u ++ lit "#/properties/" ++ k ++ [dquote].

(** The text holds a reference to [k] at [u] from position [p] up to [e]. *)
Definition ref_span (text : str) (p e : nat) (u k : str) : Prop :=
  exists pre ws1 ws2 rest,
    text = pre ++ ref_pattern ws1 ws2 u k ++ rest
    /\ length pre = p /\ e = p + length (ref_pattern ws1 ws2 u k)
    /\ spaces ws1 /\ spaces ws2 /\ well_formed_url u /\ well_formed_key k.

(** A reference found in a text: where it starts and stops, and what it
    refers to. *)
Record ref := mkRef {
  ref_start : nat;
  ref_stop : nat;
  ref_url : str;
  ref_key : str
}.

Definition is_ref (text : str) (r : ref) : Prop :=
  ref_span text (ref_start r) (ref_stop r) (ref_url r) (ref_key r).

Definition add_ref (urls : Map) (r : ref) : Map :=
  Map_set (ref_key r) (ref_url r) urls.

(** [a] stops before [b] starts. *)
Definition before (a b : ref) : Prop := ref_stop a <= ref_start b.

(** No reference of the text starts inside another one. *)
Definition non_overlapping (text : str) : Prop :=
  forall r r', is_ref text r -> is_ref text r' ->
    ref_start r < ref_start r' -> ref_stop r <= ref_start r'.

(** ** The lexical shape of a serialized text *)

(** The characters after which a string starts in a serialized text. *)
Definition is_opener (c : char) : bool :=
  (N.eqb c 91 || N.eqb c 123 || N.eqb c 44 || N.eqb c 58)%bool.

(** Neither a double quote nor a dollar sign. *)
Definition plain_char (c : char) : bool :=
  (negb (N.eqb c dquote) && negb (N.eqb c dollar))%bool.

Inductive lex_mode := AfterOpener | Outside | InString | InEscape.

(** One character of a text read from left to right: a string starts
    after an opener only, and no dollar sign stands outside of a string. *)
Definition lex_step (m : lex_mode) (c : char) : option lex_mode :=
  match m with
  | AfterOpener =>
      if N.eqb c dquote then Some InString
      else if N.eqb c dollar then None
      else if is_opener c then Some AfterOpener else Some Outside
  | Outside =>
      if N.eqb c dquote then None
      else if N.eqb c dollar then None
      else if is_opener c then Some AfterOpener else Some Outside
  | InString =>
      if N.eqb c backslash then Some InEscape
      else if N.eqb c dquote then Some Outside
      else Some InString
  | InEscape => Some InString
  end.

Fixpoint lex_run (m : lex_mode) (t : str) : option lex_mode :=
  match t with
  | [] => Some m
  | c :: t' =>
      match lex_step m c with
      | Some m' => lex_run m' t'
      | None => None
      end
  end.

Definition outside (m : lex_mode) : Prop := m = AfterOpener \/ m = Outside.

(** The references of a text, place by place. *)
Definition ref_here (text : str) (p : nat) : list ref :=
  match match_here ref_regexp (skipn p text) with
  | Some (t, caps) =>
      match capture 1 caps, capture 2 caps with
      | Some u, Some k => [mkRef p (p + length t) u k]
      | _, _ => []
      end
  | None => []
  end.

Definition all_refs (text : str) : list ref :=
  flat_map (ref_here text) (seq 0 (S (length text))).

(** ** Example documents *)

(** Numbers that are natural numbers, written in decimal. *)
Definition N_toString (n : N) : str := lit (NilEmpty.string_of_uint (N.to_uint n)).

Definition ref_to (url key : string) : json N :=
  JObj [(lit "$ref", JStr (lit url ++ lit "#/properties/" ++ lit key))].

(** A parent schema with two entity types. *)
Definition parent_example : json N :=
  JObj [(lit "$schema", JStr (lit "https://json-schema.org/draft-07/schema"));
        (lit "properties",
         JObj [(lit "invoice", ref_to "https://x/invoice.json" "invoice");
               (lit "creditmemo", ref_to "https://x/creditmemo.json" "creditmemo")])].

(** A parent schema that names [invoice] twice. *)
Definition parent_repeated : json N :=
  JObj [(lit "properties",
         JObj [(lit "invoice", ref_to "https://x/old.json" "invoice");
               (lit "invoices", ref_to "https://x/new.json" "invoice")])].

(** A parent schema without references. *)
Definition parent_empty : json N := JObj [(lit "properties", JObj [])].

Definition invoice_document : json N :=
  JObj [(lit "$schema", JStr (lit "https://x/parent.json"));
        (lit "invoice", JObj [(lit "id", JNum 1%N)])].


Definition salesorder_document : json N :=
  JObj [(lit "salesorder", JObj [(lit "id", JNum 7%N)])].

(** The two references of [parent_example], by their places in its text. *)
Definition parent_example_refs : list ref :=
  [mkRef 78 129 (lit "https://x/invoice.json") (lit "invoice");
   mkRef 145 202 (lit "https://x/creditmemo.json") (lit "creditmemo")].

(** The index of [parent_example]. *)
Definition parent_example_index : Map :=
  [(lit "invoice", lit "https://x/invoice.json");
   (lit "creditmemo", lit "https://x/creditmemo.json")].

(** [invoice_document] without its [$schema]. *)
Definition invoice_document_stripped : json N :=
  JObj [(lit "invoice", JObj [(lit "id", JNum 1%N)])].

(** The schema of an invoice, as it is fetched. *)
Definition invoice_schema : json N :=
  JObj [(lit "$schema", JStr (lit "https://json-schema.org/draft-07/schema"));
        (lit "type", JStr (lit "object"));
        (lit "properties",
         JObj [(lit "invoice",
                JObj [(lit "properties",
                       JObj [(lit "id", JObj [(lit "type", JStr (lit "string"))])])])])].

(** A validator that finds one violation, and one that finds none. *)
Definition id_must_be_string : validateFunction N :=
  fun _ =>
    Answers false
      [mkErrorObject (lit "/invoice/id") (lit "#/properties/invoice/properties/id/type")
         (lit "type") (lit "must be string")].

Definition accepts_all : validateFunction N := fun _ => Answers true [].


(** A world with one input file, the parent schema at its address and the
    schema of an invoice at [https://x/invoice.json]; any other address
    answers with a response that is not ok. *)
Definition example_world (file : string) (document parent : json N)
    (validate : validateFunction N) : World N :=
  mkWorld
    [lit "node"; lit "validator01.js"; lit file]
    (fun path =>
       if str_eqb path (RESOURCES_PATH ++ lit file) then Return document
       else Throw (SystemError (lit "ENOENT")))
    (fun url _ =>
       if str_eqb url PARENT_SCHEME_URL then FetchResponse true (Return parent)
       else if str_eqb url (lit "https://x/invoice.json")
            then FetchResponse true (Return invoice_schema)
            else FetchResponse false (Return JNull))
    (fun _ => Return validate).

Definition world_invalid_invoice : World N :=
  example_world "invoice.json" invoice_document parent_example id_must_be_string.


Definition world_salesorder : World N :=
  example_world "salesorder.json" salesorder_document parent_example accepts_all.

(** A string literal between double quotes. *)
Definition quoted (s : string) : str := dquote :: lit s ++ [dquote].

(** A text that no serialization produces: the double quote that ends the
    first reference opens the second one. *)
Definition overlapping_text : str :=
  quoted "$ref" ++ lit ":" ++ dquote :: lit "http://a#/properties/k"
  ++ quoted "$ref" ++ lit ":" ++ quoted "http://b#/properties/j".

Definition world_valid_invoice : World N :=
  example_world "invoice.json" invoice_document parent_example accepts_all.




(** ** Two statements about failures *)

(** A run whose entity type has no entry in the index ends in an exception. *)
Definition unknown_entity_type_raises : Prop :=
  forall (w : World N) (node script file : str) (jsonFile schema : json N)
         (urls : Map) (k : str),
    process_argv w = [node; script; file] ->
    fs_readJson w (RESOURCES_PATH ++ file) = Return jsonFile ->
    net_fetch w PARENT_SCHEME_URL 5000 = FetchResponse true (Return schema) ->
    findAllRefs N_toString schema = Some urls ->
    getJsonFileType jsonFile urls = Return k ->
    Map_get k urls = None ->
    exists e, snd (main N_toString w) = UnhandledRejection e
              \/ snd (main N_toString w) = UncaughtException e.

(** The exception of a failed fetch tells which locator was fetched. *)
Definition fetch_error_carries_locator : Prop :=
  exists locator_of : exn -> str,
    forall (w : World N) (url : str) (e : exn),
      snd (readHttpsJsonUrl w url) = Raised e -> locator_of e = url.

(** ** Catalogues *)

(** A parent schema of the usual shape: some properties of its own, then
    [properties], where each entity has a name and a reference. *)
Record entry := mkEntry {
  entry_name : str;
  entry_url : str;
  entry_key : str
}.

Definition entry_json {number : Type} (e : entry) : str * json number :=
  (entry_name e,
   JObj [(lit "$ref", JStr (entry_url e ++ lit "#/properties/" ++ entry_key e))]).

Definition catalogue {number : Type} (top : list (str * json number))
    (entries : list entry) : json number :=
  JObj (top ++ [(lit "properties", JObj (map entry_json entries))]).

Definition add_entry (urls : Map) (e : entry) : Map :=
  Map_set (entry_key e) (entry_url e) urls.

(** The name of an entity is made of the characters of a key; its
    reference has a URL and a key that the pattern accepts. *)
Definition entry_ok (e : entry) : Prop :=
  all_match key_class (entry_name e)
  /\ well_formed_url (entry_url e) /\ well_formed_key (entry_key e).

(** The serialized text of an entry. *)
Definition entry_text (e : entry) : str :=
  QuoteJSONString (entry_name e) ++ lit ":{"
  ++ ref_pattern [] [] (entry_url e) (entry_key e) ++ lit "}".

(** No dollar sign is followed by [r]. *)
Fixpoint no_dollar_r (s : str) : bool :=
  match s with
  | [] => true
  | c :: t =>
      match t with
      | d :: _ => negb (N.eqb c dollar && N.eqb d 114)
      | [] => true
      end && no_dollar_r t
  end.

(** The first character is neither a dollar sign nor [r]. *)
Definition head_ok (s : str) : bool :=
  match s with
  | c :: _ => negb (N.eqb c dollar) && negb (N.eqb c 114)
  | [] => true
  end.

(** A character that [JSON.stringify] copies as it is. *)
Definition safe_char (c : char) : bool :=
  negb (N.ltb c 32) && negb (N.eqb c dquote) && negb (N.eqb c backslash)
  && negb (is_leading_surrogate c) && negb (is_trailing_surrogate c).

(** [parent_example] as a catalogue. *)
Definition parent_example_entries : list entry :=
  [mkEntry (lit "invoice") (lit "https://x/invoice.json") (lit "invoice");
   mkEntry (lit "creditmemo") (lit "https://x/creditmemo.json") (lit "creditmemo")].

(** ** The fetches of a run *)

(** The locators that a run fetched, with the time each was given. *)
Definition fetches {number : Type} (tr : list (event number)) : list (str * N) :=
  flat_map (fun ev => match ev with EvFetch url ms => [(url, ms)] | _ => [] end) tr.

(** The exception that [readHttpsJsonUrl] ends in for a reply, if any. *)
Definition fetch_failure {number : Type} (reply : fetch_reply number) : option exn :=
  match reply with
  | FetchRejected e => Some e
  | FetchResponse false _ => Some NetworkResponseNotOk
  | FetchResponse true (Throw e) => Some e
  | FetchResponse true (Return _) => None
  end.

(** ** Runs that a stage ends *)

Section Stages.

Context {number : Type} (Number_toString : number -> str) (w : World number).



End Stages.

(** ** Two more statements about failures *)



(** The body of the asynchronous function of [main], with a call of
    [getValidateFunctionFromUrl] where [main] has the three statements of
    this function. *)
Definition main_async_by_helper {number : Type} (Number_toString : number -> str)
    (w : World number) (jsonFile : json number) : IO number (option exn) :=
  bind (readHttpsJsonUrl w PARENT_SCHEME_URL) (fun jsonParentSchema =>
  bind (findAllRefs_io Number_toString jsonParentSchema) (fun subSchemes =>
  bind (lift number (getJsonFileType jsonFile subSchemes)) (fun jsonFileType =>
  match Map_get jsonFileType subSchemes with
  | Some urlFileTypeSchema =>
      bind (getValidateFunctionFromUrl w urlFileTypeSchema) (fun validate =>
      bind (lift number (delete_property jsonFile schema_key)) (fun jsonFile' =>
      bind (emit (EvValidate jsonFile')) (fun _ =>
      match validate jsonFile' with
      | Answers valid errors =>
          bind (if negb valid then emit (EvConsoleError (lit "Validation errors:") errors)
                else emit (EvConsoleLog (lit "The file is valid")))
               (fun _ => ret number None)
      | Promises rejection =>
          bind (emit (EvConsoleLog (lit "The file is valid"))) (fun _ => ret number rejection)
      | Raises e => lift number (Throw e)
      end)))
  | None =>
      bind (emit (EvConsoleLog (lit "Json object invalid: " ++ jsonFileType)))
           (fun _ => ret number None)
  end))).

(** [invoice_schema] without its [$schema]. *)
Definition invoice_schema_stripped : json N :=
  JObj [(lit "type", JStr (lit "object"));
        (lit "properties",
         JObj [(lit "invoice",
                JObj [(lit "properties",
                       JObj [(lit "id", JObj [(lit "type", JStr (lit "string"))])])])])].

(** ** The references of a document, by its structure *)

(** [s] ends with [suffix]. *)
Definition ends_with (suffix s : str) : bool :=
  str_eqb (skipn (length s - length suffix) s) suffix.

(** A property name at the end of which the pattern finds ["$ref"] once it
    is serialized: [$ref], or a name that ends with a double quote and
    [$ref]. *)
Definition is_ref_key (name : str) : bool :=
  (str_eqb name (lit "$ref") || ends_with (dquote :: lit "$ref") name)%bool.

Fixpoint strip_prefix (p s : str) : option str :=
  match p, s with
  | [], _ => Some s
  | x :: p', y :: s' => if N.eqb x y then strip_prefix p' s' else None
  | _ :: _, [] => None
  end.

(** The longest prefix of characters that [f] accepts, and what follows. *)
Fixpoint span (f : char -> bool) (s : str) : str * str :=
  match s with
  | [] => ([], [])
  | c :: s' => if f c then (c :: fst (span f s'), snd (span f s')) else ([], s)
  end.

(** A string [<URL>#/properties/<key>], as its key and its URL. *)
Definition ref_target (s : str) : option (str * str) :=
  match match strip_prefix (lit "https://") s with
        | Some r => Some (lit "https://", r)
        | None =>
            match strip_prefix (lit "http://") s with
            | Some r => Some (lit "http://", r)
            | None => None
            end
        end with
  | Some (scheme, r) =>
      match fst (span (atom_matches url_class) r),
            strip_prefix (lit "#/properties/") (snd (span (atom_matches url_class) r)) with
      | _ :: _, Some (c :: key) =>
          if forallb (atom_matches key_class) (c :: key)
          then Some (c :: key, scheme ++ fst (span (atom_matches url_class) r))
          else None
      | _, _ => None
      end
  | None => None
  end.

(** The reference that a property of an object makes, if it makes one. *)
Definition member_ref {number : Type} (kv : str * json number) : option (str * str) :=
  match snd kv with
  | JStr s => if is_ref_key (fst kv) then ref_target s else None
  | _ => None
  end.

(** The references of a document in the order of its text: the properties
    that make one, at any depth. *)
Fixpoint refs_of {number : Type} (v : json number) : list (str * str) :=
  match v with
  | JArr items => flat_map refs_of items
  | JObj props =>
      flat_map (fun kv =>
                  match member_ref kv with
                  | Some ku => [ku]
                  | None => refs_of (snd kv)
                  end) props
  | _ => []
  end.

Definition add_pair (urls : Map) (ku : str * str) : Map :=
  Map_set (fst ku) (snd ku) urls.

(** From any place where [T] is what is left of the text, the loop of
    [findAllRefs] sets the pairs of [L], in this order, and stops. *)
Definition Scans (T : str) (L : list (str * str)) : Prop :=
  forall (done : str) (urls : Map) (fuel : nat),
    length L < fuel ->
    findAllRefs_loop fuel (mkRegExp ref_regexp (length done)) (done ++ T) urls
    = Some (fold_left add_pair L urls).

(** What follows a value in a serialized text: nothing, a comma or a
    closing bracket. *)
Definition rest_ok (rest : str) : Prop :=
  match rest with
  | [] => True
  | c :: _ => c = 44%N \/ c = 93%N \/ c = 125%N
  end.

(** Every double quote of [B] follows a backslash, [prev] being the
    character before [B]. *)
Fixpoint quotes_escaped (prev : char) (B : str) : bool :=
  match B with
  | [] => true
  | c :: B' => (negb (N.eqb c dquote) || N.eqb prev backslash) && quotes_escaped c B'
  end.

(** A document with a reference under a name that ends with a quoted
    [$ref], the text of a reference inside a string, and references in an
    array. *)
Definition nested_example : json N :=
  JObj [(lit "note", JStr (quoted "$ref" ++ lit ":" ++ quoted "https://x/a.json#/properties/a"));
        (lit "$ref", JStr (lit "https://x/a.json#/properties"));
        (lit "say " ++ dquote :: lit "$ref", JStr (lit "http://x/b#/properties/b"));
        (lit "list", JArr [ref_to "https://x/c.json" "c"; JNum 7%N; ref_to "https://x/d.json" "b"])].

(** After the text [t] of a value the loop has set the pairs of [R] and
    goes on with what follows the value. *)
Definition Scans_value (t : str) (R : list (str * str)) : Prop :=
  forall rest L, rest_ok rest -> Scans rest L -> Scans (t ++ rest) (R ++ L).

(** ** What a run writes *)



(* ================================================================= *)
(** * Part II: properties *)
(* ================================================================= *)

(** ** Strings *)

Lemma str_eqb_eq (a b : str) : str_eqb a b = true <-> a = b.
Proof.
  revert b; induction a as [|x a IH]; intros [|y b]; simpl; split;
    try congruence; try reflexivity.
  - intros H. apply andb_true_iff in H as [Hx Hab].
    apply N.eqb_eq in Hx. apply IH in Hab. congruence.
  - intros H. injection H as -> ->. rewrite N.eqb_refl. simpl. now apply IH.
Qed.

Lemma str_eqb_refl (a : str) : str_eqb a a = true.
Proof. now apply str_eqb_eq. Qed.

Lemma str_eqb_neq (a b : str) : str_eqb a b = false <-> a <> b.
Proof.
  split.
  - intros H E. apply str_eqb_eq in E. congruence.
  - intros H. destruct (str_eqb a b) eqn:E; [|reflexivity].
    apply str_eqb_eq in E. contradiction.
Qed.

(** ** Command line *)

(** C7: with exactly one argument after the interpreter and the script,
    [readInputParameters] returns it; with none or with two or more it
    throws the usage error. *)
Theorem readInputParameters_one_argument (node script : str) (args : list str) :
  (forall a, args = [a] ->
     readInputParameters (node :: script :: args) = Return a)
  /\ (length args = 0 \/ 2 <= length args ->
     readInputParameters (node :: script :: args) = Throw UsageError).
Proof.
  unfold readInputParameters, UsageError. simpl skipn. split.
  - intros a ->. reflexivity.
  - intros H. destruct args as [|a [|b args]]; simpl in *; try reflexivity. lia.
Qed.

(** ** Type resolution *)

Section TypeResolver.

Context {number : Type}.
Implicit Types (props : list (str * json number)) (types : Map).

Lemma filter_singleton (l : list str) (f : str -> bool) (k : str) :
  NoDup l ->
  (forall x, In x l /\ f x = true <-> x = k) ->
  filter f l = [k].
Proof.
  intros Hnd H.
  assert (Hin : forall x, In x (filter f l) <-> x = k).
  { intros x. rewrite filter_In. apply H. }
  assert (Hnd' : NoDup (filter f l)) by now apply NoDup_filter.
  destruct (filter f l) as [|a [|b l']].
  - exfalso. apply (proj2 (Hin k) eq_refl).
  - f_equal. apply Hin. now left.
  - exfalso. inversion Hnd' as [|? ? Hna _]. apply Hna.
    assert (a = k) by (apply Hin; now left).
    assert (b = k) by (apply Hin; right; now left).
    subst. now left.
Qed.

Lemma not_schema_key (x : str) : negb (str_eqb x schema_key) = true <-> x <> schema_key.
Proof. rewrite negb_true_iff. apply str_eqb_neq. Qed.

Lemma getJsonFileType_one props types (k : str) :
  NoDup (map fst props) ->
  (forall x, In x (map fst props) /\ x <> schema_key <-> x = k) ->
  getJsonFileType (JObj props) types = Return k.
Proof.
  intros Hnd Hk. unfold getJsonFileType. simpl Object_getOwnPropertyNames. cbv beta iota.
  rewrite (@filter_singleton (map fst props) _ k); auto.
  intros x. rewrite not_schema_key. apply Hk.
Qed.

Lemma getJsonFileType_none props types :
  (forall x, In x (map fst props) -> x = schema_key) ->
  getJsonFileType (JObj props) types = Throw AmbiguousOrMissingEntityError.
Proof.
  intros Hzero. unfold getJsonFileType. simpl Object_getOwnPropertyNames. cbv beta iota.
  set (f := fun prop : str => negb (str_eqb prop schema_key)).
  assert (E : filter f (map fst props) = []).
  { destruct (filter f (map fst props)) as [|a l] eqn:E; [reflexivity|].
    assert (Ha : In a (filter f (map fst props))) by (rewrite E; now left).
    apply filter_In in Ha as [Hin Hf]. unfold f in Hf.
    apply not_schema_key in Hf. now apply Hzero in Hin. }
  now rewrite E.
Qed.

Lemma getJsonFileType_many props types (a b : str) :
  a <> b -> In a (map fst props) -> In b (map fst props) ->
  a <> schema_key -> b <> schema_key ->
  getJsonFileType (JObj props) types = Throw AmbiguousOrMissingEntityError.
Proof.
  intros Hab Ha Hb Has Hbs.
  unfold getJsonFileType. simpl Object_getOwnPropertyNames. cbv beta iota.
  set (f := fun prop : str => negb (str_eqb prop schema_key)).
  assert (Ha' : In a (filter f (map fst props))).
  { apply filter_In. split; auto. now apply not_schema_key. }
  assert (Hb' : In b (filter f (map fst props))).
  { apply filter_In. split; auto. now apply not_schema_key. }
  destruct (filter f (map fst props)) as [|x [|y l]]; try reflexivity.
  destruct Ha' as [<-|[]], Hb' as [<-|[]]. congruence.
Qed.

(** C1: an object whose only key besides [$schema] is [k] resolves to [k];
    an object with no such key, or with two different ones, is refused with
    the error of a missing or ambiguous entity. *)
Theorem getJsonFileType_resolves props types :
  NoDup (map fst props) ->
  (forall k,
     (forall x, In x (map fst props) /\ x <> schema_key <-> x = k) ->
     getJsonFileType (JObj props) types = Return k)
  /\ ((forall x, In x (map fst props) -> x = schema_key) ->
      getJsonFileType (JObj props) types = Throw AmbiguousOrMissingEntityError)
  /\ ((exists a b, a <> b /\ In a (map fst props) /\ In b (map fst props)
                   /\ a <> schema_key /\ b <> schema_key) ->
      getJsonFileType (JObj props) types = Throw AmbiguousOrMissingEntityError).
Proof.
  intros Hnd. repeat split.
  - intros k Hk. now apply getJsonFileType_one.
  - apply getJsonFileType_none.
  - intros (a & b & Hab & Ha & Hb & Has & Hbs). now apply getJsonFileType_many with a b.
Qed.

End TypeResolver.

(** ** Schema preparation *)

Section Prepare.

Context {number : Type}.
Implicit Types (d : json number) (props : list (str * json number)).

Lemma remove_key_idem (key : str) props :
  remove_key key (remove_key key props) = remove_key key props.
Proof.
  unfold remove_key. induction props as [|[k v] props IH]; simpl; [reflexivity|].
  destruct (negb (str_eqb k key)) eqn:E; simpl; [rewrite E, IH|]; auto.
Qed.

Lemma obj_get_remove_key (key k : str) props :
  obj_get k (remove_key key props)
  = if str_eqb k key then None else obj_get k props.
Proof.
  unfold remove_key. induction props as [|[k' v] props IH]; simpl.
  - now destruct (str_eqb k key).
  - destruct (str_eqb k' key) eqn:E; simpl.
    + rewrite IH. destruct (str_eqb k key) eqn:E1; [reflexivity|].
      apply str_eqb_eq in E. subst k'. now rewrite E1.
    + rewrite IH. destruct (str_eqb k k') eqn:E1; [|reflexivity].
      apply str_eqb_eq in E1. subst k'. now rewrite E.
Qed.

(** C4: stripping [$schema] a second time changes nothing, whatever the
    first stripping ended in. *)
Theorem prepare_idempotent d :
  result_bind (prepare d) (@prepare number) = prepare d.
Proof.
  unfold prepare. destruct d; simpl; try reflexivity.
  now rewrite remove_key_idem.
Qed.

End Prepare.

(** ** The matcher *)

Lemma firstn_app_rest (t s' : str) :
  firstn (length (t ++ s') - length s') (t ++ s') = t.
Proof.
  rewrite length_app, Nat.add_sub. rewrite firstn_app, Nat.sub_diag.
  simpl. rewrite app_nil_r. apply firstn_all.
Qed.

Lemma match_star_sound (a : atom) (s : str) (caps : captures) (k : cont) res :
  match_star a s caps k = Some res ->
  exists t s', s = t ++ s' /\ all_match a t /\ k s' caps = Some res.
Proof.
  induction s as [|c s IH]; simpl; intros H.
  - exists [], []. repeat split; auto. constructor.
  - destruct (atom_matches a c) eqn:E.
    + destruct (match_star a s caps k) as [r|] eqn:E2.
      * injection H as ->. destruct (IH eq_refl) as (t & s' & -> & Ht & Hk).
        exists (c :: t), s'. repeat split; auto. now constructor.
      * exists [], (c :: s). repeat split; auto. constructor.
    + exists [], (c :: s). repeat split; auto. constructor.
Qed.

Lemma match_star_complete (a : atom) (t s' : str) (caps : captures) (k : cont) res :
  all_match a t -> k s' caps = Some res ->
  exists res', match_star a (t ++ s') caps k = Some res'.
Proof.
  intros Ht Hk. induction Ht as [|c t Hc Ht IH]; simpl.
  - destruct s' as [|c s']; simpl; eauto.
    destruct (atom_matches a c); eauto.
    destruct (match_star a s' caps k); eauto.
  - rewrite Hc. destruct IH as [res' ->]. eauto.
Qed.

(** Whatever the matcher answers is described by the pattern. *)
Lemma rmatch_sound (r : regex) :
  forall (s : str) (caps : captures) (k : cont) res,
    rmatch r s caps k = Some res ->
    exists t s' caps',
      s = t ++ s' /\ denote r t caps caps' /\ k s' caps' = Some res.
Proof.
  induction r as [|a|a|a|a|r1 IH1 r2 IH2|n r IH]; simpl; intros s caps k res H.
  - exists [], s, caps. auto.
  - destruct s as [|c s]; [discriminate|].
    destruct (atom_matches a c) eqn:E; [|discriminate].
    exists [c], s, caps. repeat split; eauto.
  - apply match_star_sound in H as (t & s' & -> & Ht & Hk).
    exists t, s', caps. auto.
  - destruct s as [|c s]; [discriminate|].
    destruct (atom_matches a c) eqn:E; [|discriminate].
    apply match_star_sound in H as (t & s' & -> & Ht & Hk).
    exists (c :: t), s', caps. repeat split; auto; [discriminate|now constructor].
  - destruct s as [|c s].
    + exists [], [], caps. auto.
    + destruct (atom_matches a c) eqn:E.
      * destruct (k s caps) as [r|] eqn:E2.
        -- injection H as ->. exists [c], s, caps. repeat split; eauto.
        -- exists [], (c :: s), caps. auto.
      * exists [], (c :: s), caps. auto.
  - apply IH1 in H as (t1 & s1 & caps1 & -> & H1 & H).
    apply IH2 in H as (t2 & s2 & caps2 & -> & H2 & H).
    exists (t1 ++ t2), s2, caps2. rewrite <- app_assoc. repeat split; auto.
    exists t1, t2, caps1. auto.
  - apply IH in H as (t & s' & caps1 & -> & H1 & H).
    rewrite firstn_app_rest in H.
    exists t, s', ((n, t) :: caps1). repeat split; eauto.
Qed.

(** Where the pattern describes a prefix that the continuation accepts, the
    matcher does not fail. *)
Lemma rmatch_complete (r : regex) :
  forall (t s' : str) (caps caps' : captures) (k : cont) res,
    denote r t caps caps' -> k s' caps' = Some res ->
    exists res', rmatch r (t ++ s') caps k = Some res'.
Proof.
  induction r as [|a|a|a|a|r1 IH1 r2 IH2|n r IH]; simpl; intros t s' caps caps' k res Hd Hk.
  - destruct Hd as [-> ->]. eauto.
  - destruct Hd as [(c & -> & Hc) ->]. simpl. rewrite Hc. eauto.
  - destruct Hd as [Ht ->]. eapply match_star_complete; eauto.
  - destruct Hd as [[Hne Ht] ->]. destruct Ht as [|c t Hc Ht]; [congruence|].
    simpl. rewrite Hc. eapply match_star_complete; eauto.
  - destruct Hd as [[->|(c & -> & Hc)] ->]; simpl.
    + destruct s' as [|c s']; eauto.
      destruct (atom_matches a c); eauto. destruct (k s' caps); eauto.
    + rewrite Hc, Hk. eauto.
  - destruct Hd as (t1 & t2 & caps1 & -> & H1 & H2).
    destruct (IH2 _ _ _ _ _ _ H2 Hk) as [res2 E2].
    rewrite <- app_assoc. eapply IH1; eauto.
  - destruct Hd as (caps1 & H1 & ->).
    eapply IH; eauto. cbv beta. rewrite firstn_app_rest. eauto.
Qed.

Lemma match_here_sound (r : regex) (s t : str) (caps : captures) :
  match_here r s = Some (t, caps) ->
  exists s', s = t ++ s' /\ denote r t [] caps.
Proof.
  unfold match_here. intros H.
  destruct (rmatch r s [] (fun s' caps => Some (s', caps))) as [[s' caps']|] eqn:E;
    [|discriminate].
  apply rmatch_sound in E as (t' & s'' & caps'' & -> & Hd & Hk).
  injection Hk as <- <-. rewrite firstn_app_rest in H. injection H as <- <-.
  eauto.
Qed.

Lemma match_here_complete (r : regex) (t s' : str) (caps : captures) :
  denote r t [] caps -> exists res, match_here r (t ++ s') = Some res.
Proof.
  intros Hd. unfold match_here.
  destruct (@rmatch_complete r t s' [] caps (fun s' caps => Some (s', caps)) (s', caps) Hd eq_refl)
    as [[s'' caps''] ->].
  eauto.
Qed.

(** ** The reference pattern *)

Lemma atom_lit (x c : char) : atom_matches (ALit x) c = true <-> c = x.
Proof. simpl. apply N.eqb_eq. Qed.

Lemma denote_rchars (l t : str) (c c' : captures) :
  denote (rchars l) t c c' <-> t = l /\ c' = c.
Proof.
  revert t c c'. induction l as [|x l IH]; intros t c c'.
  - reflexivity.
  - change (rchars (x :: l)) with (RSeq (RAtom (ALit x)) (rchars l)).
    cbn [denote]. split.
    + intros (t1 & t2 & c1 & -> & [(ch & -> & Hch) ->] & H).
      apply atom_lit in Hch. apply IH in H as [-> ->]. subst. auto.
    + intros [-> ->]. exists [x], l, c. repeat split; [|now apply IH].
      exists x. split; auto. now apply atom_lit.
Qed.

Lemma denote_seq (r1 r2 : regex) (t1 t2 : str) (c c1 c' : captures) :
  denote r1 t1 c c1 -> denote r2 t2 c1 c' -> denote (RSeq r1 r2) (t1 ++ t2) c c'.
Proof. intros H1 H2. exists t1, t2, c1. auto. Qed.

Lemma denote_lit (x : char) (c : captures) : denote (RAtom (ALit x)) [x] c c.
Proof. split; auto. exists x. split; auto. now apply atom_lit. Qed.

Ltac break_denote :=
  repeat match goal with
    | H : exists _, _ |- _ => destruct H
    | H : _ /\ _ |- _ => destruct H
    | H : denote (rchars _) _ _ _ |- _ => apply denote_rchars in H
    | H : atom_matches (ALit _) _ = true |- _ => apply atom_lit in H
    end.

Lemma denote_group (n : nat) (r : regex) (t : str) (c c1 : captures) :
  denote r t c c1 -> denote (RGroup n r) t c ((n, t) :: c1).
Proof. intros H. exists c1. auto. Qed.

Lemma denote_star (a : atom) (t : str) (c : captures) :
  all_match a t -> denote (RStar a) t c c.
Proof. intros H. split; auto. Qed.

Lemma denote_plus (a : atom) (t : str) (c : captures) :
  t <> [] -> all_match a t -> denote (RPlus a) t c c.
Proof. intros H1 H2. repeat split; auto. Qed.

Lemma denote_empty (c : captures) : denote REmpty [] c c.
Proof. split; reflexivity. Qed.

Lemma denote_ref_regexp (t : str) (caps : captures) :
  denote ref_regexp t [] caps <->
  exists ws1 ws2 u k,
    t = ref_pattern ws1 ws2 u k /\ caps = [(2, k); (1, u)]
    /\ spaces ws1 /\ spaces ws2 /\ well_formed_url u /\ well_formed_key k.
Proof.
  unfold ref_regexp. cbn [rcat fold_right]. split.
  - cbn [denote]. intros H. break_denote. subst.
    match goal with H : _ \/ _ |- _ => rename H into Hopt end.
    match goal with
    | Hs1 : all_match space_class ?w1, Hs2 : all_match space_class ?w2,
      Hb : all_match url_class ?b, Hk : all_match key_class ?k |- _ =>
        exists w1, w2;
        match goal with
        | |- context [(1, ?u)] => exists u, k
        end
    end.
    unfold ref_pattern. rewrite ?app_nil_r. cbn [app].
    split; [|split; [|split; [|split; [|split]]]]; auto.
    + match goal with Hb : all_match url_class ?b |- _ => exists b end.
      repeat split; auto.
      destruct Hopt as [->|(ch & -> & Hch)].
      * left. reflexivity.
      * apply atom_lit in Hch. subst. right. reflexivity.
    + split; auto.
  - intros (ws1 & ws2 & u & k & -> & -> & Hs1 & Hs2 & (body & Hu & Hne & Hb) & Hk1 & Hk2).
    unfold ref_pattern.
    change (dquote :: lit "$ref" ++ dquote :: ws1 ++ lit ":" ++ ws2
            ++ dquote :: u ++ lit "#/properties/" ++ k ++ [dquote])
      with ([dquote] ++ lit "$ref" ++ [dquote] ++ ws1 ++ [58%N] ++ ws2
            ++ [dquote] ++ u ++ lit "#/properties/" ++ k ++ [dquote] ++ []).
    apply denote_seq with (c1 := []); [apply denote_lit|].
    apply denote_seq with (c1 := []); [now apply denote_rchars|].
    apply denote_seq with (c1 := []); [apply denote_lit|].
    apply denote_seq with (c1 := []); [now apply denote_star|].
    apply denote_seq with (c1 := []); [apply denote_lit|].
    apply denote_seq with (c1 := []); [now apply denote_star|].
    apply denote_seq with (c1 := []); [apply denote_lit|].
    apply denote_seq with (c1 := [(1, u)]).
    { apply denote_group.
      assert (E : exists o, u = lit "http" ++ o ++ lit "://" ++ body ++ []
                            /\ (o = [] \/ o = [115%N])).
      { destruct Hu as [->| ->]; [exists []|exists [115%N]]; rewrite app_nil_r; auto. }
      destruct E as (o & -> & Ho).
      apply denote_seq with (c1 := []); [now apply denote_rchars|].
      apply denote_seq with (c1 := []).
      { split; [|reflexivity]. destruct Ho as [->| ->]; [now left|right].
        exists 115%N. split; auto. }
      apply denote_seq with (c1 := []); [now apply denote_rchars|].
      apply denote_seq with (c1 := []); [now apply denote_plus|apply denote_empty]. }
    apply denote_seq with (c1 := [(1, u)]); [now apply denote_rchars|].
    apply denote_seq with (c1 := [(2, k); (1, u)]).
    { apply denote_group. now apply denote_plus. }
    apply denote_seq with (c1 := [(2, k); (1, u)]); [apply denote_lit|apply denote_empty].
Qed.

(** A run of characters of a class that ends before a character outside
    of the class is read in one way only. *)
Lemma span_unique (a : atom) (t t' : str) (x x' : char) (r r' : str) :
  all_match a t -> all_match a t' ->
  atom_matches a x = false -> atom_matches a x' = false ->
  t ++ x :: r = t' ++ x' :: r' ->
  t = t' /\ x = x' /\ r = r'.
Proof.
  intros Ht. revert t'. induction Ht as [|c t Hc Ht IH]; intros t' Ht' Hx Hx' E.
  - destruct Ht' as [|c' t' Hc' Ht']; simpl in E; injection E as E1 E2.
    + auto.
    + congruence.
  - destruct Ht' as [|c' t' Hc' Ht']; simpl in E; injection E as E1 E2.
    + congruence.
    + subst c'. destruct (IH t' Ht' Hx Hx' E2) as (-> & -> & ->). auto.
Qed.

Lemma ref_pattern_app (ws1 ws2 u k rest : str) :
  ref_pattern ws1 ws2 u k ++ rest
  = dquote :: lit "$ref" ++ dquote :: ws1 ++ 58%N :: ws2
    ++ dquote :: u ++ 35%N :: lit "/properties/" ++ k ++ dquote :: rest.
Proof.
  unfold ref_pattern.
  change (lit ":") with [58%N].
  change (lit "#/properties/") with (35%N :: lit "/properties/").
  cbn [app]. repeat (rewrite <- app_assoc; cbn [app]). reflexivity.
Qed.

Lemma ref_pattern_unique (ws1 ws2 u k rest ws1' ws2' u' k' rest' : str) :
  ref_pattern ws1 ws2 u k ++ rest = ref_pattern ws1' ws2' u' k' ++ rest' ->
  spaces ws1 -> spaces ws2 -> well_formed_url u -> well_formed_key k ->
  spaces ws1' -> spaces ws2' -> well_formed_url u' -> well_formed_key k' ->
  ws1 = ws1' /\ ws2 = ws2' /\ u = u' /\ k = k' /\ rest = rest'.
Proof.
  intros E Hs1 Hs2 (b & Hu & _ & Hb) [_ Hk] Hs1' Hs2' (b' & Hu' & _ & Hb') [_ Hk'].
  rewrite !ref_pattern_app in E.
  injection E as E.
  apply span_unique with (a := space_class) in E as (-> & _ & E); auto.
  apply span_unique with (a := space_class) in E as (-> & _ & E); auto.
  assert (Eb : b ++ 35%N :: lit "/properties/" ++ k ++ dquote :: rest
               = b' ++ 35%N :: lit "/properties/" ++ k' ++ dquote :: rest' ->
               b = b' /\ k = k' /\ rest = rest').
  { intros Eb.
    apply span_unique with (a := url_class) in Eb as (-> & _ & Eb); auto.
    apply app_inv_head in Eb.
    apply span_unique with (a := key_class) in Eb as (-> & _ & ->); auto. }
  destruct Hu as [->| ->], Hu' as [->| ->]; rewrite <- ?app_assoc in E.
  - apply app_inv_head in E. destruct (Eb E) as (-> & -> & ->). auto.
  - simpl in E. discriminate.
  - simpl in E. discriminate.
  - apply app_inv_head in E. destruct (Eb E) as (-> & -> & ->). auto.
Qed.

(** At a given place the matcher finds a reference exactly when there is
    one, and then it is that one. *)
Lemma match_here_ref_iff (s t : str) (caps : captures) :
  match_here ref_regexp s = Some (t, caps) <->
  exists ws1 ws2 u k rest,
    s = ref_pattern ws1 ws2 u k ++ rest /\ t = ref_pattern ws1 ws2 u k
    /\ caps = [(2, k); (1, u)]
    /\ spaces ws1 /\ spaces ws2 /\ well_formed_url u /\ well_formed_key k.
Proof.
  split.
  - intros H. apply match_here_sound in H as (s' & -> & Hd).
    apply denote_ref_regexp in Hd as (ws1 & ws2 & u & k & -> & -> & H).
    exists ws1, ws2, u, k, s'. tauto.
  - intros (ws1 & ws2 & u & k & rest & -> & -> & -> & Hs1 & Hs2 & Hu & Hk).
    assert (Hd : denote ref_regexp (ref_pattern ws1 ws2 u k) [] [(2, k); (1, u)]).
    { apply denote_ref_regexp. exists ws1, ws2, u, k. tauto. }
    destruct (@match_here_complete ref_regexp _ rest _ Hd) as [[t' caps'] E].
    rewrite E. pose proof (@match_here_sound _ _ _ _ E) as (s' & E' & Hd').
    apply denote_ref_regexp in Hd' as (ws1' & ws2' & u' & k' & -> & -> & H).
    destruct H as (Hs1' & Hs2' & Hu' & Hk').
    destruct (@ref_pattern_unique _ _ _ _ _ _ _ _ _ _ E') as (-> & -> & -> & -> & ->);
      auto.
Qed.

(** ** One call of [exec] *)

Lemma exec_from_some (r : regex) (s : str) :
  forall (i : nat) (m : match_result),
    exec_from r s i = Some m ->
    exists j t caps,
      m = MatchResult (i + j) t caps /\ j <= length s
      /\ match_here r (skipn j s) = Some (t, caps)
      /\ forall j', j' < j -> match_here r (skipn j' s) = None.
Proof.
  induction s as [|c s IH]; intros i m; simpl.
  - destruct (match_here r []) as [[t caps]|] eqn:E; [|discriminate].
    intros [= <-]. exists 0, t, caps. rewrite Nat.add_0_r.
    repeat split; auto. intros j' Hj'. lia.
  - destruct (match_here r (c :: s)) as [[t caps]|] eqn:E.
    + intros [= <-]. exists 0, t, caps. rewrite Nat.add_0_r.
      repeat split; auto; [lia|]. intros j' Hj'. lia.
    + intros H. apply IH in H as (j & t & caps & -> & Hj & Hm & Hlt).
      exists (S j), t, caps. rewrite Nat.add_succ_r. repeat split; auto; [lia|].
      intros [|j'] Hj'; simpl; auto. apply Hlt. lia.
Qed.

Lemma exec_from_none (r : regex) (s : str) :
  forall (i j : nat), exec_from r s i = None -> match_here r (skipn j s) = None.
Proof.
  induction s as [|c s IH]; intros i j; simpl.
  - destruct (match_here r []) as [[t caps]|] eqn:E; [discriminate|].
    intros _. now rewrite skipn_nil.
  - destruct (match_here r (c :: s)) as [[t caps]|] eqn:E; [discriminate|].
    intros H. destruct j as [|j]; simpl; eauto.
Qed.

Lemma skipn_length_app (pre s : str) : skipn (length pre) (pre ++ s) = s.
Proof. induction pre; simpl; auto. Qed.

(** A reference at [p] is what the matcher finds at [p]. *)
Lemma ref_span_iff (text : str) (p e : nat) (u k : str) :
  ref_span text p e u k <->
  p <= length text
  /\ exists t, match_here ref_regexp (skipn p text) = Some (t, [(2, k); (1, u)])
               /\ e = p + length t.
Proof.
  split.
  - intros (pre & ws1 & ws2 & rest & -> & <- & -> & H). split.
    + rewrite length_app. lia.
    + exists (ref_pattern ws1 ws2 u k). split; auto.
      rewrite skipn_length_app. apply match_here_ref_iff.
      exists ws1, ws2, u, k, rest. tauto.
  - intros (Hp & t & Hm & ->).
    apply match_here_ref_iff in Hm
      as (ws1 & ws2 & u' & k' & rest & E & -> & [= <- <-] & H).
    exists (firstn p text), ws1, ws2, rest. rewrite <- E, firstn_skipn.
    rewrite length_firstn, Nat.min_l by lia. tauto.
Qed.

Lemma ref_span_unique (text : str) (p e e' : nat) (u u' k k' : str) :
  ref_span text p e u k -> ref_span text p e' u' k' -> e = e' /\ u = u' /\ k = k'.
Proof.
  intros H H'. apply ref_span_iff in H as (_ & t & Hm & ->).
  apply ref_span_iff in H' as (_ & t' & Hm' & ->).
  rewrite Hm in Hm'. injection Hm' as <- <- <-. auto.
Qed.

Lemma ref_span_bounds (text : str) (p e : nat) (u k : str) :
  ref_span text p e u k -> p < e /\ e <= length text.
Proof.
  intros (pre & ws1 & ws2 & rest & -> & <- & -> & _).
  rewrite !length_app. unfold ref_pattern. simpl. lia.
Qed.

Lemma match_here_ref_captures (s t : str) (caps : captures) :
  match_here ref_regexp s = Some (t, caps) ->
  exists u k, caps = [(2, k); (1, u)].
Proof.
  intros H. apply match_here_ref_iff in H as (ws1 & ws2 & u & k & rest & _ & _ & -> & _).
  eauto.
Qed.

(** [exec] from [lastIndex = i] finds the first reference that starts at
    [i] or later, and leaves [lastIndex] where it stops. *)
Lemma exec_ref_some (text : str) (i : nat) (m : match_result) (re' : RegExp) :
  i <= length text ->
  RegExp_exec (mkRegExp ref_regexp i) text = (Some m, re') ->
  exists r,
    is_ref text r /\ i <= ref_start r
    /\ (forall p e u k, i <= p -> p < ref_start r -> ~ ref_span text p e u k)
    /\ m_index m = ref_start r
    /\ m_group 1 m = Some (ref_url r) /\ m_group 2 m = Some (ref_key r)
    /\ re' = mkRegExp ref_regexp (ref_stop r).
Proof.
  intros Hi. unfold RegExp_exec. cbn [lastIndex source].
  destruct (Nat.ltb_spec (length text) i) as [Hlt|_]; [lia|].
  destruct (exec_from ref_regexp (skipn i text) i) as [m'|] eqn:E; [|discriminate].
  intros [= -> <-].
  apply exec_from_some in E as (j & t & caps & -> & Hj & Hm & Hfirst).
  rewrite length_skipn in Hj. rewrite skipn_skipn in Hm.
  destruct (match_here_ref_captures _ Hm) as (u & k & ->).
  exists (mkRef (i + j) (i + j + length t) u k). unfold is_ref. cbn.
  repeat split; auto; [| lia |].
  - apply ref_span_iff. split; [lia|]. exists t. split; auto.
    now rewrite Nat.add_comm.
  - intros p e u' k' Hp Hp' Hs. apply ref_span_iff in Hs as (_ & t' & Hm' & _).
    specialize (Hfirst (p - i)). rewrite skipn_skipn in Hfirst.
    replace (p - i + i) with p in Hfirst by lia.
    rewrite Hfirst in Hm' by lia. discriminate.
Qed.

Lemma exec_ref_none (text : str) (i : nat) (re' : RegExp) :
  i <= length text ->
  RegExp_exec (mkRegExp ref_regexp i) text = (None, re') ->
  forall p e u k, i <= p -> ~ ref_span text p e u k.
Proof.
  intros Hi. unfold RegExp_exec. cbn [lastIndex source].
  destruct (Nat.ltb_spec (length text) i) as [Hlt|_]; [lia|].
  destruct (exec_from ref_regexp (skipn i text) i) as [m'|] eqn:E; [discriminate|].
  intros _ p e u k Hp Hs. apply ref_span_iff in Hs as (_ & t' & Hm' & _).
  apply exec_from_none with (j := p - i) in E. rewrite skipn_skipn in E.
  replace (p - i + i) with p in E by lia. congruence.
Qed.

(** ** The loop of [findAllRefs] *)

(** From [lastIndex = i] the loop meets a list of references, each after
    the one before, and stops: [fuel] iterations are enough exactly when
    there is one more of them than references met. A reference of the text
    that the loop does not meet starts inside one that it met. *)
Lemma scan_refs (text : str) :
  forall n i, length text - i < n -> i <= length text ->
  exists refs : list ref,
    (forall fuel urls, length refs < fuel ->
       findAllRefs_loop fuel (mkRegExp ref_regexp i) text urls
       = Some (fold_left add_ref refs urls))
    /\ (forall fuel urls, fuel <= length refs ->
       findAllRefs_loop fuel (mkRegExp ref_regexp i) text urls = None)
    /\ length refs <= length text - i
    /\ Forall (fun r => is_ref text r /\ i <= ref_start r) refs
    /\ StronglySorted before refs
    /\ (forall p e u k, ref_span text p e u k -> i <= p ->
          In (mkRef p e u k) refs
          \/ exists r, In r refs /\ ref_start r < p /\ p < ref_stop r).
Proof.
  induction n as [|n IH]; intros i Hn Hi; [lia|].
  destruct (RegExp_exec (mkRegExp ref_regexp i) text) as [[m|] re'] eqn:E.
  - destruct (@exec_ref_some _ _ _ _ Hi E) as (r & Hr & Hir & Hfirst & Hidx & Hg1 & Hg2 & ->).
    destruct (@ref_span_bounds text _ _ _ _ Hr) as [Hlt Hle].
    destruct (IH (ref_stop r)) as (refs & Hloop & Hout & Hlen & Hall & Hsorted & Hcomplete);
      [lia|lia|].
    exists (r :: refs). repeat split.
    + intros [|fuel] urls Hf; simpl in Hf; [lia|].
      simpl. rewrite E, Hg1, Hg2. apply Hloop. lia.
    + intros [|fuel] urls Hf; simpl in Hf; [reflexivity|].
      simpl. rewrite E, Hg1, Hg2. apply Hout. lia.
    + simpl. lia.
    + constructor; [auto|]. eapply Forall_impl; [|exact Hall].
      intros r' [Hr' Hs]. split; auto. lia.
    + constructor; auto. eapply Forall_impl; [|exact Hall].
      intros r' [_ Hs]. exact Hs.
    + intros p e u k Hs Hp.
      destruct (Nat.lt_ge_cases p (ref_start r)) as [Hlow|Hhigh].
      { exfalso. eapply Hfirst; eauto. }
      destruct (Nat.eq_dec p (ref_start r)) as [->|Hne].
      { left. left. destruct r as [p0 e0 u0 k0]. unfold is_ref in Hr. cbn in *.
        destruct (@ref_span_unique _ _ _ _ _ _ _ _ Hr Hs) as (-> & -> & ->). reflexivity. }
      destruct (Nat.lt_ge_cases p (ref_stop r)) as [Hin|Hafter].
      { right. exists r. split; [now left|lia]. }
      destruct (Hcomplete p e u k Hs Hafter) as [H|(r' & H & H')].
      * left. now right.
      * right. exists r'. split; [now right|auto].
  - exists []. repeat split.
    + intros [|fuel] urls Hf; simpl in Hf; [lia|]. simpl. now rewrite E.
    + intros fuel urls Hf. simpl in Hf. now replace fuel with 0 by lia.
    + simpl. lia.
    + constructor.
    + constructor.
    + intros p e u k Hs Hp. exfalso. eapply exec_ref_none; eauto.
Qed.

(** ** Map *)

Lemma Map_get_set (x k v : str) (m : Map) :
  Map_get x (Map_set k v m) = if str_eqb x k then Some v else Map_get x m.
Proof.
  induction m as [|[k' v'] m IH]; simpl; [reflexivity|].
  destruct (str_eqb k k') eqn:E; simpl.
  - apply str_eqb_eq in E. subst k'. now destruct (str_eqb x k).
  - rewrite IH. destruct (str_eqb x k') eqn:E1; [|reflexivity].
    apply str_eqb_eq in E1. subst k'.
    destruct (str_eqb x k) eqn:E2; [|reflexivity].
    apply str_eqb_eq in E2. subst k. rewrite str_eqb_refl in E. discriminate.
Qed.

Lemma Map_keys_set (x k v : str) (m : Map) :
  In x (Map_keys (Map_set k v m)) <-> x = k \/ In x (Map_keys m).
Proof.
  unfold Map_keys. induction m as [|[k' v'] m IH]; simpl.
  - intuition.
  - destruct (str_eqb k k') eqn:E; simpl.
    + apply str_eqb_eq in E. subst k'. intuition.
    + rewrite IH. intuition.
Qed.

Lemma Map_keys_set_NoDup (k v : str) (m : Map) :
  NoDup (Map_keys m) -> NoDup (Map_keys (Map_set k v m)).
Proof.
  unfold Map_keys. induction m as [|[k' v'] m IH]; simpl; intros Hnd.
  - constructor; [intros []|constructor].
  - inversion Hnd as [|? ? Hnotin Hnd']; subst.
    destruct (str_eqb k k') eqn:E; simpl.
    + constructor; auto.
    + constructor; auto. intros Hin.
      apply (Map_keys_set k' k v m) in Hin as [->|Hin]; [|contradiction].
      rewrite str_eqb_refl in E. discriminate.
Qed.

Lemma fold_add_ref_keys (refs : list ref) (urls : Map) (x : str) :
  In x (Map_keys (fold_left add_ref refs urls))
  <-> In x (map ref_key refs) \/ In x (Map_keys urls).
Proof.
  revert urls. induction refs as [|r refs IH]; intros urls; simpl.
  - intuition.
  - rewrite IH. unfold add_ref. rewrite Map_keys_set. intuition.
Qed.

Lemma fold_add_ref_NoDup (refs : list ref) (urls : Map) :
  NoDup (Map_keys urls) -> NoDup (Map_keys (fold_left add_ref refs urls)).
Proof.
  revert urls. induction refs as [|r refs IH]; intros urls H; simpl; auto.
  apply IH. now apply Map_keys_set_NoDup.
Qed.

Lemma fold_add_ref_other (refs : list ref) (urls : Map) (x : str) :
  ~ In x (map ref_key refs) ->
  Map_get x (fold_left add_ref refs urls) = Map_get x urls.
Proof.
  revert urls. induction refs as [|r refs IH]; intros urls H; simpl; auto.
  simpl in H. rewrite IH by tauto. unfold add_ref. rewrite Map_get_set.
  destruct (str_eqb x (ref_key r)) eqn:E; [|reflexivity].
  apply str_eqb_eq in E. exfalso. apply H. now left.
Qed.

(** The last reference to a key decides what the key is mapped to. *)
Lemma fold_add_ref_last (l1 l2 : list ref) (r : ref) (urls : Map) :
  ~ In (ref_key r) (map ref_key l2) ->
  Map_get (ref_key r) (fold_left add_ref (l1 ++ r :: l2) urls) = Some (ref_url r).
Proof.
  intros H. rewrite fold_left_app. simpl. rewrite fold_add_ref_other by auto.
  unfold add_ref. now rewrite Map_get_set, str_eqb_refl.
Qed.

(** Every entry of the map was put there for some reference. *)
Lemma fold_add_ref_origin (refs : list ref) (urls : Map) (x u : str) :
  Map_get x (fold_left add_ref refs urls) = Some u ->
  (exists r, In r refs /\ ref_key r = x /\ ref_url r = u) \/ Map_get x urls = Some u.
Proof.
  revert urls. induction refs as [|r refs IH]; intros urls H; simpl in *; auto.
  apply IH in H as [(r' & Hin & Hk & Hu)|H].
  - left. exists r'. auto.
  - unfold add_ref in H. rewrite Map_get_set in H.
    destruct (str_eqb x (ref_key r)) eqn:E; auto.
    apply str_eqb_eq in E. injection H as <-. left. exists r. auto.
Qed.

(** As many entries as references when the keys differ, fewer when a key
    comes twice. *)
Lemma fold_add_ref_size (refs : list ref) :
  let urls := fold_left add_ref refs Map_empty in
  (NoDup (map ref_key refs) -> Map_size urls = length refs)
  /\ (~ NoDup (map ref_key refs) -> Map_size urls < length refs).
Proof.
  intros urls.
  assert (Hnd : NoDup (Map_keys urls)) by (apply fold_add_ref_NoDup; constructor).
  assert (Hin : forall x, In x (Map_keys urls) <-> In x (map ref_key refs)).
  { intros x. unfold urls. rewrite fold_add_ref_keys. simpl. tauto. }
  assert (Hlen : Map_size urls = length (Map_keys urls)).
  { unfold Map_size, Map_keys. now rewrite length_map. }
  assert (Hle : length (Map_keys urls) <= length (map ref_key refs)).
  { apply NoDup_incl_length; auto. intros x. apply Hin. }
  rewrite length_map in Hle. split.
  - intros Hk. apply Nat.le_antisymm; [lia|].
    rewrite Hlen, <- (length_map ref_key refs).
    apply NoDup_incl_length; auto. intros x. apply Hin.
  - intros Hk. destruct (Nat.eq_dec (length (Map_keys urls)) (length refs)) as [E|E]; [|lia].
    exfalso. apply Hk. apply NoDup_incl_NoDup with (l := Map_keys urls); auto.
    + rewrite length_map. lia.
    + intros x. apply Hin.
Qed.

(** ** The index of a text *)

Lemma before_sorted_NoDup (text : str) (refs : list ref) :
  Forall (is_ref text) refs -> StronglySorted before refs -> NoDup refs.
Proof.
  intros Hall Hs. induction Hs as [|r refs Hs IH Hr]; [constructor|].
  inversion Hall as [|? ? Href Hall']; subst. constructor; auto.
  intros Hin. rewrite Forall_forall in Hr. specialize (Hr r Hin).
  destruct (@ref_span_bounds text _ _ _ _ Href). unfold before in Hr. lia.
Qed.

Lemma before_sorted_split (l1 l2 : list ref) (r : ref) :
  StronglySorted before (l1 ++ r :: l2) -> Forall (before r) l2.
Proof.
  induction l1 as [|a l1 IH]; simpl; intros H; inversion H; subst; auto.
Qed.

Lemma NoDup_map_inj {A B : Type} (f : A -> B) (l : list A) (a b : A) :
  NoDup (map f l) -> In a l -> In b l -> f a = f b -> a = b.
Proof.
  induction l as [|x l IH]; simpl; intros Hnd Ha Hb E; [contradiction|].
  inversion Hnd as [|? ? Hnotin Hnd']; subst.
  destruct Ha as [->|Ha], Hb as [->|Hb]; auto.
  - exfalso. apply Hnotin. rewrite E. now apply in_map.
  - exfalso. apply Hnotin. rewrite <- E. now apply in_map.
Qed.

(** The index of a text whose references do not overlap, against any list
    [occ] that names each reference of the text once. *)
Lemma findAllRefs_text_index (text : str) (occ : list ref) :
  non_overlapping text ->
  NoDup occ -> (forall r, In r occ <-> is_ref text r) ->
  exists urls,
    findAllRefs_text text = Some urls
    /\ (NoDup (map ref_key occ) ->
        Map_size urls = length occ
        /\ forall r, In r occ -> Map_get (ref_key r) urls = Some (ref_url r))
    /\ (~ NoDup (map ref_key occ) -> Map_size urls < length occ)
    /\ (forall r, In r occ ->
        (forall r', In r' occ -> ref_key r' = ref_key r -> ref_start r' <= ref_start r) ->
        Map_get (ref_key r) urls = Some (ref_url r)).
Proof.
  intros Hno Hnd Hocc.
  destruct (@scan_refs text (S (length text)) 0)
    as (refs & Hloop & _ & Hlen & Hall & Hsorted & Hcomplete); [lia|lia|].
  assert (Hall' : Forall (is_ref text) refs).
  { eapply Forall_impl; [|exact Hall]. now intros r [H _]. }
  assert (Hsame : forall r, In r refs <-> In r occ).
  { intros r. rewrite Hocc. split.
    - intros Hin. rewrite Forall_forall in Hall'. auto.
    - intros Hr. destruct r as [p e u k].
      destruct (Hcomplete p e u k Hr) as [H|(r' & Hin & Hlo & Hhi)]; [lia|auto|].
      exfalso. rewrite Forall_forall in Hall'.
      specialize (Hno r' _ (Hall' r' Hin) Hr Hlo). cbn in *. lia. }
  assert (Hperm : Permutation refs occ).
  { apply NoDup_Permutation; auto. eapply before_sorted_NoDup; eauto. }
  assert (Hlast : forall r, In r occ ->
    (forall r', In r' occ -> ref_key r' = ref_key r -> ref_start r' <= ref_start r) ->
    Map_get (ref_key r) (fold_left add_ref refs Map_empty) = Some (ref_url r)).
  { intros r Hin Hmax. apply Hsame in Hin.
    destruct (in_split _ _ Hin) as (l1 & l2 & E). rewrite E.
    apply fold_add_ref_last. intros Hk. apply in_map_iff in Hk as (r' & Hk & Hin').
    assert (Hr' : In r' occ) by (apply Hsame; rewrite E; apply in_or_app; right; now right).
    specialize (Hmax r' Hr' Hk).
    rewrite E in Hsorted. apply before_sorted_split in Hsorted.
    rewrite Forall_forall in Hsorted. specialize (Hsorted r' Hin').
    assert (Hr : is_ref text r) by (apply Hocc, Hsame, Hin).
    destruct (@ref_span_bounds text _ _ _ _ Hr). unfold before in Hsorted. lia. }
  exists (fold_left add_ref refs Map_empty).
  destruct (fold_add_ref_size refs) as [Hsize Hless].
  rewrite <- (Permutation_length Hperm).
  split; [|split; [|split]].
  - apply Hloop. lia.
  - intros H. split.
    + apply Hsize. eapply Permutation_NoDup; [|exact H].
      apply Permutation_map. now apply Permutation_sym.
    + intros r Hin. apply Hlast; auto. intros r' Hin' Hk.
      rewrite (NoDup_map_inj ref_key occ r' r H Hin' Hin Hk). lia.
  - intros H. apply Hless. intros Hk. apply H. eapply Permutation_NoDup; [|exact Hk].
    now apply Permutation_map.
  - exact Hlast.
Qed.

(** ** The lexical shape of [JSON.stringify] *)

Lemma lex_run_app (m : lex_mode) (a b : str) :
  lex_run m (a ++ b)
  = match lex_run m a with Some m' => lex_run m' b | None => None end.
Proof.
  revert m. induction a as [|c a IH]; intros m; simpl; auto.
  destruct (lex_step m c); auto.
Qed.

Lemma lex_plain (t : str) :
  forall m, outside m -> forallb plain_char t = true ->
  exists m', outside m' /\ lex_run m t = Some m'.
Proof.
  induction t as [|c t IH]; simpl; intros m Hm H; [eauto|].
  apply andb_true_iff in H as [Hc Ht]. unfold plain_char in Hc.
  apply andb_true_iff in Hc as [H1 H2]. apply negb_true_iff in H1, H2.
  destruct Hm as [-> | ->]; simpl; rewrite H1, H2;
    destruct (is_opener c); apply IH; unfold outside; auto.
Qed.

Lemma hex_digit_plain (n : N) :
  N.eqb (hex_digit n) backslash = false /\ N.eqb (hex_digit n) dquote = false.
Proof.
  unfold hex_digit, backslash, dquote.
  destruct (N.ltb_spec n 10); split; apply N.eqb_neq; lia.
Qed.

Lemma lex_in_string (c : char) (t : str) :
  N.eqb c backslash = false -> N.eqb c dquote = false ->
  lex_run InString (c :: t) = lex_run InString t.
Proof. intros H1 H2. simpl. now rewrite H1, H2. Qed.

Lemma lex_UnicodeEscape (c : char) (t : str) :
  lex_run InString (UnicodeEscape c ++ t) = lex_run InString t.
Proof.
  unfold UnicodeEscape. cbn [app].
  change (lex_run InString (backslash :: 117%N :: ?x)) with (lex_run InString x).
  repeat (rewrite lex_in_string; try apply hex_digit_plain). reflexivity.
Qed.

Lemma surrogate_plain (c : char) :
  (is_leading_surrogate c || is_trailing_surrogate c)%bool = true ->
  N.eqb c backslash = false /\ N.eqb c dquote = false.
Proof.
  unfold is_leading_surrogate, is_trailing_surrogate, in_range, backslash, dquote.
  intros H. apply orb_true_iff in H.
  rewrite !andb_true_iff, !N.leb_le in H. split; apply N.eqb_neq; lia.
Qed.

Lemma lex_quote_unit (c : char) (t : str) :
  lex_run InString (quote_unit c ++ t) = lex_run InString t.
Proof.
  unfold quote_unit.
  repeat match goal with
    | |- context [if N.eqb c ?x then _ else _] =>
        destruct (N.eqb c x) eqn:?; [reflexivity|]
    end.
  destruct (N.ltb c 32 || is_leading_surrogate c || is_trailing_surrogate c)%bool.
  - apply lex_UnicodeEscape.
  - apply lex_in_string; assumption.
Qed.

Lemma lex_quote_body (n : nat) :
  forall (s t : str), length s <= n ->
  lex_run InString (quote_body s ++ t) = lex_run InString t.
Proof.
  induction n as [|n IH]; intros s t Hlen.
  - destruct s; [reflexivity|simpl in Hlen; lia].
  - destruct s as [|c s]; [reflexivity|]. simpl in Hlen. cbn [quote_body].
    destruct (is_leading_surrogate c) eqn:Ec.
    + destruct s as [|d s].
      * apply lex_UnicodeEscape.
      * destruct (is_trailing_surrogate d) eqn:Ed.
        -- cbn [app]. simpl in Hlen.
           destruct (surrogate_plain c) as [? ?]; [now rewrite Ec|].
           destruct (surrogate_plain d) as [? ?]; [rewrite Ed; apply orb_true_r|].
           rewrite !lex_in_string by assumption. apply IH. lia.
        -- rewrite <- app_assoc, lex_UnicodeEscape. apply IH. lia.
    + rewrite <- app_assoc, lex_quote_unit. apply IH. lia.
Qed.

(** A quoted string read after an opener leaves the reader outside. *)
Lemma lex_QuoteJSONString (s t : str) :
  lex_run AfterOpener (QuoteJSONString s ++ t) = lex_run Outside t.
Proof.
  unfold QuoteJSONString. cbn [app].
  change (lex_run AfterOpener (dquote :: ?x)) with (lex_run InString x).
  rewrite <- app_assoc, (@lex_quote_body (length s)) by lia. reflexivity.
Qed.

Lemma lex_join (parts : list str) :
  Forall (fun p => exists m', outside m' /\ lex_run AfterOpener p = Some m') parts ->
  exists m', outside m' /\ lex_run AfterOpener (join (lit ",") parts) = Some m'.
Proof.
  induction 1 as [|p ps (m1 & Hm1 & Hp) Hps IH]; simpl.
  - exists AfterOpener. unfold outside. auto.
  - destruct ps as [|q ps]; [eauto|].
    rewrite lex_run_app, Hp. change (lit ",") with [44%N]. cbn [app].
    destruct Hm1 as [-> | ->]; exact IH.
Qed.

Lemma lex_close (m : lex_mode) (c : char) :
  outside m -> plain_char c = true -> is_opener c = false ->
  lex_run m [c] = Some Outside.
Proof.
  intros Hm Hc Ho. unfold plain_char in Hc.
  apply andb_true_iff in Hc as [H1 H2]. apply negb_true_iff in H1, H2.
  destruct Hm as [-> | ->]; simpl; now rewrite H1, H2, Ho.
Qed.

Section Serialized.

Context {number : Type} (Number_toString : number -> str).

(** The text of a number holds neither a double quote nor a dollar sign. *)
Hypothesis number_text_plain :
  forall n, forallb plain_char (Number_toString n) = true.

Lemma lex_JSON_stringify (v : json number) :
  exists m', outside m' /\ lex_run AfterOpener (JSON_stringify Number_toString v) = Some m'.
Proof.
  induction v as [|b|n|s|items IH|props IH] using json_induction.
  - exists Outside. split; [right|]; reflexivity.
  - exists Outside. split; [right; reflexivity|]. now destruct b.
  - apply lex_plain; [left; reflexivity|apply number_text_plain].
  - exists Outside. split; [right; reflexivity|]. cbn [JSON_stringify].
    rewrite <- (app_nil_r (QuoteJSONString s)). apply lex_QuoteJSONString.
  - exists Outside. split; [right; reflexivity|].
    cbn [JSON_stringify]. change (lit "[") with [91%N]. cbn [app].
    change (lex_run AfterOpener (91%N :: ?x)) with (lex_run AfterOpener x).
    destruct (@lex_join (map (JSON_stringify Number_toString) items)) as (m1 & Hm1 & E).
    { apply Forall_map. exact IH. }
    rewrite lex_run_app, E. now apply lex_close.
  - exists Outside. split; [right; reflexivity|].
    cbn [JSON_stringify]. change (lit "{") with [123%N]. cbn [app].
    change (lex_run AfterOpener (123%N :: ?x)) with (lex_run AfterOpener x).
    match goal with
    | |- lex_run _ (join _ ?ps ++ _) = _ => destruct (@lex_join ps) as (m1 & Hm1 & E)
    end.
    { apply Forall_map. eapply Forall_impl; [|exact IH].
      intros [k x] (m' & Hm' & Hx). exists m'. split; auto.
      cbn [fst snd]. rewrite lex_QuoteJSONString. exact Hx. }
    rewrite lex_run_app, E. now apply lex_close.
Qed.

End Serialized.

(** In a text that the reader accepts, a double quote followed by a dollar
    sign follows an opener or a backslash. *)
Lemma lex_no_bad_quote (t : str) :
  forall (m : lex_mode) (i : nat) (c : char),
    lex_run m t <> None ->
    nth_error t i = Some c -> nth_error t (S i) = Some dquote ->
    nth_error t (S (S i)) = Some dollar ->
    (is_opener c || N.eqb c backslash)%bool = true.
Proof.
  induction t as [|a t IH]; intros m i c Hrun H0 H1 H2.
  - destruct i; discriminate.
  - destruct i as [|i].
    + destruct t as [|b [|d t]]; try discriminate.
      simpl in H0, H1, H2. injection H0 as ->. injection H1 as ->. injection H2 as ->.
      destruct (is_opener c) eqn:Eo; [reflexivity|].
      destruct (N.eqb c backslash) eqn:Eb; [reflexivity|].
      exfalso. apply Hrun. cbn [lex_run].
      destruct m; cbn [lex_step]; rewrite ?Eo, ?Eb;
        destruct (N.eqb c dquote); try reflexivity;
        destruct (N.eqb c dollar); reflexivity.
    + simpl in Hrun. destruct (lex_step m a) as [m'|]; [|congruence].
      eapply IH; eauto.
Qed.

Lemma key_char_not_opener (c : char) :
  atom_matches key_class c = true -> (is_opener c || N.eqb c backslash)%bool = false.
Proof.
  intros H. destruct (is_opener c || N.eqb c backslash)%bool eqn:E; [|reflexivity].
  unfold is_opener in E. rewrite !orb_true_iff, !N.eqb_eq in E.
  destruct E as [[[[-> | ->] | ->] | ->] | ->]; vm_compute in H; discriminate.
Qed.

Lemma class_char_not_dollar (a : atom) (c : char) :
  atom_matches a dollar = false -> atom_matches a c = true -> c <> dollar.
Proof. intros H Hc ->. congruence. Qed.

Lemma all_match_no_dollar (a : atom) (t : str) :
  atom_matches a dollar = false -> all_match a t -> Forall (fun c => c <> dollar) t.
Proof.
  intros H Ht. eapply Forall_impl; [|exact Ht].
  intros c Hc. now apply class_char_not_dollar with (a := a).
Qed.

(** The only dollar sign of a reference is its second character. *)
Lemma ref_pattern_dollar (ws1 ws2 u k : str) (i : nat) :
  spaces ws1 -> spaces ws2 -> well_formed_url u -> well_formed_key k ->
  nth_error (ref_pattern ws1 ws2 u k) i = Some dollar -> i = 1.
Proof.
  intros Hs1 Hs2 (b & Hu & _ & Hb) [_ Hk] H.
  destruct i as [|[|i]]; [discriminate|reflexivity|exfalso].
  unfold ref_pattern in H. cbn in H. apply nth_error_In in H.
  assert (Hnd : Forall (fun c => c <> dollar)
    (lit "ref" ++ dquote :: ws1 ++ lit ":" ++ ws2
     ++ dquote :: u ++ lit "#/properties/" ++ k ++ [dquote])).
  { repeat (apply Forall_app; split) || apply Forall_cons;
      try discriminate; try (now apply all_match_no_dollar with (a := space_class));
      try (now apply all_match_no_dollar with (a := key_class));
      try (repeat constructor; discriminate).
    destruct Hu as [-> | ->]; apply Forall_app; split;
      try (now apply all_match_no_dollar with (a := url_class));
      repeat constructor; discriminate. }
  rewrite Forall_forall in Hnd. now apply (Hnd dollar).
Qed.

(** A reference ends with a character of its key and a double quote. *)
Lemma ref_pattern_end (ws1 ws2 u k : str) :
  well_formed_key k ->
  exists front kc,
    ref_pattern ws1 ws2 u k = front ++ [kc; dquote]
    /\ atom_matches key_class kc = true.
Proof.
  intros [Hne Hk]. destruct (exists_last Hne) as (k0 & kc & ->).
  exists (dquote :: lit "$ref" ++ dquote :: ws1 ++ lit ":" ++ ws2
          ++ dquote :: u ++ lit "#/properties/" ++ k0), kc.
  split.
  - unfold ref_pattern. cbn [app]. repeat (rewrite <- app_assoc; cbn [app]).
    reflexivity.
  - apply Forall_app in Hk as [_ Hk]. now inversion Hk.
Qed.

Lemma nth_error_after (pre s : str) (j : nat) :
  nth_error (pre ++ s) (length pre + j) = nth_error s j.
Proof.
  rewrite nth_error_app2 by lia. f_equal. lia.
Qed.

(** Two references that overlap share one double quote, which follows a
    character of a key and is followed by a dollar sign. *)
Lemma overlap_bad_quote (text : str) (r r' : ref) :
  is_ref text r -> is_ref text r' ->
  ref_start r < ref_start r' -> ref_start r' < ref_stop r ->
  exists i kc,
    nth_error text i = Some kc /\ nth_error text (i + 1) = Some dquote
    /\ nth_error text (i + 2) = Some dollar
    /\ atom_matches key_class kc = true.
Proof.
  unfold is_ref. destruct r as [p e u k], r' as [p' e' u' k']. cbn.
  intros (pre & ws1 & ws2 & rest & E & Hp & He & Hs1 & Hs2 & Hu & Hk)
         (pre' & ws1' & ws2' & rest' & E' & Hp' & _) Hlt Hin.
  set (pat := ref_pattern ws1 ws2 u k) in *.
  assert (F0 : nth_error text p' = Some dquote).
  { rewrite E', <- Hp', <- (Nat.add_0_r (length pre')), nth_error_after. reflexivity. }
  assert (F1 : nth_error text (S p') = Some dollar).
  { rewrite E', <- Hp'. replace (S (length pre')) with (length pre' + 1) by lia.
    rewrite nth_error_after. reflexivity. }
  assert (F2 : forall j, j < length pat -> nth_error text (p + j) = nth_error pat j).
  { intros j Hj. rewrite E, <- Hp, nth_error_after. now apply nth_error_app1. }
  destruct (ref_pattern_end ws1 ws2 u Hk) as (front & kc & Epat & Hkc).
  fold pat in Epat.
  assert (Hlen : length pat = length front + 2).
  { rewrite Epat, length_app. reflexivity. }
  destruct (Nat.eq_dec (S p') e) as [Eend|Hne].
  - exists (p + length front), kc.
    replace (p + length front + 1) with p' by lia.
    replace (p + length front + 2) with (S p') by lia.
    split; [|split; [|split]]; auto.
    rewrite F2 by lia. rewrite Epat, nth_error_app2 by lia.
    now rewrite Nat.sub_diag.
  - exfalso. specialize (F2 (S p' - p)).
    replace (p + (S p' - p)) with (S p') in F2 by lia.
    rewrite F1 in F2. symmetry in F2.
    apply ref_pattern_dollar in F2; auto; lia.
Qed.

Lemma lexed_non_overlapping (text : str) (m : lex_mode) :
  lex_run AfterOpener text = Some m -> non_overlapping text.
Proof.
  intros Hrun r r' Hr Hr' Hlt.
  destruct (Nat.le_gt_cases (ref_stop r) (ref_start r')) as [H|H]; [exact H|].
  exfalso.
  destruct (overlap_bad_quote Hr Hr' Hlt H) as (i & kc & H0 & H1 & H2 & Hkc).
  rewrite Nat.add_1_r in H1. replace (i + 2) with (S (S i)) in H2 by lia.
  assert (Ho : (is_opener kc || N.eqb kc backslash)%bool = true).
  { apply (@lex_no_bad_quote text AfterOpener i kc); auto.
    rewrite Hrun. discriminate. }
  rewrite key_char_not_opener in Ho by exact Hkc. discriminate.
Qed.

(** ** The references of a text *)

Lemma ref_here_spec (text : str) (p : nat) (r : ref) :
  p <= length text -> (In r (ref_here text p) <-> is_ref text r /\ ref_start r = p).
Proof.
  intros Hp. unfold ref_here, is_ref. split.
  - destruct (match_here ref_regexp (skipn p text)) as [[t caps]|] eqn:E; [|intros []].
    destruct (match_here_ref_captures _ E) as (u & k & ->). cbn.
    intros [<-|[]]. cbn. split; auto. apply ref_span_iff. eauto.
  - intros [H <-]. apply ref_span_iff in H as (_ & t & -> & He). cbn.
    left. destruct r; cbn in *. now subst.
Qed.

Lemma all_refs_spec (text : str) (r : ref) : In r (all_refs text) <-> is_ref text r.
Proof.
  unfold all_refs. rewrite in_flat_map. split.
  - intros (p & Hp & H). apply in_seq in Hp. apply ref_here_spec in H; [tauto|lia].
  - intros H. exists (ref_start r). split.
    + apply in_seq. destruct (@ref_span_bounds text _ _ _ _ H). lia.
    + apply ref_here_spec; auto.
      destruct (@ref_span_bounds text _ _ _ _ H). lia.
Qed.

Lemma uint_text_plain (d : Decimal.uint) :
  forallb plain_char (lit (NilEmpty.string_of_uint d)) = true.
Proof. induction d; simpl; auto. Qed.

Lemma N_toString_plain (n : N) : forallb plain_char (N_toString n) = true.
Proof. apply uint_text_plain. Qed.

(** ** The index of a parent schema *)

Section Indexer.

Context {number : Type} (Number_toString : number -> str).

(** The text of a number holds neither a double quote nor a dollar sign. *)
Hypothesis number_text_plain :
  forall n, forallb plain_char (Number_toString n) = true.

Lemma JSON_stringify_non_overlapping (v : json number) :
  non_overlapping (JSON_stringify Number_toString v).
Proof.
  destruct (lex_JSON_stringify Number_toString number_text_plain v) as (m & _ & H).
  eapply lexed_non_overlapping; eauto.
Qed.

(** C2: let [occ] name once each reference ["$ref":"<URL>#/properties/<key>"]
    of the serialized parent schema. With keys that all differ the index has
    as many entries as there are references and maps each key to its URL;
    with a key that comes twice it has fewer entries; and a key is always
    mapped to the URL of its last reference in the text. *)
Theorem findAllRefs_indexes_references (jsonParentSchema : json number) (occ : list ref) :
  NoDup occ ->
  (forall r, In r occ <-> is_ref (JSON_stringify Number_toString jsonParentSchema) r) ->
  exists urls,
    findAllRefs Number_toString jsonParentSchema = Some urls
    /\ (NoDup (map ref_key occ) ->
        Map_size urls = length occ
        /\ forall r, In r occ -> Map_get (ref_key r) urls = Some (ref_url r))
    /\ (~ NoDup (map ref_key occ) -> Map_size urls < length occ)
    /\ (forall r, In r occ ->
        (forall r', In r' occ -> ref_key r' = ref_key r -> ref_start r' <= ref_start r) ->
        Map_get (ref_key r) urls = Some (ref_url r)).
Proof.
  intros Hnd Hocc. unfold findAllRefs.
  apply findAllRefs_text_index; auto. apply JSON_stringify_non_overlapping.
Qed.

End Indexer.

Lemma parent_example_refs_complete (r : ref) :
  In r parent_example_refs <-> is_ref (JSON_stringify N_toString parent_example) r.
Proof.
  rewrite <- all_refs_spec.
  assert (E : all_refs (JSON_stringify N_toString parent_example) = parent_example_refs)
    by (vm_compute; reflexivity).
  rewrite E. reflexivity.
Qed.

Lemma findAllRefs_indexes_references_witness :
  exists urls,
    findAllRefs N_toString parent_example = Some urls
    /\ (NoDup (map ref_key parent_example_refs) ->
        Map_size urls = length parent_example_refs
        /\ forall r, In r parent_example_refs ->
             Map_get (ref_key r) urls = Some (ref_url r))
    /\ (~ NoDup (map ref_key parent_example_refs) ->
        Map_size urls < length parent_example_refs)
    /\ (forall r, In r parent_example_refs ->
        (forall r', In r' parent_example_refs -> ref_key r' = ref_key r ->
                    ref_start r' <= ref_start r) ->
        Map_get (ref_key r) urls = Some (ref_url r)).
Proof.
  apply (@findAllRefs_indexes_references N N_toString N_toString_plain
            parent_example parent_example_refs).
  - constructor.
    + intros [H|[]]. discriminate H.
    + constructor; [intros []|constructor].
  - exact parent_example_refs_complete.
Defined.

(** C9: the loop of [findAllRefs] ends, after one call of [exec] for each
    reference it meets and one more; each reference it meets is one of the
    text of the parent schema and begins where the one before has ended or
    later, so that there are no more of them than characters; every entry of
    the index comes from one of them, and indexing produces no event: it
    fetches nothing. *)
Theorem findAllRefs_single_pass {number : Type} (Number_toString : number -> str)
    (jsonParentSchema : json number) :
  let text := JSON_stringify Number_toString jsonParentSchema in
  exists (refs : list ref) (urls : Map),
    (forall fuel,
       findAllRefs_loop fuel (mkRegExp ref_regexp 0) text Map_empty
       = if Nat.ltb (length refs) fuel then Some urls else None)
    /\ findAllRefs Number_toString jsonParentSchema = Some urls
    /\ urls = fold_left add_ref refs Map_empty
    /\ Forall (is_ref text) refs
    /\ StronglySorted before refs
    /\ length refs <= length text
    /\ (forall k u, Map_get k urls = Some u ->
          exists r, In r refs /\ ref_key r = k /\ ref_url r = u)
    /\ findAllRefs_io Number_toString jsonParentSchema = ([], Done urls).
Proof.
  intros text.
  destruct (@scan_refs text (S (length text)) 0)
    as (refs & Hloop & Hout & Hlen & Hall & Hsorted & _); [lia|lia|].
  exists refs, (fold_left add_ref refs Map_empty).
  assert (E : findAllRefs Number_toString jsonParentSchema
              = Some (fold_left add_ref refs Map_empty)).
  { unfold findAllRefs. apply Hloop. fold text. lia. }
  split; [|split; [|split; [|split; [|split; [|split; [|split]]]]]]; auto.
  - intros fuel. destruct (Nat.ltb_spec (length refs) fuel); auto.
  - eapply Forall_impl; [|exact Hall]. now intros r [H _].
  - lia.
  - intros k u H. apply fold_add_ref_origin in H as [H|H]; [exact H|discriminate].
  - unfold findAllRefs_io. now rewrite E.
Qed.

(** ** The pipeline *)

Arguments lit : simpl never.
Arguments RESOURCES_PATH : simpl never.
Arguments PARENT_SCHEME_URL : simpl never.
Arguments schema_key : simpl never.
Arguments getJsonFileType : simpl never.

Ltac unfold_run :=
  unfold main, main_sync, main_async, readJsonFile, readHttpsJsonUrl, compile,
    bind, emit, lift, ret, diverge.

Ltac unfold_run_in H :=
  unfold main, main_sync, main_async, readJsonFile, readHttpsJsonUrl, compile,
    bind, emit, lift, ret, diverge in H.

Section Pipeline.

Context {number : Type} (Number_toString : number -> str).
Variable w : World number.

Lemma findAllRefs_total (v : json number) :
  exists urls, findAllRefs Number_toString v = Some urls.
Proof.
  destruct (@scan_refs (JSON_stringify Number_toString v)
              (S (length (JSON_stringify Number_toString v))) 0)
    as (refs & Hloop & _ & Hlen & _); [lia|lia|].
  exists (fold_left add_ref refs Map_empty). apply Hloop. lia.
Qed.

Lemma findAllRefs_no_refs (v : json number) :
  (forall r, ~ is_ref (JSON_stringify Number_toString v) r) ->
  findAllRefs Number_toString v = Some Map_empty.
Proof.
  intros Hnone.
  destruct (@scan_refs (JSON_stringify Number_toString v)
              (S (length (JSON_stringify Number_toString v))) 0)
    as (refs & Hloop & _ & Hlen & Hall & _); [lia|lia|].
  destruct refs as [|r refs].
  - apply (Hloop _ Map_empty). simpl. lia.
  - inversion Hall as [|? ? [Hr _] _]. now apply Hnone in Hr.
Qed.

Lemma findAllRefs_io_done (v : json number) :
  exists urls,
    findAllRefs Number_toString v = Some urls
    /\ findAllRefs_io Number_toString v = ([], Done urls).
Proof.
  destruct (findAllRefs_total v) as [urls H]. exists urls. split; auto.
  unfold findAllRefs_io. now rewrite H.
Qed.

(** A run that applies a validator went through every stage before, and
    ends as the validator decides. *)
Lemma main_validates (doc : json number) :
  In (EvValidate doc) (fst (main Number_toString w)) ->
  exists file jsonFile schema urls k url sub sub' validate,
    readInputParameters (process_argv w) = Return file
    /\ fs_readJson w (RESOURCES_PATH ++ file) = Return jsonFile
    /\ net_fetch w PARENT_SCHEME_URL 5000 = FetchResponse true (Return schema)
    /\ findAllRefs Number_toString schema = Some urls
    /\ getJsonFileType jsonFile urls = Return k
    /\ Map_get k urls = Some url
    /\ net_fetch w url 5000 = FetchResponse true (Return sub)
    /\ prepare sub = Return sub'
    /\ ajv_compile w sub' = Return validate
    /\ prepare jsonFile = Return doc
    /\ main Number_toString w
       = match validate doc with
         | Answers valid errors =>
             ([EvReadFile (RESOURCES_PATH ++ file); EvFetch PARENT_SCHEME_URL 5000;
               EvFetch url 5000; EvCompile sub'; EvValidate doc;
               if valid then EvConsoleLog (lit "The file is valid")
               else EvConsoleError (lit "Validation errors:") errors],
              Completed)
         | Promises rejection =>
             ([EvReadFile (RESOURCES_PATH ++ file); EvFetch PARENT_SCHEME_URL 5000;
               EvFetch url 5000; EvCompile sub'; EvValidate doc;
               EvConsoleLog (lit "The file is valid")],
              match rejection with
              | Some e => UnhandledRejection e
              | None => Completed
              end)
         | Raises e =>
             ([EvReadFile (RESOURCES_PATH ++ file); EvFetch PARENT_SCHEME_URL 5000;
               EvFetch url 5000; EvCompile sub'; EvValidate doc],
              UnhandledRejection e)
         end.
Proof.
  intros H. unfold_run. unfold_run_in H.
  destruct (readInputParameters (process_argv w)) as [file|e] eqn:Eargv;
    cbn in *; [|contradiction].
  destruct (fs_readJson w (RESOURCES_PATH ++ file)) as [jsonFile|e] eqn:Efs;
    cbn in *; [|intuition discriminate].
  destruct (net_fetch w PARENT_SCHEME_URL 5000) as [e|[|] [schema|e]] eqn:Eparent;
    cbn in *; try solve [intuition discriminate].
  destruct (findAllRefs_io_done schema) as (urls & Eurls & Eio).
  rewrite Eio in *. cbn in *.
  destruct (getJsonFileType jsonFile urls) as [k|e] eqn:Etype;
    cbn in *; [|intuition discriminate].
  destruct (Map_get k urls) as [url|] eqn:Eget;
    cbn in *; [|intuition discriminate].
  destruct (net_fetch w url 5000) as [e|[|] [sub|e]] eqn:Esub;
    cbn in *; try solve [intuition discriminate].
  destruct (delete_property sub schema_key) as [sub'|e] eqn:Eprep;
    cbn in *; [|intuition discriminate].
  destruct (ajv_compile w sub') as [validate|e] eqn:Ecompile;
    cbn in *; [|intuition discriminate].
  destruct (delete_property jsonFile schema_key) as [doc'|e] eqn:Edoc;
    cbn in *; [|intuition discriminate].
  assert (doc = doc').
  { destruct (validate doc') as [[|] errors|[e|]|e]; cbn in H;
      intuition (try discriminate; congruence). }
  subst doc'. clear H.
  exists file, jsonFile, schema, urls, k, url, sub, sub', validate.
  repeat split; auto.
  destruct (validate doc) as [[|] errors|[e|]|e]; reflexivity.
Qed.

Lemma readInputParameters_single (node script file : str) :
  readInputParameters [node; script; file] = Return file.
Proof. reflexivity. Qed.

(** How a fetch ends. *)
Lemma readHttpsJsonUrl_eq (url : str) :
  readHttpsJsonUrl w url
  = ([EvFetch url 5000],
     match net_fetch w url 5000 with
     | FetchRejected e => Raised e
     | FetchResponse false _ => Raised NetworkResponseNotOk
     | FetchResponse true (Return v) => Done v
     | FetchResponse true (Throw e) => Raised e
     end).
Proof.
  unfold readHttpsJsonUrl, bind, emit, lift.
  destruct (net_fetch w url 5000) as [e|[|] [v|e]]; reflexivity.
Qed.

(** C6, as the program has it: the fetch is given 5000 milliseconds; a
    response that is not ok ends in the one error [Network response was not
    ok], whatever the locator and the status; a rejection of the fetch or of
    the reading of the body, such as the one of the timeout, is passed on as
    it is, so that a timeout is not that generic error. *)
Theorem readHttpsJsonUrl_outcomes (url : str) :
  fst (readHttpsJsonUrl w url) = [EvFetch url 5000]
  /\ (forall body, net_fetch w url 5000 = FetchResponse false body ->
        snd (readHttpsJsonUrl w url) = Raised NetworkResponseNotOk)
  /\ (forall e, net_fetch w url 5000 = FetchRejected e ->
        snd (readHttpsJsonUrl w url) = Raised e)
  /\ (forall e, net_fetch w url 5000 = FetchResponse true (Throw e) ->
        snd (readHttpsJsonUrl w url) = Raised e)
  /\ (forall v, net_fetch w url 5000 = FetchResponse true (Return v) ->
        snd (readHttpsJsonUrl w url) = Done v)
  /\ TimeoutError <> NetworkResponseNotOk.
Proof.
  rewrite readHttpsJsonUrl_eq. cbn [fst snd].
  repeat split; try (intros ? H; now rewrite H). discriminate.
Qed.




(** The run of a document whose type is not in the index. *)
Lemma main_unknown_type (node script file : str) (jsonFile schema : json number)
    (urls : Map) (k : str) :
  process_argv w = [node; script; file] ->
  fs_readJson w (RESOURCES_PATH ++ file) = Return jsonFile ->
  net_fetch w PARENT_SCHEME_URL 5000 = FetchResponse true (Return schema) ->
  findAllRefs Number_toString schema = Some urls ->
  getJsonFileType jsonFile urls = Return k ->
  Map_get k urls = None ->
  main Number_toString w
  = ([EvReadFile (RESOURCES_PATH ++ file); EvFetch PARENT_SCHEME_URL 5000;
      EvConsoleLog (lit "Json object invalid: " ++ k)],
     Completed).
Proof.
  intros Hargv Hfs Hparent Hrefs Htype Hget. unfold_run.
  rewrite Hargv, readInputParameters_single. cbn. rewrite Hfs. cbn.
  rewrite Hparent. cbn. unfold findAllRefs_io. rewrite Hrefs. cbn.
  rewrite Htype. cbn. rewrite Hget. reflexivity.
Qed.

(** C3, as the program has it: when the type of the document has no entry
    in the index, and so whenever the parent schema holds no reference, the
    run fetches nothing after the parent schema, writes
    [Json object invalid: <type>] on the console and ends without an
    exception. *)
Theorem unknown_entity_type_is_logged (node script file : str)
    (jsonFile schema : json number) (urls : Map) (k : str) :
  process_argv w = [node; script; file] ->
  fs_readJson w (RESOURCES_PATH ++ file) = Return jsonFile ->
  net_fetch w PARENT_SCHEME_URL 5000 = FetchResponse true (Return schema) ->
  findAllRefs Number_toString schema = Some urls ->
  getJsonFileType jsonFile urls = Return k ->
  Map_get k urls = None
  \/ (forall r, ~ is_ref (JSON_stringify Number_toString schema) r) ->
  main Number_toString w
  = ([EvReadFile (RESOURCES_PATH ++ file); EvFetch PARENT_SCHEME_URL 5000;
      EvConsoleLog (lit "Json object invalid: " ++ k)],
     Completed).
Proof.
  intros Hargv Hfs Hparent Hrefs Htype [Hget|Hnone].
  - eapply main_unknown_type; eauto.
  - eapply main_unknown_type; eauto.
    rewrite (findAllRefs_no_refs schema Hnone) in Hrefs. now injection Hrefs as <-.
Qed.



(** C10: the document that the validator is applied to is the loaded
    document after [delete jsonFile.$schema]: for an object, the same
    properties in the same order without [$schema], each other key with the
    value it had. *)
Theorem validated_document_is_stripped (doc : json number) :
  In (EvValidate doc) (fst (main Number_toString w)) ->
  exists file jsonFile,
    readInputParameters (process_argv w) = Return file
    /\ fs_readJson w (RESOURCES_PATH ++ file) = Return jsonFile
    /\ prepare jsonFile = Return doc
    /\ (forall props, jsonFile = JObj props ->
          doc = JObj (remove_key schema_key props)
          /\ obj_get schema_key (remove_key schema_key props) = None
          /\ forall k, k <> schema_key ->
               obj_get k (remove_key schema_key props) = obj_get k props)
    /\ ((forall props, jsonFile <> JObj props) -> doc = jsonFile).
Proof.
  intros H.
  destruct (main_validates doc H)
    as (file & jsonFile & schema & urls & k & url & sub & sub' & validate & H1).
  destruct H1 as (Hargv & Hfs & _ & _ & _ & _ & _ & _ & _ & Hdoc & _).
  exists file, jsonFile. split; [|split; [|split; [|split]]]; auto.
  - intros props ->. unfold prepare in Hdoc. cbn in Hdoc. injection Hdoc as <-.
    split; [reflexivity|]. split.
    + rewrite obj_get_remove_key. now rewrite str_eqb_refl.
    + intros k' Hk'. rewrite obj_get_remove_key.
      apply str_eqb_neq in Hk'. now rewrite Hk'.
  - intros Hnot. unfold prepare in Hdoc.
    destruct jsonFile as [| | | | |props]; cbn in Hdoc; try congruence.
Qed.

End Pipeline.

(** ** The properties on the example documents *)

Lemma getJsonFileType_resolves_witness :
  getJsonFileType invoice_document Map_empty = Return (lit "invoice").
Proof.
  refine (proj1 (@getJsonFileType_resolves N _ Map_empty _) (lit "invoice") _).
  - constructor.
    + intros [H|[]]. vm_compute in H. discriminate H.
    + constructor; [intros []|constructor].
  - intros x. split.
    + intros [[<-|[<-|[]]] Hne]; [exfalso; apply Hne; reflexivity|reflexivity].
    + intros ->. split; [right; left; reflexivity|vm_compute; discriminate].
Defined.

(** The run of a sales order against [parent_example], which has no entry
    for it, ends without an exception. *)
Lemma unknown_entity_type_does_not_raise : ~ unknown_entity_type_raises.
Proof.
  intros H.
  destruct (H world_salesorder (lit "node") (lit "validator01.js")
              (lit "salesorder.json") salesorder_document parent_example
              parent_example_index (lit "salesorder"))
    as [e [He|He]]; try (vm_compute; reflexivity);
    vm_compute in He; discriminate He.
Qed.

Lemma unknown_entity_type_is_logged_witness :
  main N_toString world_salesorder
  = ([EvReadFile (RESOURCES_PATH ++ lit "salesorder.json");
      EvFetch PARENT_SCHEME_URL 5000;
      EvConsoleLog (lit "Json object invalid: " ++ lit "salesorder")],
     Completed).
Proof.
  apply (@unknown_entity_type_is_logged N N_toString world_salesorder
           (lit "node") (lit "validator01.js") (lit "salesorder.json")
           salesorder_document parent_example parent_example_index
           (lit "salesorder")).
  - reflexivity.
  - vm_compute. reflexivity.
  - vm_compute. reflexivity.
  - vm_compute. reflexivity.
  - vm_compute. reflexivity.
  - left. vm_compute. reflexivity.
Defined.





Lemma fetch_error_forgets_locator : ~ fetch_error_carries_locator.
Proof.
  intros [locator_of H].
  assert (Ha : locator_of NetworkResponseNotOk = lit "https://x/a.json").
  { apply (H world_salesorder). vm_compute. reflexivity. }
  assert (Hb : locator_of NetworkResponseNotOk = lit "https://x/b.json").
  { apply (H world_salesorder). vm_compute. reflexivity. }
  rewrite Ha in Hb. vm_compute in Hb. discriminate Hb.
Qed.

Lemma world_invalid_invoice_validates :
  In (EvValidate invoice_document_stripped) (fst (main N_toString world_invalid_invoice)).
Proof. vm_compute. do 4 right. left. reflexivity. Qed.


Lemma validated_document_is_stripped_witness :
  exists file jsonFile,
    readInputParameters (process_argv world_invalid_invoice) = Return file
    /\ fs_readJson world_invalid_invoice (RESOURCES_PATH ++ file) = Return jsonFile
    /\ prepare jsonFile = Return invoice_document_stripped
    /\ (forall props, jsonFile = JObj props ->
          invoice_document_stripped = JObj (remove_key schema_key props)
          /\ obj_get schema_key (remove_key schema_key props) = None
          /\ forall k, k <> schema_key ->
               obj_get k (remove_key schema_key props) = obj_get k props)
    /\ ((forall props, jsonFile <> JObj props) -> invoice_document_stripped = jsonFile).
Proof.
  apply (@validated_document_is_stripped N N_toString world_invalid_invoice
           invoice_document_stripped).
  exact world_invalid_invoice_validates.
Defined.

(** ** Further examples *)

Example JSON_stringify_invoice :
  JSON_stringify N_toString invoice_document_stripped
  = lit "{" ++ quoted "invoice" ++ lit ":{" ++ quoted "id" ++ lit ":1}}".
Proof. reflexivity. Qed.

(** Escapes of [JSON.stringify]: a double quote, a backslash, a line feed
    and a lone surrogate. *)
Example QuoteJSONString_escapes :
  QuoteJSONString [97; dquote; backslash; 10; 55357]%N
  = [dquote; 97; backslash; dquote; backslash; backslash; backslash; 110;
     backslash; 117; 100; 56; 51; 100; dquote]%N.
Proof. reflexivity. Qed.

(** The later of two references to one key is the one that stays. *)
Example findAllRefs_repeated_key :
  findAllRefs N_toString parent_repeated
  = Some [(lit "invoice", lit "https://x/new.json")].
Proof. vm_compute. reflexivity. Qed.

Example findAllRefs_parent_example :
  findAllRefs N_toString parent_example = Some parent_example_index.
Proof. vm_compute. reflexivity. Qed.

(** In a text with two references that overlap the loop meets the first
    one only: that serialized texts have no such references is needed. *)
Example overlapping_text_refs :
  map ref_key (all_refs overlapping_text) = [lit "k"; lit "j"]
  /\ findAllRefs_text overlapping_text = Some [(lit "k", lit "http://a")]
  /\ ~ non_overlapping overlapping_text.
Proof.
  split; [|split]; try (vm_compute; reflexivity).
  intros H.
  assert (Hrefs : all_refs overlapping_text
                  = [mkRef 0 31 (lit "http://a") (lit "k");
                     mkRef 30 61 (lit "http://b") (lit "j")])
    by (vm_compute; reflexivity).
  assert (H1 : is_ref overlapping_text (mkRef 0 31 (lit "http://a") (lit "k"))).
  { apply all_refs_spec. rewrite Hrefs. now left. }
  assert (H2 : is_ref overlapping_text (mkRef 30 61 (lit "http://b") (lit "j"))).
  { apply all_refs_spec. rewrite Hrefs. right. now left. }
  specialize (H _ _ H1 H2). cbn in H. lia.
Qed.

(** Values that are not objects, which the parser of the input file can
    return as well: [null] has no property names to ask for, and the only
    property name of an empty array is [length]. *)
Example getJsonFileType_null :
  getJsonFileType (@JNull N) Map_empty
  = Throw (TypeError (lit "Cannot convert undefined or null to object")).
Proof. reflexivity. Qed.

Example getJsonFileType_empty_array :
  getJsonFileType (@JArr N []) Map_empty = Return (lit "length").
Proof. reflexivity. Qed.

(** The two runs of the invoice: with a schema that wants a string for
    [id], and with one that accepts the document. *)
Example main_invalid_invoice :
  main N_toString world_invalid_invoice
  = ([EvReadFile (lit "../resources/invoice.json");
      EvFetch PARENT_SCHEME_URL 5000;
      EvFetch (lit "https://x/invoice.json") 5000;
      EvCompile (JObj (remove_key schema_key
                         [(lit "$schema", JStr (lit "https://json-schema.org/draft-07/schema"));
                          (lit "type", JStr (lit "object"));
                          (lit "properties",
                           JObj [(lit "invoice",
                                  JObj [(lit "properties",
                                         JObj [(lit "id",
                                                JObj [(lit "type", JStr (lit "string"))])])])])]));
      EvValidate invoice_document_stripped;
      EvConsoleError (lit "Validation errors:")
        [mkErrorObject (lit "/invoice/id")
           (lit "#/properties/invoice/properties/id/type")
           (lit "type") (lit "must be string")]],
     Completed).
Proof. vm_compute. reflexivity. Qed.

Example main_valid_invoice :
  snd (main N_toString world_valid_invoice) = Completed
  /\ last (fst (main N_toString world_valid_invoice)) (EvReadFile [])
     = EvConsoleLog (lit "The file is valid").
Proof. split; vm_compute; reflexivity. Qed.

(* ================================================================= *)
(** * Part III: further properties of the program *)
(* ================================================================= *)

(** ** The pattern of [findAllRefs] *)

(** X1: at the start of a text the pattern of [findAllRefs] matches exactly
    a text of the shape ["$ref" : "<URL>#/properties/<key>"], with any white
    space around the colon, a URL made of [http://] or [https://] and one
    or more of the characters [A-Za-z0-9_/.-], and a key made of one or
    more of [A-Za-z0-9_.-]; the match is that text, group 1 the URL and
    group 2 the key. *)
Theorem ref_regexp_matches_exactly (s t : str) (caps : captures) :
  match_here ref_regexp s = Some (t, caps) <->
  exists ws1 ws2 u k rest,
    s = ref_pattern ws1 ws2 u k ++ rest /\ t = ref_pattern ws1 ws2 u k
    /\ caps = [(2, k); (1, u)]
    /\ spaces ws1 /\ spaces ws2 /\ well_formed_url u /\ well_formed_key k.
Proof. exact (match_here_ref_iff s t caps). Qed.

(** ** The entries of the index *)

Section IndexEntries.

Context {number : Type} (Number_toString : number -> str).

Lemma findAllRefs_scanned (v : json number) :
  exists refs,
    findAllRefs Number_toString v = Some (fold_left add_ref refs Map_empty)
    /\ Forall (is_ref (JSON_stringify Number_toString v)) refs
    /\ (forall r, is_ref (JSON_stringify Number_toString v) r -> refs <> []).
Proof.
  destruct (@scan_refs (JSON_stringify Number_toString v)
              (S (length (JSON_stringify Number_toString v))) 0)
    as (refs & Hloop & _ & Hlen & Hall & _ & Hcomplete); [lia|lia|].
  exists refs. split; [|split].
  - apply Hloop. lia.
  - eapply Forall_impl; [|exact Hall]. now intros r [H _].
  - intros [p e u k] Hr ->.
    destruct (Hcomplete p e u k Hr) as [[]|(r' & [] & _)]. lia.
Qed.

Lemma findAllRefs_entry_ref (v : json number) (urls : Map) (k u : str) :
  findAllRefs Number_toString v = Some urls ->
  Map_get k urls = Some u ->
  well_formed_url u /\ well_formed_key k
  /\ exists p e, ref_span (JSON_stringify Number_toString v) p e u k.
Proof.
  intros Hrefs Hget.
  destruct (findAllRefs_scanned v) as (refs & E & Hall & _).
  rewrite E in Hrefs. injection Hrefs as <-.
  apply fold_add_ref_origin in Hget as [(r & Hin & <- & <-)|H]; [|discriminate].
  rewrite Forall_forall in Hall. specialize (Hall r Hin).
  pose proof Hall as (pre & ws1 & ws2 & rest & _ & _ & _ & _ & _ & Hu & Hk).
  repeat split; try apply Hu; try apply Hk. exists (ref_start r), (ref_stop r). exact Hall.
Qed.

(** X2: every entry of the index is a reference of the serialized parent
    schema: its value is a URL that starts with [http://] or [https://] and
    goes on with characters of [A-Za-z0-9_/.-] only, and its key is made of
    characters of [A-Za-z0-9_.-]. *)
Theorem findAllRefs_entries_well_formed (v : json number) (urls : Map) (k u : str) :
  findAllRefs Number_toString v = Some urls ->
  Map_get k urls = Some u ->
  well_formed_url u /\ well_formed_key k
  /\ exists p e, ref_span (JSON_stringify Number_toString v) p e u k.
Proof. apply findAllRefs_entry_ref. Qed.

(** X4: the index is empty exactly when the serialized parent schema holds
    no reference. *)
Theorem findAllRefs_empty_iff (v : json number) :
  findAllRefs Number_toString v = Some Map_empty
  <-> forall r, ~ is_ref (JSON_stringify Number_toString v) r.
Proof.
  destruct (findAllRefs_scanned v) as (refs & E & Hall & Hsome). split.
  - intros Hempty r Hr. apply (Hsome r Hr).
    rewrite E in Hempty. injection Hempty as Hempty.
    destruct refs as [|r0 refs]; [reflexivity|exfalso].
    assert (Hin : In (ref_key r0) (Map_keys (fold_left add_ref (r0 :: refs) Map_empty))).
    { apply fold_add_ref_keys. left. now left. }
    rewrite Hempty in Hin. destruct Hin.
  - intros Hnone. rewrite E. destruct refs as [|r0 refs]; [reflexivity|].
    inversion Hall as [|? ? Hr _]. now apply Hnone in Hr.
Qed.

End IndexEntries.

(** ** More on the type resolver *)

Section TypeResolverMore.

Context {number : Type}.
Implicit Types (props : list (str * json number)) (types : Map).

Lemma filter_all {A : Type} (f : A -> bool) (l : list A) :
  (forall x, In x l -> f x = true) -> filter f l = l.
Proof.
  induction l as [|a l IH]; simpl; intros H; [reflexivity|].
  rewrite (H a) by now left. f_equal. apply IH. intros x Hx. apply H. now right.
Qed.

Lemma filter_twice {A : Type} (f : A -> bool) (l : list A) :
  filter f (filter f l) = filter f l.
Proof.
  apply filter_all. intros x Hx. now apply filter_In in Hx.
Qed.

Lemma map_fst_remove_key (key : str) props :
  map fst (remove_key key props)
  = filter (fun x => negb (str_eqb x key)) (map fst props).
Proof.
  unfold remove_key. induction props as [|[k v] props IH]; simpl; [reflexivity|].
  destruct (negb (str_eqb k key)); simpl; now rewrite IH.
Qed.

Lemma index_name_not_schema (i : nat) : str_eqb (index_name i) schema_key = false.
Proof. unfold index_name. destruct (Nat.to_uint i); reflexivity. Qed.

Lemma indexed_names_filter (n : nat) :
  filter (fun prop => negb (str_eqb prop schema_key)) (indexed_names n)
  = indexed_names n.
Proof.
  apply filter_all. intros x Hx. unfold indexed_names in Hx.
  apply in_app_or in Hx as [Hx|[<-|[]]]; [|reflexivity].
  apply in_map_iff in Hx as (i & <- & _). now rewrite index_name_not_schema.
Qed.

Lemma getJsonFileType_indexed (v : json number) (n : nat) types :
  Object_getOwnPropertyNames v = Return (indexed_names n) ->
  getJsonFileType v types
  = match n with
    | 0 => Return (lit "length")
    | S _ => Throw AmbiguousOrMissingEntityError
    end.
Proof.
  intros H. unfold getJsonFileType. rewrite H, indexed_names_filter.
  unfold indexed_names. rewrite length_app, length_map, length_seq.
  destruct n as [|n]; [reflexivity|].
  replace (Nat.eqb (S n + length [lit "length"]) 1) with false; [reflexivity|].
  symmetry. apply Nat.eqb_neq. simpl. lia.
Qed.

(** X6: what the type resolver does with a document that is not an object:
    [null] ends in the [TypeError] of [Object.getOwnPropertyNames]; a
    boolean or a number has no property name and is refused; an array or a
    string is refused as soon as it has an element, since its indices and
    [length] are its property names, and resolves to the type [length] when
    it is empty. *)
Theorem getJsonFileType_not_an_object types :
  getJsonFileType (@JNull number) types
  = Throw (TypeError (lit "Cannot convert undefined or null to object"))
  /\ (forall b, getJsonFileType (@JBool number b) types
                = Throw AmbiguousOrMissingEntityError)
  /\ (forall n : number, getJsonFileType (JNum n) types
                         = Throw AmbiguousOrMissingEntityError)
  /\ (forall items : list (json number),
        getJsonFileType (JArr items) types
        = match items with
          | [] => Return (lit "length")
          | _ :: _ => Throw AmbiguousOrMissingEntityError
          end)
  /\ (forall s : str,
        getJsonFileType (@JStr number s) types
        = match s with
          | [] => Return (lit "length")
          | _ :: _ => Throw AmbiguousOrMissingEntityError
          end).
Proof.
  repeat split; try reflexivity.
  - intros items. rewrite (@getJsonFileType_indexed _ (length items)) by reflexivity.
    now destruct items.
  - intros s. rewrite (@getJsonFileType_indexed _ (length s)) by reflexivity.
    now destruct s.
Qed.

(** X7: on an object the type resolver either returns a key, and then this
    key is one of the object, is not [$schema] and is the only one besides
    [$schema], or it throws the error of a missing or ambiguous entity. *)
Theorem getJsonFileType_object_cases props types :
  (exists k,
     getJsonFileType (JObj props) types = Return k
     /\ In k (map fst props) /\ k <> schema_key
     /\ forall x, In x (map fst props) -> x = schema_key \/ x = k)
  \/ getJsonFileType (JObj props) types = Throw AmbiguousOrMissingEntityError.
Proof.
  unfold getJsonFileType. cbn [Object_getOwnPropertyNames].
  set (f := fun prop : str => negb (str_eqb prop schema_key)).
  destruct (filter f (map fst props)) as [|k [|k' l]] eqn:E; try (right; reflexivity).
  left. exists k. split; [reflexivity|].
  assert (Hk : In k (filter f (map fst props))) by (rewrite E; now left).
  apply filter_In in Hk as [Hin Hf]. apply not_schema_key in Hf.
  repeat split; auto.
  intros x Hx. destruct (f x) eqn:Efx.
  - right. assert (Hx' : In x (filter f (map fst props))) by (apply filter_In; auto).
    rewrite E in Hx'. destruct Hx' as [<-|[]]. reflexivity.
  - left. unfold f in Efx. apply negb_false_iff in Efx. now apply str_eqb_eq.
Qed.

(** X5: stripping [$schema] from a document does not change the type it
    resolves to, nor the failure of its resolution. *)
Theorem getJsonFileType_after_prepare (d d' : json number) types :
  prepare d = Return d' ->
  getJsonFileType d' types = getJsonFileType d types.
Proof.
  unfold prepare. destruct d; cbn; intros H; try (injection H as <-; reflexivity);
    [discriminate|].
  injection H as <-. unfold getJsonFileType. cbn [Object_getOwnPropertyNames].
  now rewrite map_fst_remove_key, filter_twice.
Qed.

End TypeResolverMore.

(** ** The index of a catalogue *)

Lemma match_here_ref_starts (s : str) res :
  match_here ref_regexp s = Some res ->
  exists s', s = dquote :: dollar :: 114%N :: s'.
Proof.
  destruct res as [t caps]. intros H.
  apply match_here_ref_iff in H as (ws1 & ws2 & u & k & rest & -> & _).
  rewrite ref_pattern_app. change (lit "$ref") with (dollar :: 114%N :: lit "ef").
  cbn [app]. eauto.
Qed.

Lemma exec_from_junk (j X : str) :
  forall i, no_dollar_r j = true -> head_ok X = true ->
  exec_from ref_regexp (j ++ X) i = exec_from ref_regexp X (i + length j).
Proof.
  induction j as [|c j IH]; intros i Hj HX.
  - simpl. now rewrite Nat.add_0_r.
  - cbn [app exec_from length].
    destruct (match_here ref_regexp (c :: j ++ X)) as [res|] eqn:E.
    + exfalso. apply match_here_ref_starts in E as (s' & E).
      injection E as -> E.
      destruct j as [|d [|e j]]; cbn in E, Hj.
      * destruct X as [|x X]; [discriminate|]. injection E as -> _.
        cbn in HX. discriminate.
      * injection E as -> E. destruct X as [|x X]; [discriminate|].
        injection E as -> _. cbn in HX. discriminate.
      * injection E as -> -> _. cbn in Hj. discriminate.
    + cbn [no_dollar_r] in Hj. apply andb_true_iff in Hj as [_ Hj].
      rewrite IH by assumption. f_equal. lia.
Qed.

Lemma no_dollar_r_app (a b : str) :
  no_dollar_r a = true -> no_dollar_r b = true ->
  match b with c :: _ => c <> 114%N | [] => True end ->
  no_dollar_r (a ++ b) = true.
Proof.
  intros Ha Hb Hhead. induction a as [|c a IH]; [exact Hb|].
  cbn [app no_dollar_r] in *. apply andb_true_iff in Ha as [Hc Ha].
  rewrite IH by assumption. rewrite andb_true_r.
  destruct a as [|d a]; [|exact Hc]. cbn [app].
  destruct b as [|x b]; [reflexivity|].
  apply negb_true_iff, andb_false_iff. right. now apply N.eqb_neq.
Qed.

Lemma no_dollar_r_prefix (a b : str) :
  no_dollar_r (a ++ b) = true -> no_dollar_r a = true.
Proof.
  induction a as [|c a IH]; [reflexivity|].
  cbn [app no_dollar_r]. intros H. apply andb_true_iff in H as [Hc H].
  rewrite IH by assumption. rewrite andb_true_r.
  destruct a as [|d a]; [reflexivity|exact Hc].
Qed.

Lemma no_dollar_no_dollar_r (s : str) :
  Forall (fun c => c <> dollar) s -> no_dollar_r s = true.
Proof.
  induction 1 as [|c s Hc Hs IH]; [reflexivity|].
  cbn [no_dollar_r]. rewrite IH, andb_true_r.
  destruct s; [reflexivity|].
  apply negb_true_iff, andb_false_iff. left. now apply N.eqb_neq.
Qed.

Lemma quote_unit_safe (c : char) : safe_char c = true -> quote_unit c = [c].
Proof.
  unfold safe_char, quote_unit, dquote, backslash. intros H.
  repeat (apply andb_true_iff in H as [H ?]).
  repeat match goal with
    | H : negb _ = true |- _ => apply negb_true_iff in H
    end.
  apply N.ltb_ge in H.
  repeat match goal with
    | |- context [N.eqb c ?x] =>
        destruct (N.eqb_spec c x) as [->|_]; [try discriminate; lia|]
    end.
  replace (N.ltb c 32) with false by (symmetry; apply N.ltb_ge; lia).
  match goal with
  | H1 : is_leading_surrogate c = false, H2 : is_trailing_surrogate c = false |- _ =>
      now rewrite H1, H2
  end.
Qed.

Lemma quote_body_safe (s : str) : forallb safe_char s = true -> quote_body s = s.
Proof.
  induction s as [|c s IH]; [reflexivity|]. cbn [forallb quote_body].
  intros H. apply andb_true_iff in H as [Hc Hs].
  assert (Hl : is_leading_surrogate c = false).
  { unfold safe_char in Hc. repeat (apply andb_true_iff in Hc as [Hc ?]).
    now apply negb_true_iff. }
  rewrite Hl, quote_unit_safe, IH by assumption. reflexivity.
Qed.

Ltac class_arith H :=
  unfold atom_matches, url_class, key_class, existsb, item_matches, is_word,
    is_digit, in_range in H;
  rewrite ?orb_true_iff, ?andb_true_iff, ?N.leb_le, ?N.eqb_eq in H.

Lemma class_char_safe (a : atom) (c : char) :
  a = url_class \/ a = key_class ->
  atom_matches a c = true -> safe_char c = true /\ c <> dollar.
Proof.
  intros Ha H.
  assert (Hc : (45 <= c /\ c <= 57 \/ 65 <= c /\ c <= 90 \/ c = 95
                \/ 97 <= c /\ c <= 122)%N).
  { destruct Ha as [-> | ->]; class_arith H; intuition (try discriminate; lia). }
  clear H. unfold safe_char, is_leading_surrogate, is_trailing_surrogate, in_range,
    dquote, backslash, dollar.
  rewrite !andb_true_iff, !negb_true_iff, !andb_false_iff, N.ltb_ge, !N.eqb_neq,
    !N.leb_gt.
  lia.
Qed.

Lemma all_match_safe (a : atom) (t : str) :
  a = url_class \/ a = key_class ->
  all_match a t -> forallb safe_char t = true /\ Forall (fun c => c <> dollar) t.
Proof.
  intros Ha Ht. split.
  - apply forallb_forall. intros c Hc. unfold all_match in Ht.
    rewrite Forall_forall in Ht. now apply (@class_char_safe a c Ha), Ht.
  - eapply Forall_impl; [|exact Ht]. intros c Hc. now apply (@class_char_safe a c Ha).
Qed.

Lemma entry_json_text {number : Type} (Number_toString : number -> str) (e : entry) :
  entry_ok e ->
  QuoteJSONString (fst (@entry_json number e)) ++ lit ":"
  ++ JSON_stringify Number_toString (snd (entry_json e))
  = entry_text e.
Proof.
  intros (_ & (body & Hu & _ & Hbody) & (_ & Hk)).
  unfold entry_json, entry_text. cbn [fst snd JSON_stringify map join].
  change (QuoteJSONString (lit "$ref")) with (dquote :: lit "$ref" ++ [dquote]).
  assert (Hsafe : forallb safe_char (entry_url e ++ lit "#/properties/" ++ entry_key e)
                  = true).
  { rewrite !forallb_app.
    destruct (@all_match_safe url_class body (or_introl eq_refl) Hbody) as [Hb _].
    destruct (@all_match_safe key_class (entry_key e) (or_intror eq_refl) Hk) as [Hk' _].
    rewrite Hk'. destruct Hu as [-> | ->]; now rewrite forallb_app, Hb. }
  unfold QuoteJSONString at 2. rewrite (quote_body_safe _ Hsafe).
  unfold ref_pattern. cbn [app]. repeat (rewrite <- app_assoc; cbn [app]).
  reflexivity.
Qed.

Lemma exec_from_eq (r : regex) (s : str) (i : nat) :
  exec_from r s i
  = match match_here r s with
    | Some (t, caps) => Some (MatchResult i t caps)
    | None => match s with [] => None | _ :: s' => exec_from r s' (S i) end
    end.
Proof. destruct s; reflexivity. Qed.

Lemma exec_from_ref_pattern (u k rest : str) (i : nat) :
  well_formed_url u -> well_formed_key k ->
  exec_from ref_regexp (ref_pattern [] [] u k ++ rest) i
  = Some (MatchResult i (ref_pattern [] [] u k) [(2, k); (1, u)]).
Proof.
  intros Hu Hk. rewrite exec_from_eq.
  replace (match_here ref_regexp (ref_pattern [] [] u k ++ rest))
    with (Some (ref_pattern [] [] u k, [(2, k); (1, u)])); [reflexivity|].
  symmetry. apply match_here_ref_iff. exists [], [], u, k, rest.
  split; [reflexivity|]. split; [reflexivity|]. split; [reflexivity|].
  split; [apply Forall_nil|]. split; [apply Forall_nil|]. split; assumption.
Qed.

Lemma RegExp_exec_at (r : regex) (done rest : str) :
  RegExp_exec (mkRegExp r (length done)) (done ++ rest)
  = match exec_from r rest (length done) with
    | Some m => (Some m, mkRegExp r (m_index m + length (m_text m)))
    | None => (None, mkRegExp r 0)
    end.
Proof.
  unfold RegExp_exec. cbn [lastIndex source].
  destruct (Nat.ltb_spec (length (done ++ rest)) (length done)) as [H|_].
  - rewrite length_app in H. lia.
  - now rewrite skipn_length_app.
Qed.

Lemma join_cons (sep p : str) (ps : list str) :
  join sep (p :: ps)
  = p ++ match ps with [] => [] | _ :: _ => sep ++ join sep ps end.
Proof. destruct ps; cbn [join]; [now rewrite app_nil_r|reflexivity]. Qed.

Lemma join_app_last (sep x : str) (l : list str) :
  join sep (l ++ [x])
  = match l with [] => x | _ :: _ => join sep l ++ sep ++ x end.
Proof.
  induction l as [|a l IH]; [reflexivity|].
  cbn [app]. rewrite join_cons, IH.
  destruct l as [|b l]; cbn [app]; [reflexivity|].
  rewrite (join_cons sep a (b :: l)). now rewrite <- !app_assoc.
Qed.

Lemma entry_name_junk (e : entry) :
  entry_ok e ->
  Forall (fun c => c <> dollar) (QuoteJSONString (entry_name e) ++ lit ":{").
Proof.
  intros (Hname & _).
  destruct (@all_match_safe key_class (entry_name e) (or_intror eq_refl) Hname) as [Hsafe Hnd].
  unfold QuoteJSONString. rewrite (quote_body_safe _ Hsafe).
  constructor; [discriminate|].
  repeat (apply Forall_app; split); auto; repeat constructor; discriminate.
Qed.

(** The loop on the text of a list of entries, after a text [P] in which
    no dollar sign is followed by [r]. *)
Lemma findAllRefs_loop_entries (es : list entry) :
  forall (P done : str) (urls : Map) (fuel : nat),
    Forall entry_ok es -> no_dollar_r P = true -> length es < fuel ->
    findAllRefs_loop fuel (mkRegExp ref_regexp (length done))
      (done ++ P ++ join (lit ",") (map entry_text es) ++ lit "}}") urls
    = Some (fold_left add_entry es urls).
Proof.
  induction es as [|e es IH]; intros P done urls fuel Hok HP Hfuel.
  - destruct fuel as [|fuel]; [simpl in Hfuel; lia|].
    cbn [map join app fold_left findAllRefs_loop].
    rewrite RegExp_exec_at.
    rewrite <- (app_nil_r (P ++ lit "}}")), exec_from_junk; [reflexivity| |reflexivity].
    apply no_dollar_r_app; [exact HP|reflexivity|discriminate].
  - destruct fuel as [|fuel]; [simpl in Hfuel; lia|].
    inversion Hok as [|? ? He Hes]; subst.
    pose proof He as (_ & Hu & Hk).
    set (pat := ref_pattern [] [] (entry_url e) (entry_key e)).
    set (J := P ++ QuoteJSONString (entry_name e) ++ lit ":{").
    set (P' := match es with [] => lit "}" | _ :: _ => lit "}," end).
    assert (Etext : done ++ P ++ join (lit ",") (map entry_text (e :: es)) ++ lit "}}"
                    = (done ++ J ++ pat)
                      ++ P' ++ join (lit ",") (map entry_text es) ++ lit "}}").
    { cbn [map]. rewrite join_cons. unfold entry_text at 1. fold pat. unfold J, P'.
      destruct es as [|e' es]; cbn [map]; repeat (rewrite <- app_assoc; cbn [app]);
        reflexivity. }
    assert (Eexec : RegExp_exec (mkRegExp ref_regexp (length done))
                      (done ++ P ++ join (lit ",") (map entry_text (e :: es)) ++ lit "}}")
                    = (Some (MatchResult (length done + length J) pat
                               [(2, entry_key e); (1, entry_url e)]),
                       mkRegExp ref_regexp (length (done ++ J ++ pat)))).
    { rewrite Etext. rewrite <- !app_assoc. rewrite RegExp_exec_at.
      rewrite exec_from_junk.
      - unfold pat. rewrite exec_from_ref_pattern by assumption.
        cbn [m_index m_text]. rewrite !length_app. do 2 f_equal. lia.
      - unfold J. apply no_dollar_r_app; [exact HP| |discriminate].
        apply no_dollar_no_dollar_r. now apply entry_name_junk.
      - reflexivity. }
    cbn [findAllRefs_loop]. rewrite Eexec. cbn [m_group m_captures capture Nat.eqb].
    rewrite Etext. cbn [fold_left]. apply IH; auto.
    + unfold P'. now destruct es.
    + simpl in Hfuel. lia.
Qed.

Lemma Map_set_fresh (k v : str) (m : Map) :
  ~ In k (Map_keys m) -> Map_set k v m = m ++ [(k, v)].
Proof.
  unfold Map_keys. induction m as [|[k' v'] m IH]; simpl; intros H; [reflexivity|].
  destruct (str_eqb k k') eqn:E.
  - apply str_eqb_eq in E. subst. tauto.
  - rewrite IH by tauto. reflexivity.
Qed.

Lemma fold_add_entry_fresh (es : list entry) :
  forall m : Map,
    NoDup (Map_keys m ++ map entry_key es) ->
    fold_left add_entry es m = m ++ map (fun e => (entry_key e, entry_url e)) es.
Proof.
  induction es as [|e es IH]; intros m H; cbn [fold_left map].
  - now rewrite app_nil_r.
  - unfold add_entry at 2. rewrite Map_set_fresh.
    + rewrite IH.
      * now rewrite <- app_assoc.
      * unfold Map_keys in *. rewrite map_app, <- app_assoc. exact H.
    + intros Hin. apply NoDup_remove_2 in H. apply H.
      apply in_or_app. now left.
Qed.

Section Catalogue.

Context {number : Type} (Number_toString : number -> str).

Lemma catalogue_text (top : list (str * json number)) (es : list entry) :
  Forall entry_ok es ->
  no_dollar_r (JSON_stringify Number_toString (JObj top)) = true ->
  exists P,
    no_dollar_r P = true
    /\ JSON_stringify Number_toString (catalogue top es)
       = P ++ join (lit ",") (map entry_text es) ++ lit "}}".
Proof.
  intros Hok Htop.
  set (ser := fun kv : str * json number =>
         QuoteJSONString (fst kv) ++ lit ":" ++ JSON_stringify Number_toString (snd kv)).
  assert (Hentries : map ser (map entry_json es) = map entry_text es).
  { rewrite map_map. apply map_ext_in. intros e He. unfold ser.
    apply entry_json_text. rewrite Forall_forall in Hok. auto. }
  exists ((lit "{" ++ join (lit ",") (map ser top))
          ++ match top with [] => [] | _ :: _ => lit "," end
          ++ QuoteJSONString (lit "properties") ++ lit ":{").
  split.
  - apply no_dollar_r_app.
    + cbn [JSON_stringify] in Htop. fold ser in Htop.
      rewrite app_assoc in Htop. now apply no_dollar_r_prefix in Htop.
    + now destruct top.
    + destruct top; discriminate.
  - unfold catalogue. cbn [JSON_stringify]. fold ser.
    rewrite map_app. cbn [map]. rewrite join_app_last.
    unfold ser at 2 4. cbn [fst snd JSON_stringify]. fold ser. rewrite Hentries.
    destruct top as [|kv top]; cbn [map app];
      repeat (rewrite <- app_assoc; cbn [app]); reflexivity.
Qed.

(** X3: for a parent schema of the usual shape, whose entities have names
    made of [A-Za-z0-9_.-] and references that the pattern accepts, and
    whose own properties do not hold [$r] in their text, the index is what
    [Map.set] makes of the references in their order; with keys that all
    differ it is the list of the keys with their URLs, in that order. *)
Theorem findAllRefs_catalogue (top : list (str * json number)) (es : list entry) :
  no_dollar_r (JSON_stringify Number_toString (JObj top)) = true ->
  Forall entry_ok es ->
  findAllRefs Number_toString (catalogue top es)
  = Some (fold_left add_entry es Map_empty)
  /\ (NoDup (map entry_key es) ->
      findAllRefs Number_toString (catalogue top es)
      = Some (map (fun e => (entry_key e, entry_url e)) es)).
Proof.
  intros Htop Hok.
  assert (E : findAllRefs Number_toString (catalogue top es)
              = Some (fold_left add_entry es Map_empty)).
  { destruct (@catalogue_text top es Hok Htop) as (P & HP & Etext).
    unfold findAllRefs. rewrite Etext.
    set (text := P ++ join (lit ",") (map entry_text es) ++ lit "}}").
    destruct (@scan_refs text (S (length text)) 0)
      as (refs & Hloop & _ & Hlen & _); [lia|lia|].
    rewrite Hloop by lia.
    rewrite <- (Hloop (S (length refs + length es)) Map_empty) by lia.
    apply (@findAllRefs_loop_entries es P [] Map_empty); auto. lia. }
  split; [exact E|]. intros Hnd. rewrite E. f_equal.
  now apply (fold_add_entry_fresh es Map_empty).
Qed.

End Catalogue.

Lemma all_match_forallb (a : atom) (t : str) :
  forallb (atom_matches a) t = true -> all_match a t.
Proof. intros H. apply Forall_forall. now apply forallb_forall. Qed.

Lemma parent_example_entries_ok : Forall entry_ok parent_example_entries.
Proof.
  repeat constructor; try discriminate; try (apply all_match_forallb; reflexivity).
  - exists (lit "x/invoice.json"). repeat split; try discriminate;
      [now right|apply all_match_forallb; reflexivity].
  - exists (lit "x/creditmemo.json"). repeat split; try discriminate;
      [now right|apply all_match_forallb; reflexivity].
Qed.

Lemma findAllRefs_catalogue_witness :
  findAllRefs N_toString parent_example
  = Some (fold_left add_entry parent_example_entries Map_empty)
  /\ (NoDup (map entry_key parent_example_entries) ->
      findAllRefs N_toString parent_example
      = Some (map (fun e => (entry_key e, entry_url e)) parent_example_entries)).
Proof.
  apply (@findAllRefs_catalogue N N_toString
           [(lit "$schema", JStr (lit "https://json-schema.org/draft-07/schema"))]
           parent_example_entries).
  - vm_compute. reflexivity.
  - exact parent_example_entries_ok.
Defined.

(** ** More on the pipeline *)

Lemma prepare_no_schema {number : Type} (d d' : json number) :
  prepare d = Return d' ->
  forall props, d' = JObj props -> obj_get schema_key props = None.
Proof.
  unfold prepare. intros H props ->.
  destruct d as [| | | | |props0]; cbn in H; try discriminate.
  injection H as <-. rewrite obj_get_remove_key. now rewrite str_eqb_refl.
Qed.

Section PipelineMore.

Context {number : Type} (Number_toString : number -> str).
Variable w : World number.

(** X10: the three statements that [main] has for the schema of the entity
    (fetch, [delete schema.$schema], [ajv.compile]) do what a call of
    [getValidateFunctionFromUrl] does: with the call in their place the
    asynchronous function of [main] has the same events and the same
    result, for every document and every world. *)
Theorem main_async_inlines_helper (jsonFile : json number) :
  main_async Number_toString w jsonFile
  = main_async_by_helper Number_toString w jsonFile.
Proof.
  unfold main_async, main_async_by_helper, getValidateFunctionFromUrl, prepare,
    readHttpsJsonUrl, compile, bind, emit, lift.
  destruct (net_fetch w PARENT_SCHEME_URL 5000) as [e|[|] [schema|e]];
    cbn; try reflexivity.
  destruct (findAllRefs_io_done Number_toString schema) as (urls & _ & ->). cbn.
  destruct (getJsonFileType jsonFile urls) as [k|e]; cbn; try reflexivity.
  destruct (Map_get k urls) as [url|]; cbn; try reflexivity.
  destruct (net_fetch w url 5000) as [e|[|] [sub|e]]; cbn; try reflexivity.
  destruct (delete_property sub schema_key) as [sub'|e]; cbn; try reflexivity.
  destruct (ajv_compile w sub') as [validate|e]; cbn; try reflexivity.
  destruct (delete_property jsonFile schema_key) as [doc|e]; cbn; try reflexivity.
  destruct (validate doc) as [[|] errors|[e1|]|e1]; reflexivity.
Qed.

(** X13: [getValidateFunctionFromUrl] hands a schema to [ajv.compile] only
    after it has fetched it from the locator it was given, and what it hands
    over is the fetched schema without its top-level [$schema]; these two
    events are then all it does. When the fetch fails or the schema is
    [null] it compiles nothing. *)
Theorem getValidateFunctionFromUrl_compiles_stripped (url : str) (schema' : json number) :
  In (EvCompile schema') (fst (getValidateFunctionFromUrl w url)) ->
  exists sub,
    net_fetch w url 5000 = FetchResponse true (Return sub)
    /\ prepare sub = Return schema'
    /\ (forall props, schema' = JObj props -> obj_get schema_key props = None)
    /\ fst (getValidateFunctionFromUrl w url) = [EvFetch url 5000; EvCompile schema'].
Proof.
  unfold getValidateFunctionFromUrl, readHttpsJsonUrl, compile, bind, emit, lift.
  destruct (net_fetch w url 5000) as [e|[|] [sub|e]];
    cbn; try solve [intuition discriminate].
  destruct (prepare sub) as [sub'|e] eqn:Eprep; cbn; [|intuition discriminate].
  destruct (ajv_compile w sub') as [validate|e]; cbn;
    (intros [H|[H|[]]]; [discriminate H|]); injection H as <-; exists sub;
    (split; [reflexivity|]); (split; [exact Eprep|]);
    (split; [exact (@prepare_no_schema _ _ _ Eprep)|reflexivity]).
Qed.

(** A run that compiles a schema has fetched it from the locator that the
    index holds for the type of the document. *)
Lemma main_compiles (schema' : json number) :
  In (EvCompile schema') (fst (main Number_toString w)) ->
  exists file jsonFile parent urls k url sub,
    readInputParameters (process_argv w) = Return file
    /\ fs_readJson w (RESOURCES_PATH ++ file) = Return jsonFile
    /\ net_fetch w PARENT_SCHEME_URL 5000 = FetchResponse true (Return parent)
    /\ findAllRefs Number_toString parent = Some urls
    /\ getJsonFileType jsonFile urls = Return k
    /\ Map_get k urls = Some url
    /\ net_fetch w url 5000 = FetchResponse true (Return sub)
    /\ prepare sub = Return schema'.
Proof.
  intros H. unfold_run_in H.
  destruct (readInputParameters (process_argv w)) as [file|e0] eqn:Eargv;
    cbn in *; [|contradiction].
  destruct (fs_readJson w (RESOURCES_PATH ++ file)) as [jsonFile|e0] eqn:Efs;
    cbn in *; [|intuition discriminate].
  destruct (net_fetch w PARENT_SCHEME_URL 5000) as [e0|[|] [parent|e0]] eqn:Eparent;
    cbn in *; try solve [intuition discriminate].
  destruct (findAllRefs_io_done Number_toString parent) as (urls & Eurls & Eio).
  rewrite Eio in *. cbn in *.
  destruct (getJsonFileType jsonFile urls) as [k|e0] eqn:Etype;
    cbn in *; [|intuition discriminate].
  destruct (Map_get k urls) as [url|] eqn:Eget;
    cbn in *; [|intuition discriminate].
  destruct (net_fetch w url 5000) as [e0|[|] [sub|e0]] eqn:Esub;
    cbn in *; try solve [intuition discriminate].
  destruct (delete_property sub schema_key) as [sub'|e0] eqn:Eprep;
    cbn in *; [|intuition discriminate].
  assert (schema' = sub').
  { destruct (ajv_compile w sub') as [validate|e0]; cbn in H.
    - destruct (delete_property jsonFile schema_key) as [doc'|e0]; cbn in H.
      + destruct (validate doc') as [[|] errors|[e1|]|e1]; cbn in H;
          intuition (try discriminate; congruence).
      + intuition (try discriminate; congruence).
    - intuition (try discriminate; congruence). }
  subst sub'. exists file, jsonFile, parent, urls, k, url, sub. auto 10.
Qed.

(** X9: whatever the run, a schema that [main] hands to [ajv.compile] is
    the schema that was fetched from the locator which the index of the
    parent schema holds for the type of the loaded document, without its
    top-level [$schema]. *)
Theorem main_compiles_stripped_schema (schema' : json number) :
  In (EvCompile schema') (fst (main Number_toString w)) ->
  (forall props, schema' = JObj props -> obj_get schema_key props = None)
  /\ exists file jsonFile parent urls k url sub,
       readInputParameters (process_argv w) = Return file
       /\ fs_readJson w (RESOURCES_PATH ++ file) = Return jsonFile
       /\ net_fetch w PARENT_SCHEME_URL 5000 = FetchResponse true (Return parent)
       /\ findAllRefs Number_toString parent = Some urls
       /\ getJsonFileType jsonFile urls = Return k
       /\ Map_get k urls = Some url
       /\ net_fetch w url 5000 = FetchResponse true (Return sub)
       /\ prepare sub = Return schema'.
Proof.
  intros H. destruct (main_compiles schema' H)
    as (file & jsonFile & parent & urls & k & url & sub
        & H1 & H2 & H3 & H4 & H5 & H6 & H7 & H8).
  split; [exact (@prepare_no_schema _ _ _ H8)|].
  exists file, jsonFile, parent, urls, k, url, sub. auto 10.
Qed.

(** X8: a run fetches nothing, or the parent schema only, or the parent
    schema and then one locator that the index of this parent schema holds,
    which is a URL [http://] or [https://] of the characters that the
    pattern accepts; each fetch is given 5000 milliseconds. *)
Theorem main_fetches :
  fetches (fst (main Number_toString w)) = []
  \/ fetches (fst (main Number_toString w)) = [(PARENT_SCHEME_URL, 5000%N)]
  \/ exists parent urls k url,
       net_fetch w PARENT_SCHEME_URL 5000 = FetchResponse true (Return parent)
       /\ findAllRefs Number_toString parent = Some urls
       /\ Map_get k urls = Some url
       /\ well_formed_url url
       /\ fetches (fst (main Number_toString w))
          = [(PARENT_SCHEME_URL, 5000%N); (url, 5000%N)].
Proof.
  unfold_run.
  destruct (readInputParameters (process_argv w)) as [file|e0] eqn:Eargv;
    cbn; [|now left].
  destruct (fs_readJson w (RESOURCES_PATH ++ file)) as [jsonFile|e0] eqn:Efs;
    cbn; [|now left].
  destruct (net_fetch w PARENT_SCHEME_URL 5000) as [e0|[|] [parent|e0]] eqn:Eparent;
    cbn; try solve [right; left; reflexivity].
  destruct (findAllRefs_io_done Number_toString parent) as (urls & Eurls & Eio).
  rewrite Eio. cbn.
  destruct (getJsonFileType jsonFile urls) as [k|e0] eqn:Etype;
    cbn; [|right; left; reflexivity].
  destruct (Map_get k urls) as [url|] eqn:Eget; cbn; [|right; left; reflexivity].
  right. right. exists parent, urls, k, url.
  destruct (@findAllRefs_entry_ref _ Number_toString parent urls k url Eurls Eget) as (Hu & _).
  repeat split; auto.
  destruct (net_fetch w url 5000) as [e0|[|] [sub|e0]]; cbn; try reflexivity.
  destruct (delete_property sub schema_key) as [sub'|e0]; cbn; try reflexivity.
  destruct (ajv_compile w sub') as [validate|e0]; cbn; try reflexivity.
  destruct (delete_property jsonFile schema_key) as [doc'|e0]; cbn; try reflexivity.
  destruct (validate doc') as [[|] errors|[e1|]|e1]; reflexivity.
Qed.

End PipelineMore.

Arguments findAllRefs : simpl never.

Ltac run_leaf :=
  unfold_run; unfold findAllRefs_io, prepare in *;
  repeat (cbn; match goal with H : ?l = _ |- context [?l] => rewrite H end);
  cbn; try reflexivity.

Section PipelineStages.

Context {number : Type} (Number_toString : number -> str).
Variable w : World number.

(** X11: when every stage up to the compiler succeeds the run reads the
    file, fetches the parent schema and then the schema of the entity,
    compiles it without its [$schema], applies the validator to the
    document without its [$schema], and ends as the validator decides. For
    a boolean it reports on [console.log] that the file is valid, or on
    [console.error] the errors, and ends without an exception; a promise is
    reported as a valid file, and its rejection, if any, ends the run after
    the report; an exception of the validator ends the run with no report. *)
Theorem main_validation_run (file : str) (jsonFile parent sub sub' : json number)
    (urls : Map) (k url : str) (validate : validateFunction number) :
  readInputParameters (process_argv w) = Return file ->
  fs_readJson w (RESOURCES_PATH ++ file) = Return jsonFile ->
  net_fetch w PARENT_SCHEME_URL 5000 = FetchResponse true (Return parent) ->
  findAllRefs Number_toString parent = Some urls ->
  getJsonFileType jsonFile urls = Return k ->
  Map_get k urls = Some url ->
  net_fetch w url 5000 = FetchResponse true (Return sub) ->
  prepare sub = Return sub' ->
  ajv_compile w sub' = Return validate ->
  exists doc,
    prepare jsonFile = Return doc
    /\ main Number_toString w
       = match validate doc with
         | Answers valid errors =>
             ([EvReadFile (RESOURCES_PATH ++ file); EvFetch PARENT_SCHEME_URL 5000;
               EvFetch url 5000; EvCompile sub'; EvValidate doc;
               if valid then EvConsoleLog (lit "The file is valid")
               else EvConsoleError (lit "Validation errors:") errors],
              Completed)
         | Promises rejection =>
             ([EvReadFile (RESOURCES_PATH ++ file); EvFetch PARENT_SCHEME_URL 5000;
               EvFetch url 5000; EvCompile sub'; EvValidate doc;
               EvConsoleLog (lit "The file is valid")],
              match rejection with
              | Some e => UnhandledRejection e
              | None => Completed
              end)
         | Raises e =>
             ([EvReadFile (RESOURCES_PATH ++ file); EvFetch PARENT_SCHEME_URL 5000;
               EvFetch url 5000; EvCompile sub'; EvValidate doc],
              UnhandledRejection e)
         end.
Proof.
  intros Hargv Hfs Hparent Hrefs Htype Hget Hsub Hprep Hcompile.
  destruct (prepare jsonFile) as [doc|e] eqn:Edoc.
  - exists doc. split; [reflexivity|].
    destruct (validate doc) as [[|] errors|[e|]|e] eqn:Evalid; run_leaf.
  - exfalso. destruct jsonFile; discriminate.
Qed.

(** X12: the exception that ends a run is the one of the first stage that
    fails, and the events of the run stop with this stage: a wrong command
    line before anything is read; an unreadable file before anything is
    fetched; a failed fetch of the parent schema, or a document without a
    single entity, after the fetch of the parent schema; a failed fetch of
    the schema of the entity, or a schema that is [null], after this second
    fetch; a schema that the compiler refuses, after the compiler was
    called. *)
Theorem main_failure_causes :
  (forall e, readInputParameters (process_argv w) = Throw e ->
     main Number_toString w = ([], UncaughtException e))
  /\ forall file, readInputParameters (process_argv w) = Return file ->
     (forall e, fs_readJson w (RESOURCES_PATH ++ file) = Throw e ->
        main Number_toString w
        = ([EvReadFile (RESOURCES_PATH ++ file)], UncaughtException e))
     /\ forall jsonFile, fs_readJson w (RESOURCES_PATH ++ file) = Return jsonFile ->
        (forall e, fetch_failure (net_fetch w PARENT_SCHEME_URL 5000) = Some e ->
           main Number_toString w
           = ([EvReadFile (RESOURCES_PATH ++ file); EvFetch PARENT_SCHEME_URL 5000],
              UnhandledRejection e))
        /\ forall parent urls,
           net_fetch w PARENT_SCHEME_URL 5000 = FetchResponse true (Return parent) ->
           findAllRefs Number_toString parent = Some urls ->
           (forall e, getJsonFileType jsonFile urls = Throw e ->
              main Number_toString w
              = ([EvReadFile (RESOURCES_PATH ++ file); EvFetch PARENT_SCHEME_URL 5000],
                 UnhandledRejection e))
           /\ forall k url,
              getJsonFileType jsonFile urls = Return k ->
              Map_get k urls = Some url ->
              (forall e, fetch_failure (net_fetch w url 5000) = Some e ->
                 main Number_toString w
                 = ([EvReadFile (RESOURCES_PATH ++ file);
                     EvFetch PARENT_SCHEME_URL 5000; EvFetch url 5000],
                    UnhandledRejection e))
              /\ forall sub,
                 net_fetch w url 5000 = FetchResponse true (Return sub) ->
                 (forall e, prepare sub = Throw e ->
                    main Number_toString w
                    = ([EvReadFile (RESOURCES_PATH ++ file);
                        EvFetch PARENT_SCHEME_URL 5000; EvFetch url 5000],
                       UnhandledRejection e))
                 /\ forall sub' e,
                    prepare sub = Return sub' ->
                    ajv_compile w sub' = Throw e ->
                    main Number_toString w
                    = ([EvReadFile (RESOURCES_PATH ++ file);
                        EvFetch PARENT_SCHEME_URL 5000; EvFetch url 5000;
                        EvCompile sub'],
                       UnhandledRejection e).
Proof.
  split; [intros e Hargv; run_leaf|].
  intros file Hargv. split; [intros e Hfs; run_leaf|].
  intros jsonFile Hfs. split.
  { intros e Hf.
    destruct (net_fetch w PARENT_SCHEME_URL 5000) as [e0|[|] [v|e0]] eqn:Eparent;
      cbn in Hf; try discriminate; injection Hf as <-; run_leaf. }
  intros parent urls Hparent Hrefs. split; [intros e Htype; run_leaf|].
  intros k url Htype Hget. split.
  { intros e Hf.
    destruct (net_fetch w url 5000) as [e0|[|] [v|e0]] eqn:Esub;
      cbn in Hf; try discriminate; injection Hf as <-; run_leaf. }
  intros sub Hsub. split; [intros e Hprep; run_leaf|].
  intros sub' e Hprep Hcompile. run_leaf.
Qed.

End PipelineStages.

(** ** The further properties on the example documents *)

Lemma findAllRefs_entries_well_formed_witness :
  well_formed_url (lit "https://x/invoice.json") /\ well_formed_key (lit "invoice")
  /\ exists p e,
       ref_span (JSON_stringify N_toString parent_example) p e
         (lit "https://x/invoice.json") (lit "invoice").
Proof.
  apply (@findAllRefs_entries_well_formed N N_toString parent_example
           parent_example_index (lit "invoice") (lit "https://x/invoice.json")).
  - vm_compute. reflexivity.
  - vm_compute. reflexivity.
Defined.

Lemma getJsonFileType_after_prepare_witness :
  getJsonFileType invoice_document_stripped Map_empty
  = getJsonFileType invoice_document Map_empty.
Proof.
  apply (@getJsonFileType_after_prepare N invoice_document invoice_document_stripped
           Map_empty).
  vm_compute. reflexivity.
Defined.

Lemma world_invalid_invoice_compiles :
  In (EvCompile invoice_schema_stripped) (fst (main N_toString world_invalid_invoice)).
Proof. vm_compute. do 3 right. left. reflexivity. Qed.

Lemma main_compiles_stripped_schema_witness :
  (forall props, invoice_schema_stripped = JObj props -> obj_get schema_key props = None)
  /\ exists file jsonFile parent urls k url sub,
       readInputParameters (process_argv world_invalid_invoice) = Return file
       /\ fs_readJson world_invalid_invoice (RESOURCES_PATH ++ file) = Return jsonFile
       /\ net_fetch world_invalid_invoice PARENT_SCHEME_URL 5000
          = FetchResponse true (Return parent)
       /\ findAllRefs N_toString parent = Some urls
       /\ getJsonFileType jsonFile urls = Return k
       /\ Map_get k urls = Some url
       /\ net_fetch world_invalid_invoice url 5000 = FetchResponse true (Return sub)
       /\ prepare sub = Return invoice_schema_stripped.
Proof.
  apply (@main_compiles_stripped_schema N N_toString world_invalid_invoice
           invoice_schema_stripped).
  exact world_invalid_invoice_compiles.
Defined.

Lemma getValidateFunctionFromUrl_compiles_stripped_witness :
  exists sub,
    net_fetch world_invalid_invoice (lit "https://x/invoice.json") 5000
    = FetchResponse true (Return sub)
    /\ prepare sub = Return invoice_schema_stripped
    /\ (forall props, invoice_schema_stripped = JObj props ->
          obj_get schema_key props = None)
    /\ fst (getValidateFunctionFromUrl world_invalid_invoice (lit "https://x/invoice.json"))
       = [EvFetch (lit "https://x/invoice.json") 5000; EvCompile invoice_schema_stripped].
Proof.
  apply (@getValidateFunctionFromUrl_compiles_stripped N world_invalid_invoice
           (lit "https://x/invoice.json") invoice_schema_stripped).
  vm_compute. right. left. reflexivity.
Defined.

Lemma main_validation_run_witness :
  exists doc,
    prepare invoice_document = Return doc
    /\ main N_toString world_invalid_invoice
       = match id_must_be_string doc with
         | Answers valid errors =>
             ([EvReadFile (RESOURCES_PATH ++ lit "invoice.json");
               EvFetch PARENT_SCHEME_URL 5000;
               EvFetch (lit "https://x/invoice.json") 5000;
               EvCompile invoice_schema_stripped; EvValidate doc;
               if valid then EvConsoleLog (lit "The file is valid")
               else EvConsoleError (lit "Validation errors:") errors],
              Completed)
         | Promises rejection =>
             ([EvReadFile (RESOURCES_PATH ++ lit "invoice.json");
               EvFetch PARENT_SCHEME_URL 5000;
               EvFetch (lit "https://x/invoice.json") 5000;
               EvCompile invoice_schema_stripped; EvValidate doc;
               EvConsoleLog (lit "The file is valid")],
              match rejection with
              | Some e => UnhandledRejection e
              | None => Completed
              end)
         | Raises e =>
             ([EvReadFile (RESOURCES_PATH ++ lit "invoice.json");
               EvFetch PARENT_SCHEME_URL 5000;
               EvFetch (lit "https://x/invoice.json") 5000;
               EvCompile invoice_schema_stripped; EvValidate doc],
              UnhandledRejection e)
         end.
Proof.
  apply (@main_validation_run N N_toString world_invalid_invoice
           (lit "invoice.json") invoice_document parent_example invoice_schema
           invoice_schema_stripped parent_example_index (lit "invoice")
           (lit "https://x/invoice.json") id_must_be_string);
    vm_compute; reflexivity.
Defined.

(** ** The index of a document, by its structure *)

Ltac unlit :=
  repeat match goal with
    | |- context [lit ?s] =>
        let v := eval vm_compute in (lit s) in change (lit s) with v
    end.

Lemma no_match_head (c : char) (T : str) :
  c <> dquote -> match_here ref_regexp (c :: T) = None.
Proof.
  intros Hc. destruct (match_here ref_regexp (c :: T)) as [res|] eqn:E; [|reflexivity].
  apply match_here_ref_starts in E as (s' & E). injection E as -> _. contradiction.
Qed.

Lemma Scans_nil : Scans [] [].
Proof.
  intros done urls [|fuel] Hf; [simpl in Hf; lia|].
  cbn [findAllRefs_loop]. rewrite RegExp_exec_at. reflexivity.
Qed.

Lemma Scans_skip (c : char) (T : str) (L : list (str * str)) :
  match_here ref_regexp (c :: T) = None -> Scans T L -> Scans (c :: T) L.
Proof.
  intros Hm HS done urls fuel Hf.
  specialize (HS (done ++ [c]) urls fuel Hf).
  replace (done ++ c :: T) with ((done ++ [c]) ++ T) by now rewrite <- app_assoc.
  rewrite <- HS. destruct fuel as [|fuel]; [reflexivity|].
  cbn [findAllRefs_loop].
  replace (RegExp_exec (mkRegExp ref_regexp (length done)) ((done ++ [c]) ++ T))
    with (RegExp_exec (mkRegExp ref_regexp (length (done ++ [c]))) ((done ++ [c]) ++ T));
    [reflexivity|].
  rewrite RegExp_exec_at. rewrite <- app_assoc. cbn [app]. rewrite RegExp_exec_at.
  rewrite (exec_from_eq ref_regexp (c :: T)), Hm.
  rewrite length_app. cbn [length]. now rewrite Nat.add_1_r.
Qed.

Lemma Scans_junk (J T : str) (L : list (str * str)) :
  (forall p, p < length J -> match_here ref_regexp (skipn p (J ++ T)) = None) ->
  Scans T L -> Scans (J ++ T) L.
Proof.
  induction J as [|c J IH]; intros Hnone HS; [exact HS|].
  cbn [app]. apply Scans_skip.
  - apply (Hnone 0). simpl. lia.
  - apply IH; [|exact HS]. intros p Hp. apply (Hnone (S p)). simpl. lia.
Qed.

Lemma Scans_match (M T : str) (L : list (str * str)) (k u : str) :
  match_here ref_regexp (M ++ T) = Some (M, [(2, k); (1, u)]) ->
  Scans T L -> Scans (M ++ T) ((k, u) :: L).
Proof.
  intros Hm HS done urls [|fuel] Hf; [simpl in Hf; lia|].
  cbn [findAllRefs_loop]. rewrite RegExp_exec_at, exec_from_eq, Hm.
  cbn [m_group m_captures capture Nat.eqb m_index m_text fold_left].
  specialize (HS (done ++ M) (Map_set k u urls) fuel).
  rewrite <- app_assoc, length_app in HS. apply HS. simpl in Hf. lia.
Qed.

Lemma Scans_plain (J T : str) (L : list (str * str)) :
  Forall (fun c => c <> dquote) J -> Scans T L -> Scans (J ++ T) L.
Proof.
  induction 1 as [|c J Hc HJ IH]; intros HS; [exact HS|].
  cbn [app]. apply Scans_skip; [now apply no_match_head|auto].
Qed.

(** The loop of [findAllRefs] on the whole text. *)
Lemma Scans_findAllRefs_text (text : str) (L : list (str * str)) :
  Scans text L -> findAllRefs_text text = Some (fold_left add_pair L Map_empty).
Proof.
  intros HS. unfold findAllRefs_text.
  destruct (@scan_refs text (S (length text)) 0)
    as (refs & Hloop & _ & Hlen & _); [lia|lia|].
  rewrite Hloop by lia.
  rewrite <- (Hloop (S (length refs + length L)) Map_empty) by lia.
  apply (HS [] Map_empty). lia.
Qed.

(** *** Quoted strings *)

Lemma safe_char_spec (c : char) :
  safe_char c = true ->
  c <> dquote /\ c <> backslash /\ is_leading_surrogate c = false
  /\ is_trailing_surrogate c = false /\ N.ltb c 32 = false.
Proof.
  unfold safe_char. rewrite !andb_true_iff, !negb_true_iff, !N.eqb_neq. tauto.
Qed.

(** The text of the first code unit, or pair of code units, of a string. *)
Lemma quote_body_cases (c : char) (s : str) :
  (safe_char c = true /\ quote_body (c :: s) = c :: quote_body s)
  \/ (c = dquote /\ quote_body (c :: s) = backslash :: dquote :: quote_body s)
  \/ (safe_char c = false
      /\ exists e, quote_body (c :: s) = backslash :: e ++ quote_body s
                   /\ Forall (fun x => x <> dquote) e)
  \/ (exists d s', s = d :: s' /\ is_leading_surrogate c = true
                   /\ is_trailing_surrogate d = true
                   /\ quote_body (c :: s) = c :: d :: quote_body s').
Proof.
  assert (Hhex : forall n, hex_digit n <> dquote).
  { intros n. apply N.eqb_neq. apply hex_digit_plain. }
  assert (Huni : forall x, exists e, UnicodeEscape x = backslash :: e
                                     /\ Forall (fun x => x <> dquote) e).
  { intros x. eexists. split; [reflexivity|]. repeat constructor; auto. discriminate. }
  cbn [quote_body]. destruct (is_leading_surrogate c) eqn:El.
  - assert (Hunsafe : safe_char c = false).
    { unfold safe_char. rewrite El. cbn. now rewrite andb_false_r. }
    destruct s as [|d s'].
    + right. right. left. split; [exact Hunsafe|].
      destruct (Huni c) as (e & -> & He). exists e. now rewrite app_nil_r.
    + destruct (is_trailing_surrogate d) eqn:Et.
      * right. right. right. exists d, s'. auto.
      * right. right. left. split; [exact Hunsafe|].
        destruct (Huni c) as (e & -> & He). exists e. auto.
  - unfold quote_unit.
    destruct (N.eqb_spec c 8) as [->|H8].
    { right. right. left. split; [reflexivity|]. exists [98%N]. split; [reflexivity|].
      repeat constructor. discriminate. }
    destruct (N.eqb_spec c 9) as [->|H9].
    { right. right. left. split; [reflexivity|]. exists [116%N]. split; [reflexivity|].
      repeat constructor. discriminate. }
    destruct (N.eqb_spec c 10) as [->|H10].
    { right. right. left. split; [reflexivity|]. exists [110%N]. split; [reflexivity|].
      repeat constructor. discriminate. }
    destruct (N.eqb_spec c 12) as [->|H12].
    { right. right. left. split; [reflexivity|]. exists [102%N]. split; [reflexivity|].
      repeat constructor. discriminate. }
    destruct (N.eqb_spec c 13) as [->|H13].
    { right. right. left. split; [reflexivity|]. exists [114%N]. split; [reflexivity|].
      repeat constructor. discriminate. }
    destruct (N.eqb_spec c dquote) as [->|Hq].
    { right. left. split; reflexivity. }
    destruct (N.eqb_spec c backslash) as [->|Hb].
    { right. right. left. split; [reflexivity|]. exists [backslash]. split; [reflexivity|].
      repeat constructor. discriminate. }
    rewrite El. cbn [orb].
    destruct (N.ltb c 32) eqn:E32; cbn [orb].
    { right. right. left. split.
      - unfold safe_char. now rewrite E32.
      - destruct (Huni c) as (e & -> & He). exists e. auto. }
    destruct (is_trailing_surrogate c) eqn:Et.
    { right. right. left. split.
      - unfold safe_char. rewrite Et. cbn. now rewrite andb_false_r.
      - destruct (Huni c) as (e & -> & He). exists e. auto. }
    left. split; [|reflexivity].
    unfold safe_char. rewrite E32, El, Et.
    apply N.eqb_neq in Hq, Hb. now rewrite Hq, Hb.
Qed.

Lemma quotes_escaped_app (e B : str) :
  Forall (fun x => x <> dquote) e ->
  (forall prev, quotes_escaped prev B = true) ->
  forall prev, quotes_escaped prev (e ++ B) = true.
Proof.
  induction 1 as [|x e Hx He IH]; intros HB prev; [apply HB|].
  cbn [app quotes_escaped]. apply N.eqb_neq in Hx. rewrite Hx. cbn. now apply IH.
Qed.

Lemma quotes_escaped_quote_body (n : nat) :
  forall s prev, length s <= n -> quotes_escaped prev (quote_body s) = true.
Proof.
  induction n as [|n IH]; intros s prev Hn.
  - destruct s; [reflexivity|simpl in Hn; lia].
  - destruct s as [|c s]; [reflexivity|]. simpl in Hn.
    destruct (quote_body_cases c s)
      as [[Hc ->]|[[-> ->]|[(_ & e & -> & He)|(d & s' & -> & Hl & Ht & ->)]]].
    + apply (@quotes_escaped_app [c]).
      * constructor; [|constructor]. now apply safe_char_spec.
      * intros p. apply IH. lia.
    + cbn. apply IH. lia.
    + apply (@quotes_escaped_app (backslash :: e)).
      * constructor; [discriminate|exact He].
      * intros p. apply IH. lia.
    + apply (@quotes_escaped_app [c; d]).
      * destruct (surrogate_plain c) as [_ Hc]; [now rewrite Hl|].
        destruct (surrogate_plain d) as [_ Hd]; [rewrite Ht; apply orb_true_r|].
        apply N.eqb_neq in Hc, Hd. repeat constructor; assumption.
      * intros p. apply IH. simpl in Hn. lia.
Qed.

Lemma quotes_escaped_skipn (B : str) :
  forall prev p b B',
    quotes_escaped prev B = true -> skipn p B = b :: B' ->
    quotes_escaped b B' = true.
Proof.
  induction B as [|c B IH]; intros prev p b B' H E.
  - rewrite skipn_nil in E. discriminate.
  - cbn [quotes_escaped] in H. apply andb_true_iff in H as [_ H].
    destruct p as [|p]; cbn [skipn] in E.
    + now injection E as <- <-.
    + eapply IH; eauto.
Qed.

(** In a text where every double quote follows a backslash, the first
    double quote after characters that are neither a double quote nor a
    backslash is the one that ends the text. *)
Lemma first_quote (B : str) :
  forall prev t X Y,
    prev <> backslash -> quotes_escaped prev B = true ->
    Forall (fun c => c <> dquote /\ c <> backslash) t ->
    B ++ dquote :: X = t ++ dquote :: Y ->
    B = t /\ X = Y.
Proof.
  induction B as [|b B IH]; intros prev t X Y Hprev HB Ht E.
  - destruct t as [|x t]; cbn [app] in E.
    + now injection E as ->.
    + injection E as <- _. inversion Ht as [|? ? [Hx _] _]. contradiction.
  - cbn [quotes_escaped] in HB. apply andb_true_iff in HB as [Hb HB].
    destruct t as [|x t]; cbn [app] in E.
    + injection E as -> _. apply N.eqb_neq in Hprev. rewrite Hprev in Hb. discriminate.
    + injection E as -> E. inversion Ht as [|? ? [_ Hx] Ht']; subst.
      destruct (IH x t X Y Hx HB Ht' E) as [-> ->]. auto.
Qed.

Lemma safe_plain (t : str) :
  forallb safe_char t = true -> Forall (fun c => c <> dquote /\ c <> backslash) t.
Proof.
  intros H. apply Forall_forall. intros c Hc.
  rewrite forallb_forall in H. specialize (H c Hc).
  apply safe_char_spec in H. tauto.
Qed.

(** A string whose text has no escape is this text. *)
Lemma quote_body_safe_inv (n : nat) :
  forall s t, length s <= n ->
    quote_body s = t -> forallb safe_char t = true -> s = t.
Proof.
  induction n as [|n IH]; intros s t Hn E Ht.
  - destruct s; [now subst|simpl in Hn; lia].
  - destruct s as [|c s]; [now subst|]. simpl in Hn.
    destruct (quote_body_cases c s)
      as [[Hc E']|[[-> E']|[(_ & e & E' & He)|(d & s' & -> & Hl & Htr & E')]]];
      rewrite E' in E; subst t; cbn [forallb] in Ht.
    + apply andb_true_iff in Ht as [_ Ht]. f_equal. apply IH; auto. lia.
    + discriminate.
    + discriminate.
    + apply andb_true_iff in Ht as [Hc _]. apply safe_char_spec in Hc.
      destruct Hc as (_ & _ & Hc & _). congruence.
Qed.

(** A text that ends with a double quote and characters that need no
    escape is the text of a string that ends in the same way. *)
Lemma quote_body_suffix (n : nat) :
  forall k B0 t, length k <= n ->
    quote_body k = B0 ++ dquote :: t -> forallb safe_char t = true ->
    exists k0, k = k0 ++ dquote :: t.
Proof.
  induction n as [|n IH]; intros k B0 t Hn E Ht.
  - destruct k; [|simpl in Hn; lia]. destruct B0; discriminate.
  - destruct k as [|c k]; [destruct B0; discriminate|]. simpl in Hn.
    destruct (quote_body_cases c k)
      as [[Hc E']|[[-> E']|[(_ & e & E' & He)|(d & s' & -> & Hl & Htr & E')]]];
      rewrite E' in E.
    + destruct B0 as [|b B0]; cbn [app] in E.
      * injection E as -> _. now apply safe_char_spec in Hc.
      * injection E as _ E. destruct (IH k B0 t) as (k0 & ->); auto; [lia|].
        now exists (c :: k0).
    + destruct B0 as [|b [|b' B0]]; cbn [app] in E; [discriminate| |].
      * injection E as _ E. exists [].
        cbn [app]. f_equal. eapply quote_body_safe_inv; eauto.
      * injection E as _ _ E. destruct (IH k B0 t) as (k0 & ->); auto; [lia|].
        now exists (dquote :: k0).
    + change (backslash :: e ++ quote_body k) with ((backslash :: e) ++ quote_body k) in E.
      apply app_eq_app in E as (l & [[E1 E2]|[E1 E2]]).
      * destruct l as [|x l].
        -- cbn [app] in E2. destruct (IH k [] t) as (k0 & ->); auto; [lia|].
           now exists (c :: k0).
        -- cbn [app] in E2. injection E2 as <- _. exfalso.
           assert (Hin : In dquote (backslash :: e)).
           { rewrite E1. apply in_or_app. right. now left. }
           destruct Hin as [Hin|Hin]; [discriminate|].
           rewrite Forall_forall in He. now apply (He dquote).
      * destruct (IH k l t) as (k0 & ->); auto; [lia|].
        now exists (c :: k0).
    + destruct (surrogate_plain c) as [_ Hcq]; [now rewrite Hl|].
      destruct (surrogate_plain d) as [_ Hdq]; [rewrite Htr; apply orb_true_r|].
      apply N.eqb_neq in Hcq, Hdq.
      destruct B0 as [|b [|b' B0]]; cbn [app] in E.
      * injection E as -> _. contradiction.
      * injection E as _ -> _. contradiction.
      * injection E as _ _ E. simpl in Hn.
        destruct (IH s' B0 t) as (k0 & ->); auto; [lia|].
        now exists (c :: d :: k0).
Qed.

Lemma quote_body_app (n : nat) :
  forall a b, length a <= n ->
    match b with d :: _ => is_trailing_surrogate d = false | [] => True end ->
    quote_body (a ++ b) = quote_body a ++ quote_body b.
Proof.
  induction n as [|n IH]; intros a b Hn Hb.
  - destruct a; [reflexivity|simpl in Hn; lia].
  - destruct a as [|c a]; [reflexivity|]. simpl in Hn.
    cbn [app quote_body]. destruct (is_leading_surrogate c) eqn:El.
    + destruct a as [|d a].
      * cbn [app]. destruct b as [|d b]; [now rewrite app_nil_r|]. now rewrite Hb.
      * cbn [app]. destruct (is_trailing_surrogate d).
        -- cbn [app]. do 2 f_equal. apply IH; auto. simpl in Hn. lia.
        -- rewrite <- app_assoc. f_equal. apply (IH (d :: a) b); auto. lia.
    + rewrite <- app_assoc. f_equal. apply IH; auto. lia.
Qed.

Lemma ends_with_spec (suffix s : str) :
  ends_with suffix s = true <-> exists pre, s = pre ++ suffix.
Proof.
  unfold ends_with. rewrite str_eqb_eq. split.
  - intros E. exists (firstn (length s - length suffix) s).
    rewrite <- (firstn_skipn (length s - length suffix) s) at 1. now f_equal.
  - intros (pre & ->). rewrite length_app.
    replace (length pre + length suffix - length suffix) with (length pre) by lia.
    apply skipn_length_app.
Qed.

Lemma is_ref_key_spec (name : str) :
  is_ref_key name = true
  <-> name = lit "$ref" \/ exists pre, name = pre ++ dquote :: lit "$ref".
Proof.
  unfold is_ref_key. now rewrite orb_true_iff, str_eqb_eq, ends_with_spec.
Qed.

(** The text of a name that makes a reference ends with ["$ref"]. *)
Lemma is_ref_key_text (name : str) :
  is_ref_key name = true ->
  exists J, QuoteJSONString name = J ++ dquote :: lit "$ref" ++ [dquote].
Proof.
  intros H. apply is_ref_key_spec in H as [->|(pre & ->)].
  - exists []. reflexivity.
  - exists (dquote :: quote_body pre ++ [backslash]). unfold QuoteJSONString.
    rewrite (@quote_body_app (length pre)) by (auto; reflexivity).
    unlit. cbn. rewrite <- !app_assoc. reflexivity.
Qed.

Lemma text_is_ref_key (name : str) (p : nat) :
  skipn p (QuoteJSONString name) = dquote :: lit "$ref" ++ [dquote] ->
  is_ref_key name = true.
Proof.
  unfold QuoteJSONString. intros E. apply is_ref_key_spec.
  destruct p as [|p]; cbn [skipn] in E.
  - left. injection E as E.
    change (quote_body name ++ [dquote] = lit "$ref" ++ [dquote]) in E.
    apply app_inj_tail in E as [E _].
    apply (@quote_body_safe_inv (length name)); auto.
  - right.
    destruct (Nat.le_gt_cases p (length (quote_body name))) as [Hp|Hp].
    + rewrite skipn_app in E.
      replace (p - length (quote_body name)) with 0 in E by lia. cbn [skipn] in E.
      change (dquote :: lit "$ref" ++ [dquote]) with ((dquote :: lit "$ref") ++ [dquote]) in E.
      apply app_inj_tail in E as [E _].
      apply (@quote_body_suffix (length name) name (firstn p (quote_body name)));
        auto.
      rewrite <- E. now rewrite firstn_skipn.
    + rewrite skipn_all2 in E; [discriminate|]. rewrite length_app. simpl. lia.
Qed.

(** A match of the pattern that starts inside the text of a string starts
    where this text ends with ["$ref"], and goes on after it. *)
Lemma quoted_match (s X : str) (p : nat) res :
  hd_error X <> Some dollar ->
  p < length (QuoteJSONString s) ->
  match_here ref_regexp (skipn p (QuoteJSONString s ++ X)) = Some res ->
  skipn p (QuoteJSONString s) = dquote :: lit "$ref" ++ [dquote]
  /\ exists ws1 ws2 u k rest,
       X = ws1 ++ lit ":" ++ ws2 ++ dquote :: u ++ lit "#/properties/" ++ k ++ dquote :: rest
       /\ spaces ws1 /\ spaces ws2 /\ well_formed_url u /\ well_formed_key k.
Proof.
  intros HX Hp Hm. destruct res as [t caps].
  apply match_here_ref_iff in Hm
    as (ws1 & ws2 & u & k & rest & E & _ & _ & Hs1 & Hs2 & Hu & Hk).
  set (Y := ws1 ++ lit ":" ++ ws2 ++ dquote :: u ++ lit "#/properties/" ++ k
            ++ dquote :: rest).
  assert (EY : ref_pattern ws1 ws2 u k ++ rest = dquote :: lit "$ref" ++ dquote :: Y).
  { unfold ref_pattern, Y. cbn [app]. repeat (rewrite <- app_assoc; cbn [app]).
    reflexivity. }
  rewrite EY in E. clear EY.
  assert (Hbody : forall prev, quotes_escaped prev (quote_body s) = true).
  { intros prev. apply (@quotes_escaped_quote_body (length s)). lia. }
  assert (Href : Forall (fun c => c <> dquote /\ c <> backslash) (lit "$ref")).
  { repeat constructor; discriminate. }
  assert (Hgoal : skipn p (QuoteJSONString s) = dquote :: lit "$ref" ++ [dquote] /\ X = Y).
  { unfold QuoteJSONString in *. cbn [app] in E. rewrite <- app_assoc in E.
    cbn [app] in E. cbn [length] in Hp. rewrite length_app in Hp. cbn [length] in Hp.
    destruct p as [|p]; cbn [skipn] in E |- *.
    - injection E as E.
      destruct (@first_quote (quote_body s) dquote (lit "$ref") X Y) as [-> ->]; auto.
      discriminate.
    - destruct (Nat.eq_dec p (length (quote_body s))) as [->|Hne].
      + rewrite skipn_length_app in E. injection E as E. exfalso. apply HX.
        rewrite E. reflexivity.
      + rewrite skipn_app in E.
        replace (p - length (quote_body s)) with 0 in E by lia. cbn [skipn] in E.
        destruct (skipn p (quote_body s)) as [|b B'] eqn:Eskip.
        { exfalso. apply (f_equal (@length char)) in Eskip.
          rewrite length_skipn in Eskip. simpl in Eskip. lia. }
        cbn [app] in E. injection E as -> E.
        pose proof (@quotes_escaped_skipn _ dquote p _ _ (Hbody dquote) Eskip) as HB'.
        destruct (@first_quote B' dquote (lit "$ref") X Y) as [-> ->]; auto;
          [discriminate|].
        rewrite skipn_app, Eskip.
        replace (p - length (quote_body s)) with 0 by lia. split; reflexivity. }
  destruct Hgoal as [E1 ->]. split; [exact E1|].
  exists ws1, ws2, u, k, rest. auto.
Qed.

(** A match of the pattern starts with a double quote, the next one has
    white space or a colon before it. *)
Lemma rest_ok_no_colon (rest ws1 Z : str) :
  rest_ok rest -> spaces ws1 -> rest = ws1 ++ lit ":" ++ Z -> False.
Proof.
  intros Hrest Hs E. destruct ws1 as [|w ws1]; subst rest; cbn in Hrest.
  - destruct Hrest as [Hc|[Hc|Hc]]; discriminate.
  - inversion Hs as [|? ? Hw _]. destruct Hrest as [Hc|[Hc|Hc]]; subst w; discriminate.
Qed.

Lemma rest_ok_head (rest : str) : rest_ok rest -> hd_error rest <> Some dollar.
Proof.
  destruct rest as [|c rest]; cbn; [discriminate|].
  intros [H|[H|H]]; subst c; discriminate.
Qed.

(** No match of the pattern starts in the text of a string that is a value. *)
Lemma string_value_junk (s rest : str) (p : nat) :
  rest_ok rest -> p < length (QuoteJSONString s) ->
  match_here ref_regexp (skipn p (QuoteJSONString s ++ rest)) = None.
Proof.
  intros Hrest Hp.
  destruct (match_here ref_regexp (skipn p (QuoteJSONString s ++ rest))) as [res|] eqn:E;
    [exfalso|reflexivity].
  apply quoted_match in E as (_ & ws1 & ws2 & u & k & rest' & E & Hs1 & _); auto.
  - eapply rest_ok_no_colon; eauto.
  - now apply rest_ok_head.
Qed.

(** *** The target of a reference *)

Lemma strip_prefix_spec (p s r : str) : strip_prefix p s = Some r <-> s = p ++ r.
Proof.
  revert s. induction p as [|x p IH]; intros s; cbn [strip_prefix app].
  - split; [now intros [= ->]|now intros ->].
  - destruct s as [|y s]; [split; discriminate|].
    destruct (N.eqb_spec x y) as [->|Hne].
    + rewrite IH. split; [now intros ->|now intros [= ->]].
    + split; [discriminate|]. intros [= -> _]. contradiction.
Qed.

Lemma span_spec (f : char -> bool) (s : str) :
  s = fst (span f s) ++ snd (span f s) /\ forallb f (fst (span f s)) = true.
Proof.
  induction s as [|c s [IH1 IH2]]; [split; reflexivity|].
  cbn [span]. destruct (f c) eqn:E; cbn [fst snd app forallb].
  - rewrite E, IH2. split; [now f_equal|reflexivity].
  - split; reflexivity.
Qed.

Lemma span_app (f : char -> bool) (a b : str) :
  forallb f a = true ->
  match b with c :: _ => f c = false | [] => True end ->
  span f (a ++ b) = (a, b).
Proof.
  intros Ha Hb. induction a as [|c a IH]; cbn [app].
  - destruct b as [|c b]; [reflexivity|]. cbn [span]. now rewrite Hb.
  - cbn [forallb] in Ha. apply andb_true_iff in Ha as [Hc Ha].
    cbn [span]. rewrite Hc, IH by assumption. reflexivity.
Qed.

Lemma forallb_all_match (a : atom) (t : str) :
  all_match a t -> forallb (atom_matches a) t = true.
Proof. intros H. apply forallb_forall. now apply Forall_forall. Qed.

Lemma ref_target_spec (s k u : str) :
  ref_target s = Some (k, u)
  <-> s = u ++ lit "#/properties/" ++ k /\ well_formed_url u /\ well_formed_key k.
Proof.
  unfold ref_target. split.
  - set (scheme_of := match strip_prefix (lit "https://") s with
                      | Some r => Some (lit "https://", r)
                      | None => match strip_prefix (lit "http://") s with
                                | Some r => Some (lit "http://", r)
                                | None => None
                                end
                      end).
    assert (Hscheme : forall scheme r, scheme_of = Some (scheme, r) ->
              s = scheme ++ r /\ (scheme = lit "http://" \/ scheme = lit "https://")).
    { unfold scheme_of. intros scheme r.
      destruct (strip_prefix (lit "https://") s) as [r1|] eqn:E1.
      - intros [= <- <-]. apply strip_prefix_spec in E1. auto.
      - destruct (strip_prefix (lit "http://") s) as [r2|] eqn:E2; [|discriminate].
        intros [= <- <-]. apply strip_prefix_spec in E2. auto. }
    destruct scheme_of as [[scheme r]|]; [|discriminate].
    destruct (Hscheme scheme r eq_refl) as [-> Hsch].
    destruct (span_spec (atom_matches url_class) r) as [Er Hbody].
    destruct (fst (span (atom_matches url_class) r)) as [|b body] eqn:Ebody; [discriminate|].
    destruct (strip_prefix (lit "#/properties/") (snd (span (atom_matches url_class) r)))
      as [[|c key]|] eqn:Ekey; try discriminate.
    destruct (forallb (atom_matches key_class) (c :: key)) eqn:Hkey; [|discriminate].
    intros [= <- <-]. apply strip_prefix_spec in Ekey. rewrite Ekey in Er.
    split; [|split].
    + rewrite <- app_assoc. now f_equal.
    + exists (b :: body). split; [destruct Hsch as [-> | ->]; auto|].
      split; [discriminate|].
      now apply all_match_forallb.
    + split; [discriminate|]. now apply all_match_forallb.
  - intros (-> & (body & Hu & Hne & Hbody) & (Hk & Hkey)).
    assert (Espan : span (atom_matches url_class) (body ++ lit "#/properties/" ++ k)
                    = (body, lit "#/properties/" ++ k)).
    { apply span_app; [now apply forallb_all_match|reflexivity]. }
    assert (Ekey : strip_prefix (lit "#/properties/") (lit "#/properties/" ++ k) = Some k).
    { now apply strip_prefix_spec. }
    assert (Etail : forall scheme, match fst (span (atom_matches url_class) (body ++ lit "#/properties/" ++ k)),
                          strip_prefix (lit "#/properties/")
                            (snd (span (atom_matches url_class)
                                    (body ++ lit "#/properties/" ++ k))) with
                    | _ :: _, Some (c :: key) =>
                        if forallb (atom_matches key_class) (c :: key)
                        then Some (c :: key,
                                   scheme ++ fst (span (atom_matches url_class)
                                                    (body ++ lit "#/properties/" ++ k)))
                        else None
                    | _, _ => None
                    end = Some (k, scheme ++ body)).
    { intros scheme. rewrite Espan. cbn [fst snd]. rewrite Ekey.
      destruct body as [|b body]; [contradiction|].
      destruct k as [|c k]; [contradiction|].
      now rewrite (forallb_all_match Hkey). }
    destruct Hu as [-> | ->]; rewrite <- !app_assoc.
    + replace (strip_prefix (lit "https://") (lit "http://" ++ body ++ lit "#/properties/" ++ k))
        with (@None str) by reflexivity.
      replace (strip_prefix (lit "http://") (lit "http://" ++ body ++ lit "#/properties/" ++ k))
        with (Some (body ++ lit "#/properties/" ++ k))
        by (symmetry; now apply strip_prefix_spec).
      apply Etail.
    + replace (strip_prefix (lit "https://") (lit "https://" ++ body ++ lit "#/properties/" ++ k))
        with (Some (body ++ lit "#/properties/" ++ k))
        by (symmetry; now apply strip_prefix_spec).
      apply Etail.
Qed.

(** *** Values *)

Lemma plain_no_quote (A rest ws Y : str) :
  Forall (fun c => c <> dquote) A -> rest_ok rest -> spaces ws ->
  A ++ rest = ws ++ dquote :: Y -> False.
Proof.
  intros HA Hrest. revert ws. induction HA as [|a A Ha HA IH]; intros ws Hs E.
  - cbn [app] in E. subst rest. destruct ws as [|w ws]; cbn in Hrest.
    + destruct Hrest as [Hc|[Hc|Hc]]; discriminate.
    + inversion Hs as [|? ? Hw _]. destruct Hrest as [Hc|[Hc|Hc]]; subst w; discriminate.
  - destruct ws as [|w ws]; cbn [app] in E.
    + injection E as -> _. contradiction.
    + injection E as _ E. inversion Hs; subst. eauto.
Qed.

Section Values.

Context {number : Type} (Number_toString : number -> str).

Hypothesis number_text_unquoted :
  forall n, Forall (fun c => c <> dquote) (Number_toString n).

(** What follows ["$ref":] in a match of the pattern is a string value, the
    target of a reference. *)
Lemma value_is_target (v : json number) (rest ws u k rest' : str) :
  rest_ok rest -> spaces ws -> well_formed_url u -> well_formed_key k ->
  JSON_stringify Number_toString v ++ rest
  = ws ++ dquote :: u ++ lit "#/properties/" ++ k ++ dquote :: rest' ->
  v = JStr (u ++ lit "#/properties/" ++ k).
Proof.
  intros Hrest Hs Hu Hk E.
  assert (Hplain : forall A, Forall (fun c => c <> dquote) A ->
            JSON_stringify Number_toString v = A -> False).
  { intros A HA EA. rewrite EA in E. eapply plain_no_quote; eauto. }
  assert (Hhead : forall c Z, JSON_stringify Number_toString v = c :: Z ->
            c <> dquote -> atom_matches space_class c = false -> False).
  { intros c Z EZ Hc Hsp. rewrite EZ in E. destruct ws as [|w ws]; cbn [app] in E.
    - injection E as -> _. contradiction.
    - injection E as -> _. inversion Hs as [|? ? Hw _]. congruence. }
  destruct v as [| [|] |n|s|items|props]; cbn [JSON_stringify] in *.
  - exfalso. apply (Hplain (lit "null")); [|reflexivity]. repeat constructor; discriminate.
  - exfalso. apply (Hplain (lit "true")); [|reflexivity]. repeat constructor; discriminate.
  - exfalso. apply (Hplain (lit "false")); [|reflexivity]. repeat constructor; discriminate.
  - exfalso. apply (Hplain (Number_toString n)); auto.
  - f_equal. destruct ws as [|w ws]; cbn [app] in E.
    + unfold QuoteJSONString in E. cbn [app] in E. injection E as E.
      rewrite <- app_assoc in E. cbn [app] in E.
      assert (Hsafe : forallb safe_char (u ++ lit "#/properties/" ++ k) = true).
      { destruct Hu as (body & Hu & _ & Hbody). destruct Hk as [_ Hk].
        destruct (@all_match_safe url_class body (or_introl eq_refl) Hbody) as [Hb _].
        destruct (@all_match_safe key_class k (or_intror eq_refl) Hk) as [Hk' _].
        rewrite !forallb_app, Hk'. destruct Hu as [-> | ->]; now rewrite forallb_app, Hb. }
      assert (E' : quote_body s ++ dquote :: rest
                   = (u ++ lit "#/properties/" ++ k) ++ dquote :: rest').
      { rewrite E, <- !app_assoc. reflexivity. }
      clear E. rename E' into E.
      apply (@first_quote _ dquote) in E as [E _];
        [|discriminate|apply (@quotes_escaped_quote_body (length s)); lia
         |now apply safe_plain].
      apply (@quote_body_safe_inv (length s)); auto.
    + exfalso. unfold QuoteJSONString in E. cbn [app] in E. injection E as <- _.
      inversion Hs as [|? ? Hw _]. discriminate.
  - exfalso. apply (Hhead 91%N (join (lit ",") (map (JSON_stringify Number_toString) items)
                                  ++ lit "]")); [reflexivity|discriminate|reflexivity].
  - exfalso.
    eapply (Hhead 123%N); [reflexivity|discriminate|reflexivity].
Qed.

End Values.

(** *** Arrays and objects *)

Lemma Scans_join (parts : list (str * list (str * str))) :
  Forall (fun tr => Scans_value (fst tr) (snd tr)) parts ->
  forall c rest L, c = 93%N \/ c = 125%N -> Scans (c :: rest) L ->
    Scans (join (lit ",") (map fst parts) ++ c :: rest) (flat_map snd parts ++ L).
Proof.
  induction 1 as [|[t R] parts Hp Hparts IH]; intros c rest L Hc HS; [exact HS|].
  cbn [map flat_map fst snd] in *. rewrite join_cons, <- !app_assoc.
  apply Hp.
  - destruct parts as [|q parts]; cbn; [tauto|]. now left.
  - destruct parts as [|q parts]; [exact HS|].
    change (lit ",") with [44%N]. cbn [app].
    apply Scans_skip; [now apply no_match_head|]. now apply IH.
Qed.

Lemma Scans_brackets (parts : list (str * list (str * str))) (o c : char) :
  o <> dquote -> c = 93%N \/ c = 125%N ->
  Forall (fun tr => Scans_value (fst tr) (snd tr)) parts ->
  Scans_value (o :: join (lit ",") (map fst parts) ++ [c]) (flat_map snd parts).
Proof.
  intros Ho Hc Hparts rest L Hrest HS. cbn [app]. rewrite <- app_assoc. cbn [app].
  apply Scans_skip; [now apply no_match_head|].
  apply Scans_join; auto.
  apply Scans_skip; [|exact HS]. apply no_match_head.
  destruct Hc as [-> | ->]; discriminate.
Qed.

Lemma Scans_brackets_map {A : Type} (f : A -> str) (g : A -> list (str * str))
    (l : list A) (o c : char) :
  o <> dquote -> c = 93%N \/ c = 125%N ->
  Forall (fun x => Scans_value (f x) (g x)) l ->
  Scans_value (o :: join (lit ",") (map f l) ++ [c]) (flat_map g l).
Proof.
  intros Ho Hc Hl.
  assert (E : map fst (map (fun x => (f x, g x)) l) = map f l
              /\ flat_map snd (map (fun x => (f x, g x)) l) = flat_map g l).
  { clear. induction l as [|a l [IH1 IH2]]; [split; reflexivity|].
    cbn [map flat_map fst snd]. now rewrite IH1, IH2. }
  destruct E as [<- <-]. apply Scans_brackets; auto.
  apply Forall_map. exact Hl.
Qed.

Section Structure.

Context {number : Type} (Number_toString : number -> str).

Hypothesis number_text_unquoted :
  forall n, Forall (fun c => c <> dquote) (Number_toString n).

(** A property of an object: its reference if it makes one, the references
    of its value if not. *)
Lemma Scans_member (name : str) (v : json number) :
  Scans_value (JSON_stringify Number_toString v) (refs_of v) ->
  Scans_value (QuoteJSONString name ++ lit ":" ++ JSON_stringify Number_toString v)
    (match member_ref (name, v) with Some ku => [ku] | None => refs_of v end).
Proof.
  intros IH rest L Hrest HS.
  destruct (member_ref (name, v)) as [[k u]|] eqn:Em.
  - unfold member_ref in Em. cbn [fst snd] in Em.
    destruct v as [| | |s| |]; try discriminate.
    destruct (is_ref_key name) eqn:Ekey; [|discriminate].
    apply ref_target_spec in Em as (-> & Hu & Hk).
    destruct (is_ref_key_text name Ekey) as (J & EJ).
    assert (Hsafe : forallb safe_char (u ++ lit "#/properties/" ++ k) = true).
    { destruct Hu as (body & Hu & _ & Hbody). destruct Hk as [_ Hk].
      destruct (@all_match_safe url_class body (or_introl eq_refl) Hbody) as [Hb _].
      destruct (@all_match_safe key_class k (or_intror eq_refl) Hk) as [Hk' _].
      rewrite !forallb_app, Hk'. destruct Hu as [-> | ->]; now rewrite forallb_app, Hb. }
    assert (Etext : (QuoteJSONString name ++ lit ":"
                     ++ JSON_stringify Number_toString (JStr (u ++ lit "#/properties/" ++ k)))
                    ++ rest
                    = J ++ ref_pattern [] [] u k ++ rest).
    { cbn [JSON_stringify]. rewrite EJ. unfold QuoteJSONString.
      rewrite (quote_body_safe _ Hsafe). unfold ref_pattern.
      cbn [app]. repeat (rewrite <- app_assoc; cbn [app]). reflexivity. }
    assert (Hlen : length (QuoteJSONString name) = length J + 6).
    { rewrite EJ, length_app. reflexivity. }
    cbn [app]. rewrite Etext. apply Scans_junk.
    + intros p Hp.
      destruct (match_here ref_regexp (skipn p (J ++ ref_pattern [] [] u k ++ rest)))
        as [res|] eqn:E; [exfalso|reflexivity].
      rewrite <- Etext, <- app_assoc in E.
      apply quoted_match in E as [E _]; [|discriminate|lia].
      apply (f_equal (@length char)) in E. rewrite length_skipn in E.
      change (length (dquote :: lit "$ref" ++ [dquote])) with 6 in E. lia.
    + apply Scans_match; [|exact HS]. apply match_here_ref_iff.
      exists [], [], u, k, rest.
      split; [reflexivity|]. split; [reflexivity|]. split; [reflexivity|].
      split; [apply Forall_nil|]. split; [apply Forall_nil|]. split; assumption.
  - rewrite <- !app_assoc.
    replace (QuoteJSONString name ++ lit ":" ++ JSON_stringify Number_toString v ++ rest)
      with ((QuoteJSONString name ++ lit ":") ++ JSON_stringify Number_toString v ++ rest)
      by now rewrite <- app_assoc.
    apply Scans_junk; [|now apply IH].
    intros p Hp. rewrite length_app in Hp. change (length (lit ":")) with 1 in Hp.
    rewrite <- app_assoc.
    destruct (Nat.eq_dec p (length (QuoteJSONString name))) as [->|Hne].
    + rewrite skipn_length_app. now apply no_match_head.
    + destruct (match_here ref_regexp
                  (skipn p (QuoteJSONString name ++ lit ":"
                            ++ JSON_stringify Number_toString v ++ rest)))
        as [res|] eqn:E; [exfalso|reflexivity].
      apply quoted_match in E as (Ename & ws1 & ws2 & u & k & rest' & E & Hs1 & Hs2 & Hu & Hk);
        [|discriminate|lia].
      apply text_is_ref_key in Ename.
      destruct ws1 as [|w ws1]; cbn [app] in E.
      * injection E as E.
        apply (@value_is_target _ Number_toString number_text_unquoted) in E; auto.
        subst v. unfold member_ref in Em. cbn [fst snd] in Em. rewrite Ename in Em.
        assert (Ht : ref_target (u ++ lit "#/properties/" ++ k) = Some (k, u)).
        { apply ref_target_spec. auto. }
        congruence.
      * injection E as <- _. inversion Hs1 as [|? ? Hw _]. discriminate.
Qed.

(** The loop on the text of a value sets the references of the value. *)
Lemma refs_scan (v : json number) :
  Scans_value (JSON_stringify Number_toString v) (refs_of v).
Proof.
  induction v as [|b|n|s|items IH|props IH] using json_induction.
  - intros rest L _ HS. apply Scans_plain; [|exact HS].
    repeat constructor; discriminate.
  - intros rest L _ HS. apply Scans_plain; [|exact HS].
    destruct b; repeat constructor; discriminate.
  - intros rest L _ HS. apply Scans_plain; [|exact HS]. apply number_text_unquoted.
  - intros rest L Hrest HS. apply Scans_junk; [|exact HS].
    intros p Hp. now apply string_value_junk.
  - cbn [JSON_stringify refs_of].
    apply (@Scans_brackets_map _ (JSON_stringify Number_toString) refs_of items 91%N 93%N);
      [discriminate|now left|exact IH].
  - cbn [JSON_stringify refs_of].
    apply (@Scans_brackets_map _
             (fun kv => QuoteJSONString (fst kv) ++ lit ":"
                        ++ JSON_stringify Number_toString (snd kv))
             (fun kv => match member_ref kv with
                        | Some ku => [ku]
                        | None => refs_of (snd kv)
                        end)
             props 123%N 125%N); [discriminate|now right|].
    eapply Forall_impl; [|exact IH].
    intros [name v] Hv. cbn [fst snd] in *. now apply Scans_member.
Qed.

Lemma findAllRefs_refs_of (v : json number) :
  findAllRefs Number_toString v = Some (fold_left add_pair (refs_of v) Map_empty).
Proof.
  pose proof (@refs_scan v [] [] I Scans_nil) as HS.
  rewrite !app_nil_r in HS. now apply Scans_findAllRefs_text.
Qed.

(** X14: the index of a document is what [Map.set] makes, in the order of
    the text, of the properties that are references, at any depth of
    objects and arrays: the properties whose name is [$ref], or ends with a
    double quote and [$ref], and whose value is a string
    [<URL>#/properties/<key>] with a URL and a key that the pattern accepts.
    The text of a reference inside a string is no reference, and the value
    of a property that is a reference is not searched. *)
Theorem findAllRefs_by_structure (v : json number) :
  findAllRefs Number_toString v
  = Some (fold_left add_pair (refs_of v) Map_empty)
  /\ (forall (name : str) (value : json number) (k u : str),
        member_ref (name, value) = Some (k, u)
        <-> (name = lit "$ref" \/ exists pre, name = pre ++ dquote :: lit "$ref")
            /\ value = JStr (u ++ lit "#/properties/" ++ k)
            /\ well_formed_url u /\ well_formed_key k).
Proof.
  split.
  - apply findAllRefs_refs_of.
  - intros name value k u. unfold member_ref. cbn [fst snd]. split.
    + destruct value as [| | |s| |]; try discriminate.
      destruct (is_ref_key name) eqn:Ekey; [|discriminate].
      intros H. apply ref_target_spec in H as (-> & Hu & Hk).
      apply is_ref_key_spec in Ekey. auto.
    + intros (Hname & -> & Hu & Hk). apply is_ref_key_spec in Hname. rewrite Hname.
      apply ref_target_spec. auto.
Qed.

End Structure.

Lemma N_toString_unquoted (n : N) : Forall (fun c => c <> dquote) (N_toString n).
Proof.
  apply Forall_forall. intros c Hc.
  pose proof (N_toString_plain n) as H. rewrite forallb_forall in H.
  specialize (H c Hc). unfold plain_char in H.
  apply andb_true_iff in H as [H _]. apply negb_true_iff in H. now apply N.eqb_neq.
Qed.

Lemma findAllRefs_by_structure_witness :
  findAllRefs N_toString nested_example
  = Some (fold_left add_pair (refs_of nested_example) Map_empty)
  /\ (forall (name : str) (value : json N) (k u : str),
        member_ref (name, value) = Some (k, u)
        <-> (name = lit "$ref" \/ exists pre, name = pre ++ dquote :: lit "$ref")
            /\ value = JStr (u ++ lit "#/properties/" ++ k)
            /\ well_formed_url u /\ well_formed_key k).
Proof.
  apply (@findAllRefs_by_structure N N_toString N_toString_unquoted nested_example).
Defined.

(** ** What a run writes *)

Section Console.

Context {number : Type} (Number_toString : number -> str).
Variable w : World number.


End Console.

(** ** The schema of a document *)

Lemma fold_add_pair_other (l : list (str * str)) (urls : Map) (x : str) :
  ~ In x (map fst l) -> Map_get x (fold_left add_pair l urls) = Map_get x urls.
Proof.
  revert urls. induction l as [|[k u] l IH]; intros urls H; cbn [fold_left]; auto.
  cbn [map fst In] in H. rewrite IH by tauto. unfold add_pair. cbn [fst snd].
  rewrite Map_get_set. destruct (str_eqb x k) eqn:E; [|reflexivity].
  apply str_eqb_eq in E. exfalso. apply H. now left.
Qed.

Lemma fold_add_pair_last (l1 l2 : list (str * str)) (k u : str) (urls : Map) :
  ~ In k (map fst l2) ->
  Map_get k (fold_left add_pair (l1 ++ (k, u) :: l2) urls) = Some u.
Proof.
  intros H. rewrite fold_left_app. cbn [fold_left].
  rewrite fold_add_pair_other by exact H.
  unfold add_pair at 1. cbn [fst snd]. now rewrite Map_get_set, str_eqb_refl.
Qed.

Section SchemaChoice.

Context {number : Type} (Number_toString : number -> str).
Variable w : World number.

Hypothesis number_text_unquoted :
  forall n, Forall (fun c => c <> dquote) (Number_toString n).

(** X16: the schema that a run fetches for a document is the one of the last
    reference to the type of the document among the references of the
    parent schema, as its structure gives them; a type that no reference
    has ends the run after the fetch of the parent schema, with the message
    that names the type. *)
Theorem main_schema_by_structure (file : str) (jsonFile parent : json number)
    (types : Map) (k : str) :
  readInputParameters (process_argv w) = Return file ->
  fs_readJson w (RESOURCES_PATH ++ file) = Return jsonFile ->
  net_fetch w PARENT_SCHEME_URL 5000 = FetchResponse true (Return parent) ->
  getJsonFileType jsonFile types = Return k ->
  (forall l1 url l2,
     refs_of parent = l1 ++ (k, url) :: l2 -> ~ In k (map fst l2) ->
     fetches (fst (main Number_toString w))
     = [(PARENT_SCHEME_URL, 5000%N); (url, 5000%N)])
  /\ (~ In k (map fst (refs_of parent)) ->
      main Number_toString w
      = ([EvReadFile (RESOURCES_PATH ++ file); EvFetch PARENT_SCHEME_URL 5000;
          EvConsoleLog (lit "Json object invalid: " ++ k)],
         Completed)).
Proof.
  intros Hargv Hfs Hparent Htype.
  pose proof (@findAllRefs_refs_of _ Number_toString number_text_unquoted parent) as Hrefs.
  assert (Hio : findAllRefs_io Number_toString parent
                = ([], Done (fold_left add_pair (refs_of parent) Map_empty))).
  { unfold findAllRefs_io. now rewrite Hrefs. }
  assert (Htype' : getJsonFileType jsonFile
                     (fold_left add_pair (refs_of parent) Map_empty) = Return k).
  { exact Htype. }
  split.
  - intros l1 url l2 E Hlast.
    assert (Hget : Map_get k (fold_left add_pair (refs_of parent) Map_empty) = Some url).
    { rewrite E. now apply fold_add_pair_last. }
    unfold_run. rewrite Hargv. cbn. rewrite Hfs. cbn. rewrite Hparent. cbn.
    rewrite Hio. cbn. rewrite Htype'. cbn. rewrite Hget. cbn.
    destruct (net_fetch w url 5000) as [e0|[|] [sub|e0]]; cbn; try reflexivity.
    destruct (delete_property sub schema_key) as [sub'|e0]; cbn; try reflexivity.
    destruct (ajv_compile w sub') as [validate|e0]; cbn; try reflexivity.
    destruct (delete_property jsonFile schema_key) as [doc'|e0]; cbn; try reflexivity.
    destruct (validate doc') as [[|] errors|[e1|]|e1]; reflexivity.
  - intros Hnone.
    assert (Hget : Map_get k (fold_left add_pair (refs_of parent) Map_empty) = None).
    { now rewrite fold_add_pair_other. }
    unfold_run. rewrite Hargv. cbn. rewrite Hfs. cbn. rewrite Hparent. cbn.
    rewrite Hio. cbn. rewrite Htype'. cbn. rewrite Hget. reflexivity.
Qed.

End SchemaChoice.

Lemma main_schema_by_structure_witness :
  (forall l1 url l2,
     refs_of parent_example = l1 ++ (lit "invoice", url) :: l2 ->
     ~ In (lit "invoice") (map fst l2) ->
     fetches (fst (main N_toString world_invalid_invoice))
     = [(PARENT_SCHEME_URL, 5000%N); (url, 5000%N)])
  /\ (~ In (lit "invoice") (map fst (refs_of parent_example)) ->
      main N_toString world_invalid_invoice
      = ([EvReadFile (RESOURCES_PATH ++ lit "invoice.json");
          EvFetch PARENT_SCHEME_URL 5000;
          EvConsoleLog (lit "Json object invalid: " ++ lit "invoice")],
         Completed)).
Proof.
  apply (@main_schema_by_structure N N_toString world_invalid_invoice
           N_toString_unquoted (lit "invoice.json") invoice_document parent_example
           Map_empty (lit "invoice"));
    vm_compute; reflexivity.
Defined.
